(** * The document pipeline of app/document_loader.py, app/pinecone_utils.py and app/logic.py *)

From Stdlib Require Import Strings.String Strings.Ascii Lists.List Bool Arith Lia.
From Stdlib Require Import ZArith Numbers.DecimalString Numbers.DecimalNat Sorting.Permutation Sorting.Sorted.
Import ListNotations.
Open Scope bool_scope.

(** ** Characters, as Python's [re] and [str] methods classify them (ASCII part) *)
Module Chars.

Definition code (c : ascii) : nat := nat_of_ascii c.

(** [str.isspace] and [\s]: tab..carriage return, 0x1c..0x1f and space. *)
Definition is_space (c : ascii) : bool :=
  let n := code c in
  ((9 <=? n) && (n <=? 13)) || ((28 <=? n) && (n <=? 32)).

Definition is_digit (c : ascii) : bool := let n := code c in (48 <=? n) && (n <=? 57).
Definition is_upper (c : ascii) : bool := let n := code c in (65 <=? n) && (n <=? 90).
Definition is_lower (c : ascii) : bool := let n := code c in (97 <=? n) && (n <=? 122).
Definition is_alpha (c : ascii) : bool := is_upper c || is_lower c.

(** [\w]: letters, digits and underscore. *)
Definition is_word (c : ascii) : bool := is_alpha c || is_digit c || Ascii.eqb c "_"%char.

Definition lower (c : ascii) : ascii :=
  if is_upper c then ascii_of_nat (code c + 32) else c.
Definition upper (c : ascii) : ascii :=
  if is_lower c then ascii_of_nat (code c - 32) else c.

(** [.]: every character but a newline. *)
Definition is_dot (c : ascii) : bool := negb (Ascii.eqb c "010"%char).

(** A character class under [re.IGNORECASE]. *)
Definition ci (f : ascii -> bool) (c : ascii) : bool := f c || f (lower c) || f (upper c).

End Chars.
Import Chars.

(** ** A backtracking matcher with the semantics of Python's [re] module

    Patterns are built from character classes with a repetition range
    (greedy or lazy), concatenation, ordered alternation, capturing groups
    and the word boundary [\b].  The matcher is written in continuation
    passing style: alternatives are tried left to right, greedy repetitions
    from the longest count down, lazy ones from the shortest up, exactly
    the order in which [sre] backtracks. *)
Module Re.

Inductive re : Type :=
| Cls (f : ascii -> bool) (lo : nat) (hi : option nat) (lazy : bool)
| Cat (r1 r2 : re)
| Alt (r1 r2 : re)
| Grp (r : re)
| WordB.

(** The final answer of a match: the unconsumed input and the groups. *)
Definition answer : Type := (list ascii * list (list ascii))%type.
Definition kont : Type := option ascii -> list ascii -> list (list ascii) -> option answer.

(** Length of the longest prefix of [s] in the class, at most [hi]. *)
Fixpoint run (f : ascii -> bool) (hi : option nat) (s : list ascii) : nat :=
  match s, hi with
  | _, Some 0 => 0
  | [], _ => 0
  | c :: s', Some (S h) => if f c then S (run f (Some h) s') else 0
  | c :: s', None => if f c then S (run f None s') else 0
  end.

(** Character before the cursor after consuming [j] characters of [s]. *)
Definition prev_after (p : option ascii) (j : nat) (s : list ascii) : option ascii :=
  match j with 0 => p | S j' => nth_error s j' end.

Fixpoint try_down (j lo : nat) (g : nat -> option answer) : option answer :=
  match g j with
  | Some a => Some a
  | None => match j with
            | 0 => None
            | S j' => if j' <? lo then None else try_down j' lo g
            end
  end.

Fixpoint try_up (j cnt : nat) (g : nat -> option answer) : option answer :=
  match g j with
  | Some a => Some a
  | None => match cnt with 0 => None | S c => try_up (S j) c g end
  end.

Fixpoint mt (r : re) (p : option ascii) (s : list ascii) (caps : list (list ascii))
  (k : kont) : option answer :=
  match r with
  | Cls f lo hi lz =>
      let n := run f hi s in
      let g := fun j => k (prev_after p j s) (skipn j s) caps in
      if n <? lo then None
      else if lz then try_up lo (n - lo) g else try_down n lo g
  | Cat r1 r2 => mt r1 p s caps (fun p' s' c' => mt r2 p' s' c' k)
  | Alt r1 r2 =>
      match mt r1 p s caps k with
      | Some a => Some a
      | None => mt r2 p s caps k
      end
  | Grp r1 =>
      mt r1 p s caps (fun p' s' c' => k p' s' (c' ++ [firstn (length s - length s') s]))
  | WordB =>
      let w := fun o => match o with Some c => is_word c | None => false end in
      if Bool.eqb (w p) (w (hd_error s)) then None else k p s caps
  end.

(** Match anchored at the cursor ([re.match] when the cursor is at 0). *)
Definition match_at (r : re) (p : option ascii) (s : list ascii) : option answer :=
  mt r p s [] (fun _ s' c => Some (s', c)).

Definition matched (s : list ascii) (a : answer) : list ascii :=
  firstn (length s - length (fst a)) s.

(** [re.match(r, s)]: [Some group(0)] or [None]. *)
Definition re_match (r : re) (s : list ascii) : option (list ascii) :=
  option_map (matched s) (match_at r None s).

(** [re.search(r, s)]: leftmost match, [Some group(0)] or [None]. *)
Fixpoint search_go (r : re) (p : option ascii) (s : list ascii) : option (list ascii) :=
  match match_at r p s with
  | Some a => Some (matched s a)
  | None => match s with [] => None | c :: s' => search_go r (Some c) s' end
  end.
Definition re_search (r : re) (s : list ascii) : option (list ascii) := search_go r None s.

(** [re.findall] and [re.sub] for patterns that never match the empty
    string, which holds of every pattern of the module: matches are taken
    left to right without overlap. *)
Fixpoint findall_go (fuel : nat) (r : re) (p : option ascii) (s : list ascii)
  : list (list ascii) :=
  match fuel with
  | 0 => []
  | S fuel' =>
      match match_at r p s with
      | Some a =>
          if length (fst a) <? length s then
            let m := matched s a in
            m :: findall_go fuel' r (prev_after p (length m) s) (fst a)
          else match s with [] => [] | c :: s' => findall_go fuel' r (Some c) s' end
      | None => match s with [] => [] | c :: s' => findall_go fuel' r (Some c) s' end
      end
  end.
Definition findall (r : re) (s : list ascii) : list (list ascii) :=
  findall_go (S (length s)) r None s.

Fixpoint sub_go (fuel : nat) (r : re) (repl : list ascii -> list (list ascii) -> list ascii)
  (p : option ascii) (s : list ascii) : list ascii :=
  match fuel with
  | 0 => s
  | S fuel' =>
      match match_at r p s with
      | Some a =>
          if length (fst a) <? length s then
            let m := matched s a in
            repl m (snd a) ++ sub_go fuel' r repl (prev_after p (length m) s) (fst a)
          else match s with [] => [] | c :: s' => c :: sub_go fuel' r repl (Some c) s' end
      | None => match s with [] => [] | c :: s' => c :: sub_go fuel' r repl (Some c) s' end
      end
  end.
Definition sub (r : re) (repl : list ascii -> list (list ascii) -> list ascii)
  (s : list ascii) : list ascii :=
  sub_go (S (length s)) r repl None s.

(** Building blocks. *)
Definition one (f : ascii -> bool) : re := Cls f 1 (Some 1) false.
Definition star (f : ascii -> bool) : re := Cls f 0 None false.
Definition plus (f : ascii -> bool) : re := Cls f 1 None false.
Definition chr (c : ascii) (x : ascii) : bool := Ascii.eqb x c.
Definition any_of (cs : list ascii) (x : ascii) : bool := existsb (chr x) cs.

(** A literal string, case-sensitively ([ic = false]) or under IGNORECASE. *)
Fixpoint lit (ic : bool) (s : list ascii) : re :=
  match s with
  | [] => Cls (fun _ => false) 0 (Some 0) false
  | [c] => one (if ic then ci (chr c) else chr c)
  | c :: s' => Cat (one (if ic then ci (chr c) else chr c)) (lit ic s')
  end.

Fixpoint seq (rs : list re) : re :=
  match rs with
  | [] => Cls (fun _ => false) 0 (Some 0) false
  | [r] => r
  | r :: rs' => Cat r (seq rs')
  end.

Fixpoint alts (rs : list re) : re :=
  match rs with
  | [] => Cls (fun _ => false) 1 (Some 1) false
  | [r] => r
  | r :: rs' => Alt r (alts rs')
  end.

End Re.
Import Re.

Definition L (s : string) : list ascii := list_ascii_of_string s.
Definition S_ (l : list ascii) : string := string_of_list_ascii l.

(** [str.strip()], [str.lower()] and the [in] operator on strings. *)
Fixpoint lstrip_l (s : list ascii) : list ascii :=
  match s with c :: s' => if is_space c then lstrip_l s' else s | [] => [] end.
Definition strip (s : string) : string := S_ (rev (lstrip_l (rev (lstrip_l (L s))))).
Definition lower_s (s : string) : string := S_ (map lower (L s)).
Fixpoint contains (needle hay : list ascii) : bool :=
  match hay with
  | [] => match needle with [] => true | _ => false end
  | _ :: hay' => (if list_eq_dec ascii_dec needle (firstn (length needle) hay)
                  then true else false) || contains needle hay'
  end.
Definition py_in (needle hay : string) : bool := contains (L needle) (L hay).

(** ** The patterns of [detect_structure] and [semantic_chunking] *)
Module Patterns.

Definition digit := is_digit.
Definition dot := chr "."%char.
Definition upper_or_space (c : ascii) : bool := is_upper c || is_space c.

(** [^(?:\d+\.\s*[A-Z\s]+|\d+\.\d+\.\s*[A-Z\s]+|[A-Z\s]{10,}|[0-9]+\.\s*[A-Za-z].+)],
    [re.IGNORECASE]. *)
Definition heading_re : re :=
  alts [ seq [plus digit; one dot; star is_space; plus (ci upper_or_space)];
         seq [plus digit; one dot; plus digit; one dot; star is_space;
              plus (ci upper_or_space)];
         Cls (ci upper_or_space) 10 None false;
         seq [plus digit; one dot; star is_space; one (ci is_alpha); plus is_dot] ].

(** [^(?:[a-z]\)|\d+\.|Code\s*-\s*[A-Za-z0-9]+|[ivx]+\.)], [re.IGNORECASE]. *)
Definition clause_re : re :=
  alts [ seq [one (ci is_lower); one (chr ")"%char)];
         seq [plus digit; one dot];
         seq [lit true (L "Code"); star is_space; one (chr "-"%char); star is_space;
              plus (ci (fun c => is_alpha c || is_digit c))];
         seq [plus (ci (any_of (L "ivx"))); one dot] ].

(** [(?:not covered|exclusions?|conditions\s*apply|subject to|except\s*for|unless\s*otherwise\s*stated)],
    [re.IGNORECASE]. *)
Definition context_re : re :=
  alts [ lit true (L "not covered");
         seq [lit true (L "exclusion"); Cls (ci (chr "s"%char)) 0 (Some 1) false];
         seq [lit true (L "conditions"); star is_space; lit true (L "apply")];
         lit true (L "subject to");
         seq [lit true (L "except"); star is_space; lit true (L "for")];
         seq [lit true (L "unless"); star is_space; lit true (L "otherwise"); star is_space;
              lit true (L "stated")] ].

End Patterns.
Import Patterns.

(** ** Parsed elements and annotated records *)

Inductive category : Type := Title | ListItem | Table | Other.

(** A parsed element: [el_text = ""] stands for a missing [text] attribute,
    [el_page = None] for a missing or [None] page number, [Other] for a
    missing or unknown category. *)
Record element : Type := mk_element {
  el_text : string;
  el_page : option nat;
  el_category : category }.

(** Python lists are shared objects: a reference into the heap of lists. *)
Definition ref := nat.
Definition heap := list (list string).
Definition alloc (h : heap) : ref * heap := (length h, h ++ [[]]).
Definition deref (h : heap) (r : ref) : list string := nth r h [].
Fixpoint heap_set (h : heap) (r : ref) (v : list string) : heap :=
  match h, r with
  | [], _ => []
  | _ :: h', 0 => v :: h'
  | x :: h', S r' => x :: heap_set h' r' v
  end.
Definition heap_append (h : heap) (r : ref) (x : string) : heap :=
  heap_set h r (deref h r ++ [x]).

(** [record['metadata']]; [md_context] is the list object stored there. *)
Record meta : Type := mk_meta {
  md_section : option string;
  md_clause : option string;
  md_page : nat;
  md_context : ref }.

Record record : Type := mk_record {
  rec_text : string;
  rec_heading : option string;
  rec_meta : meta }.

(** The local variables of [detect_structure]. *)
Record dstate : Type := mk_dstate {
  current_section : option string;
  current_clause : option string;
  current_page : nat;
  last_heading : option string;
  context_stack : ref;
  dheap : heap }.

Definition dinit : dstate := mk_dstate None None 1 None 0 [[]].

(** Python's [x or y] on an optional string and a string. *)
Definition py_or (o : option string) (t : string) : string :=
  match o with Some s => if String.eqb s "" then t else s | None => t end.

Definition is_heading (t : string) (cat : category) : bool :=
  match re_match heading_re (L t) with
  | Some _ => true
  | None => match cat with Title => true | _ => false end
  end.

Definition clause_match (t : string) : option string :=
  option_map S_ (re_match clause_re (L t)).

Definition context_match (t : string) : option string :=
  option_map S_ (re_search context_re (L t)).

Definition is_annexure (t : string) : bool :=
  py_in "annexure" (lower_s t) || py_in "schedule" (lower_s t).

(** One iteration of the loop of [detect_structure]. *)
Definition detect_step (st : dstate) (e : element) : dstate * option record :=
  let t := strip (el_text e) in
  if String.eqb t "" then (st, None) else
  let pg := match el_page e with Some (S n) => S n | _ => current_page st end in
  let sec := current_section st in
  let cl := current_clause st in
  let lh := last_heading st in
  let cs := context_stack st in
  let h := dheap st in
  if is_heading t (el_category e) then
    let (cs', h1) := alloc h in
    let (lit_ctx, h2) := alloc h1 in
    (mk_dstate (Some t) cl pg (Some t) cs' h2,
     Some (mk_record t (Some t) (mk_meta (Some t) None pg lit_ctx)))
  else match clause_match t with
  | Some m =>
      (mk_dstate sec (Some m) pg lh cs h,
       Some (mk_record t lh (mk_meta sec (Some m) pg cs)))
  | None =>
      let h' := match context_match t with
                | Some q => heap_append h cs q
                | None => h end in
      let st' := mk_dstate sec cl pg lh cs h' in
      match el_category e with
      | ListItem => (st', Some (mk_record t lh (mk_meta sec cl pg cs)))
      | Table => (st', Some (mk_record t lh (mk_meta sec cl pg cs)))
      | _ =>
          if is_annexure t then
            (st', Some (mk_record t (Some (py_or lh t))
                                  (mk_meta (Some (py_or sec t)) None pg cs)))
          else (st', Some (mk_record t lh (mk_meta sec cl pg cs)))
      end
  end.

Fixpoint detect_go (st : dstate) (els : list element) : dstate * list record :=
  match els with
  | [] => (st, [])
  | e :: els' =>
      let (st1, o) := detect_step st e in
      let (st2, rs) := detect_go st1 els' in
      (st2, match o with Some r => r :: rs | None => rs end)
  end.

(** [detect_structure]: the records, and the heap their context lists live in. *)
Definition detect_structure (els : list element) : dstate * list record :=
  detect_go dinit els.

Definition plain (t : string) : element := mk_element t None Other.

(** ** [clean_text] *)
Module Clean.

Definition alnum (c : ascii) : bool := is_alpha c || is_digit c.
Definition nl := chr "010"%char.
Definition empty_repl (_ : list ascii) (_ : list (list ascii)) : list ascii := [].

(** [(?:Page \d+ of \d+|UIN: [A-Z0-9]+|\b[A-Z][a-zA-Z\s]*Co\.\s*Ltd\.|Confidential\s*?\n)],
    [re.IGNORECASE]. *)
Definition boiler_re : re :=
  alts [ seq [lit true (L "Page "); plus is_digit; lit true (L " of "); plus is_digit];
         seq [lit true (L "UIN: "); plus (ci (fun c => is_upper c || is_digit c))];
         seq [WordB; one (ci is_upper); star (ci (fun c => is_alpha c || is_space c));
              lit true (L "Co."); star is_space; lit true (L "Ltd.")];
         seq [lit true (L "Confidential"); Cls is_space 0 None true; one nl] ].

(** [\s+] *)
Definition ws_re : re := plus is_space.

(** [(\w+)-\s*(\w+)], replaced by [\1\2]. *)
Definition hyphen_re : re :=
  seq [Grp (plus is_word); one (chr "-"%char); star is_space; Grp (plus is_word)].
Definition hyphen_repl (_ : list ascii) (gs : list (list ascii)) : list ascii :=
  match gs with [g1; g2] => g1 ++ g2 | _ => [] end.

(** [(?:--+\s*Sent from.*|On .* wrote:.*|Best regards,.*|Sincerely,.* )], [re.IGNORECASE]
    (the blank before the closing parenthesis is not part of the pattern). *)
Definition eml_re : re :=
  alts [ seq [one (chr "-"%char); plus (chr "-"%char); star is_space;
              lit true (L "Sent from"); star is_dot];
         seq [lit true (L "On "); star is_dot; lit true (L " wrote:"); star is_dot];
         seq [lit true (L "Best regards,"); star is_dot];
         seq [lit true (L "Sincerely,"); star is_dot] ].

(** [(\[.*?\]|\{.*?\})] *)
Definition docx_re : re :=
  Grp (Alt (seq [one (chr "["%char); Cls is_dot 0 None true; one (chr "]"%char)])
           (seq [one (chr "{"%char); Cls is_dot 0 None true; one (chr "}"%char)])).

(** [(?:This document is.*|All rights reserved|Version \d+\.\d+)], [re.IGNORECASE]. *)
Definition legal_re : re :=
  alts [ seq [lit true (L "This document is"); star is_dot];
         lit true (L "All rights reserved");
         seq [lit true (L "Version "); plus is_digit; one (chr "."%char); plus is_digit] ].

Definition clean_text (text doc_ext : string) : string :=
  let t := sub boiler_re empty_repl (L text) in
  let t := sub ws_re (fun _ _ => [" "%char]) t in
  let t := sub hyphen_re hyphen_repl t in
  let t := if String.eqb doc_ext ".eml" then sub eml_re empty_repl t else t in
  let t := if String.eqb doc_ext ".docx" then sub docx_re empty_repl t else t in
  let t := sub legal_re empty_repl t in
  strip (S_ t).

End Clean.

(** ** Tokenizers of NLTK used by [semantic_chunking]

    [WordPunctTokenizer] is the regular expression [\w+|[^\w\s]+].  For
    [sent_tokenize] (the punkt model) we take the splitter the model
    reduces to on plain prose: a sentence ends at [.], [!] or [?] followed
    by white space. *)
Module Nltk.

Definition wordpunct_re : re :=
  Alt (plus is_word) (plus (fun c => negb (is_word c) && negb (is_space c))).
Definition wordpunct_tokenize (s : string) : list string :=
  map S_ (findall wordpunct_re (L s)).
Definition wordpunct_count (s : string) : nat := length (wordpunct_tokenize s).

Definition is_terminal (c : ascii) : bool := any_of (L ".!?") c.
Fixpoint split_sent (cur : list ascii) (s : list ascii) : list (list ascii) :=
  match s with
  | [] => [rev cur]
  | c :: s' =>
      if is_terminal c && match s' with d :: _ => is_space d | [] => false end
      then rev (c :: cur) :: split_sent [] s'
      else split_sent (c :: cur) s'
  end.
Definition sent_tokenize (t : string) : list string :=
  filter (fun s => negb (String.eqb s "")) (map (fun l => strip (S_ l)) (split_sent [] (L t))).

End Nltk.

(** Whitespace-delimited word count ([len(s.split())]). *)
Fixpoint words_go (inword : bool) (s : list ascii) : nat :=
  match s with
  | [] => 0
  | c :: s' => if is_space c then words_go false s'
               else if inword then words_go true s' else S (words_go true s')
  end.
Definition word_count (s : string) : nat := words_go false (L s).

(** ** Errors: the exceptions the pipeline can raise *)
Inductive exn : Type := AttributeError.

Inductive result (A : Type) : Type := Ok (a : A) | Raise (e : exn).
Arguments Ok {A} a.
Arguments Raise {A} e.

Definition bind {A B} (m : result A) (f : A -> result B) : result B :=
  match m with Ok a => f a | Raise e => Raise e end.
Notation "'let*' x ':=' m 'in' f" := (bind m (fun x => f)) (at level 200, x ident, m at level 100, f at level 200).

(** Python's [' '.join(xs)]. *)
Fixpoint join (sep : string) (xs : list string) : string :=
  match xs with
  | [] => ""
  | [x] => x
  | x :: xs' => x ++ sep ++ join sep xs'
  end.

(** Truthiness of an optional string. *)
Definition truthy (o : option string) : bool :=
  match o with Some s => negb (String.eqb s "") | None => false end.

Definition lastn {A} (k : nat) (l : list A) : list A := skipn (length l - k) l.

(** ** [semantic_chunking] and the section loop of [parse_document_in_memory] *)

(** A chunk; [ch_context] is the list object [current_context], shared with
    the metadata of the record the section run started with. *)
Record chunk : Type := mk_chunk {
  chunk_text : string;
  ch_heading : option string;
  ch_section : option string;
  ch_page : nat;
  ch_clause : string;
  ch_context : ref;
  ch_references : option (list string) }.

(** The local variables of the sentence loop. *)
Record cstate : Type := mk_cstate {
  cur_chunk : list string;
  cur_length : nat;
  clause_buffer : list string;
  clause_length : nat;
  cur_clause : option string;
  chunks : list chunk }.

(** [(?:See|Refer to)\s*(?:Section|Clause)\s*[A-Z0-9\-.\s]+], [re.IGNORECASE]. *)
Definition reference_re : re :=
  seq [ Alt (lit true (L "See")) (lit true (L "Refer to")); star is_space;
        Alt (lit true (L "Section")) (lit true (L "Clause")); star is_space;
        plus (ci (fun c => is_upper c || is_digit c || any_of (L "-.") c || is_space c)) ].

Definition or_empty (o : option string) : string :=
  match o with Some s => s | None => "" end.

Definition opt_str_eqb (a b : option string) : bool :=
  match a, b with
  | Some x, Some y => String.eqb x y
  | None, None => true
  | _, _ => false
  end.

Definition nonempty {A} (l : list A) : bool := match l with [] => false | _ => true end.

(** [chunk_text], with the context prefix [[q1 q2 ...] ] when the context is non-empty. *)
Definition render (ctx body : list string) : string :=
  let t := join " " body in
  if nonempty ctx then "[" ++ join " " ctx ++ "] " ++ t else t.

Section Chunker.

(** [sent_tokenize] and [len(tokenizer.tokenize(.))] of NLTK. *)
Variable sent_tokenize : string -> list string.
Variable ntok : string -> nat.

Definition sum_tokens (l : list string) : nat := fold_right (fun s n => ntok s + n) 0 l.

Section Run.
Variables (heading : option string) (md : meta) (ctx : list string) (max_tokens : nat).

(** [[heading] if heading else []] and its token count. *)
Definition heading_seed : list string := if truthy heading then [or_empty heading] else [].
Definition heading_tokens : nat := if truthy heading then ntok (or_empty heading) else 0.

Definition emit (cl : option string) (body : list string) : chunk :=
  mk_chunk (render ctx body) heading (md_section md) (md_page md) (or_empty cl)
           (md_context md) None.

(** [clause_buffer[-min(len(clause_buffer), 1 if clause_length < 100 else 2):]] *)
Definition overlap_sentences (buf : list string) (len : nat) : list string :=
  lastn (Nat.min (length buf) (if len <? 100 then 1 else 2)) buf.

(** Finalize the pending clause buffer: merge it, or emit the current chunk
    and reseed with the heading and the overlap tail. *)
Definition finalize (st : cstate) : list string * nat * list chunk :=
  if cur_length st + clause_length st <=? max_tokens then
    (cur_chunk st ++ clause_buffer st, cur_length st + clause_length st, chunks st)
  else
    let ov := overlap_sentences (clause_buffer st) (clause_length st) in
    (heading_seed ++ ov, heading_tokens + sum_tokens ov,
     chunks st ++ [emit (cur_clause st) (cur_chunk st)]).

Definition chunk_step (st : cstate) (sentence : string) : cstate :=
  let sentence_tokens := ntok sentence in
  let st1 :=
    match clause_match sentence, clause_buffer st with
    | Some m, _ :: _ =>
        let '(c, l, out) := finalize st in mk_cstate c l [] 0 (Some m) out
    | _, _ => st
    end in
  mk_cstate (cur_chunk st1) (cur_length st1) (clause_buffer st1 ++ [sentence])
            (clause_length st1 + sentence_tokens) (cur_clause st1) (chunks st1).

(** [# Process remaining clause]: returns the final [current_chunk] and [chunks]. *)
Definition flush_remaining (st : cstate) : list string * list chunk :=
  if nonempty (clause_buffer st) then
    if cur_length st + clause_length st <=? max_tokens then
      (cur_chunk st ++ clause_buffer st, chunks st)
    else
      let out1 := chunks st ++ [emit (cur_clause st) (cur_chunk st)] in
      let ov := overlap_sentences (clause_buffer st) (clause_length st) in
      let c := heading_seed ++ ov in
      (c, out1 ++ [emit (cur_clause st) c])
  else (cur_chunk st, chunks st).

(** [# Add final chunk if any]. *)
Definition final_chunk (cl : option string) (c : list string) (out : list chunk) : list chunk :=
  match c with
  | [] => out
  | x :: rest =>
      if nonempty rest || negb (opt_str_eqb (Some x) heading) then out ++ [emit cl c] else out
  end.

Definition chunk_sentences (sentences : list string) : list chunk :=
  let st0 := mk_cstate heading_seed heading_tokens [] 0 (md_clause md) [] in
  let st := fold_left chunk_step sentences st0 in
  let '(c, out) := flush_remaining st in
  final_chunk (cur_clause st) c out.

End Run.

(** Fallback context detection: appends, in place, each new qualifier found. *)
Definition fallback_context (h : heap) (r : ref) (sentences : list string) : heap :=
  fold_left (fun h s => match context_match s with
                        | Some q => if existsb (String.eqb q) (deref h r) then h
                                    else heap_append h r q
                        | None => h
                        end) sentences h.

(** [semantic_chunking(text, heading, metadata, max_tokens, overlap)]; a
    [None] metadata makes [metadata.get] raise. *)
Definition semantic_chunking (h : heap) (text : string) (heading : option string)
  (metadata : option meta) (max_tokens overlap : nat) : result (heap * list chunk) :=
  let sentences := sent_tokenize text in
  match metadata with
  | None => Raise AttributeError
  | Some md =>
      let r := md_context md in
      let h' := if nonempty (deref h r) then h else fallback_context h r sentences in
      Ok (h', chunk_sentences heading md (deref h' r) max_tokens sentences)
  end.

Definition flush (h : heap) (fin : list chunk) (texts : list string) (hd : option string)
  (md : option meta) : result (heap * list chunk) :=
  if nonempty texts then
    let* p := semantic_chunking h (join " " texts) hd md 500 100 in
    Ok (fst p, fin ++ snd p)
  else Ok (h, fin).

(** The [for element in structured_elements] loop and the final flush. *)
Fixpoint group_go (h : heap) (fin : list chunk) (texts : list string)
  (hd : option string) (md : option meta) (recs : list record) : result (heap * list chunk) :=
  match recs with
  | [] => flush h fin texts hd md
  | r :: rs =>
      if opt_str_eqb (rec_heading r) hd then
        group_go h fin (texts ++ [rec_text r]) hd md rs
      else
        let* p := flush h fin texts hd md in
        group_go (fst p) (snd p) [rec_text r] (rec_heading r) (Some (rec_meta r)) rs
  end.

Definition chunk_sections (h : heap) (recs : list record) : result (heap * list chunk) :=
  group_go h [] [] None None recs.

End Chunker.

(** Reference extraction of [parse_document_in_memory]. *)
Definition references (t : string) : list string := map S_ (findall reference_re (L t)).
Definition add_references (c : chunk) : chunk :=
  match references (chunk_text c) with
  | [] => c
  | refs => mk_chunk (chunk_text c) (ch_heading c) (ch_section c) (ch_page c)
                     (ch_clause c) (ch_context c) (Some refs)
  end.

(** The structuring and chunking core of [parse_document_in_memory], with
    NLTK's tokenizers. *)
Definition parse_elements (els : list element) : result (list chunk) :=
  let '(st, recs) := detect_structure els in
  let* p := chunk_sections Nltk.sent_tokenize Nltk.wordpunct_count (dheap st) recs in
  Ok (map add_references (snd p)).

(** ** Classification of an element, in the priority order of [detect_structure] *)
Inductive kind : Type :=
| KSkip | KHeading | KClause (m : string) | KList | KTable | KAnnex | KPlain.

Definition classify (e : element) : kind :=
  let t := strip (el_text e) in
  if String.eqb t "" then KSkip
  else if is_heading t (el_category e) then KHeading
  else match clause_match t with
       | Some m => KClause m
       | None => match el_category e with
                 | ListItem => KList
                 | Table => KTable
                 | _ => if is_annexure t then KAnnex else KPlain
                 end
       end.

(** The context list a record observes in the heap at the end of the scan. *)
Definition context_at (d : dstate * list record) (i : nat) : list string :=
  match nth_error (snd d) i with
  | Some r => deref (dheap (fst d)) (md_context (rec_meta r))
  | None => []
  end.

Definition table_as_list (e : element) : element :=
  match el_category e with
  | Table => mk_element (el_text e) (el_page e) ListItem
  | _ => e
  end.

(** Representative boilerplate inputs of the normalizer, with document kinds. *)
Definition nl_s : string := String "010"%char "".
Local Open Scope string_scope.
Definition boilerplate_samples : list (string * string) :=
  [ ("Page 3 of 12 Policy wording", ".pdf");
    ("UIN: IRDAN123RP0001 Policy schedule", ".pdf");
    ("Issued by Acme General Insurance Co. Ltd. for you", ".pdf");
    ("Confidential" ++ nl_s ++ "Terms of cover", ".docx");
    ("Benefits   of the  plan" ++ nl_s ++ "apply", ".pdf");
    ("Sum insured. Version 2.1 All rights reserved", ".pdf");
    ("Cover text. This document is the property of the insurer", ".pdf");
    ("Please find the policy. Best regards, Claims Team", ".eml");
    ("Reply text. -- Sent from my phone", ".eml");
    ("Dear member, see below {NAME}", ".docx");
    ("Clause text [AUTO-FIELD]", ".docx") ].
Local Close Scope string_scope.

(** ** The document extension of [parse_document_in_memory]

    [ext = document_url.split('?', 1)[0]] and
    [ext = ext[ext.rfind('.'):].lower()]. *)

Fixpoint before_qmark (s : list ascii) : list ascii :=
  match s with
  | [] => []
  | c :: s' => if Ascii.eqb c "?"%char then [] else c :: before_qmark s'
  end.

(** [s.rfind(c)]: the index of the last occurrence, [-1] when there is none. *)
Fixpoint rfind_go (c : ascii) (i : Z) (s : list ascii) (found : Z) : Z :=
  match s with
  | [] => found
  | x :: s' => rfind_go c (i + 1)%Z s' (if Ascii.eqb x c then i else found)
  end.
Definition rfind (c : ascii) (s : list ascii) : Z := rfind_go c 0 s (-1).

(** [s[k:]], a negative [k] counting from the end. *)
Definition slice_from (k : Z) (s : list ascii) : list ascii :=
  if (k <? 0)%Z then skipn (length s - Z.to_nat (- k)) s else skipn (Z.to_nat k) s.

Definition url_ext (document_url : string) : string :=
  let ext := before_qmark (L document_url) in
  lower_s (S_ (slice_from (rfind "."%char ext) ext)).

(** ** Bookkeeping of the detector *)

(** The qualifier the detector appends to [context_stack] for an element. *)
Definition qualifier (e : element) : list string :=
  match classify e with
  | KList | KTable | KAnnex | KPlain =>
      match context_match (strip (el_text e)) with Some q => [q] | None => [] end
  | _ => []
  end.

(** [current_page] after a run of elements: the last positive page number
    of an element with non-empty text. *)
Definition page_after (p : nat) (els : list element) : nat :=
  fold_left (fun p e => if String.eqb (strip (el_text e)) "" then p
                        else match el_page e with Some (S n) => S n | _ => p end) els p.

(** The [current_clause] of the sentence loop after [ss] when no clause
    buffer is ever finalized into a separate chunk: a clause start counts
    only once the buffer holds a sentence. *)
Fixpoint clause_after (cl : option string) (started : bool) (ss : list string) : option string :=
  match ss with
  | [] => cl
  | s :: ss' =>
      clause_after (match clause_match s with
                    | Some m => if started then Some m else cl
                    | None => cl end) true ss'
  end.

(** ** [app/pinecone_utils.py]: metadata sanitization and batched upload *)

(** The Python values a metadata dict can hold. *)
#[local] Set Warnings "-register-all".
Inductive pyval : Type :=
| VNone
| VStr (s : string)
| VInt (z : Z)
| VFloat (repr : string)
| VBool (b : bool)
| VList (xs : list pyval)
| VObj (type_name : string).

Definition is_str (v : pyval) : bool := match v with VStr _ => true | _ => false end.

(** A dict is an association list with its keys in insertion order. *)
Definition pydict : Type := list (string * pyval).

(** [d[k] = v]: overwrites in place, or appends a new key. *)
Fixpoint dict_set (k : string) (v : pyval) (d : pydict) : pydict :=
  match d with
  | [] => [(k, v)]
  | (k', v') :: d' => if String.eqb k k' then (k, v) :: d' else (k', v') :: dict_set k v d'
  end.

(** The exceptions raised by the upload and query path. *)
Inductive pyexc : Type :=
  ValueError | KeyError | AttrError | TypeError | OverflowError | Raised (msg : string).

Inductive outcome (A : Type) : Type := Done (a : A) | Fail (e : pyexc).
Arguments Done {A} a.
Arguments Fail {A} e.

Definition obind {A B} (m : outcome A) (f : A -> outcome B) : outcome B :=
  match m with Done a => f a | Fail e => Fail e end.
Notation "'let?' x ':=' m 'in' f" := (obind m (fun x => f))
  (at level 200, x ident, m at level 100, f at level 200).

(** [range(start, stop, step)]. *)
Fixpoint range_go (fuel : nat) (i stop step : Z) : list Z :=
  match fuel with
  | 0 => []
  | S f => if (if (0 <? step)%Z then (i <? stop)%Z else (stop <? i)%Z)
           then i :: range_go f (i + step)%Z stop step else []
  end.
Definition py_range (start stop step : Z) : outcome (list Z) :=
  if (step =? 0)%Z then Fail ValueError
  else Done (range_go (S (Z.to_nat (Z.abs (stop - start)))) start stop step).

(** [l[i:j]]. *)
Definition py_index (len : nat) (i : Z) : nat :=
  if (i <? 0)%Z then Z.to_nat (Z.max 0 (Z.of_nat len + i)) else Nat.min len (Z.to_nat i).
Definition py_slice {A} (l : list A) (i j : Z) : list A :=
  let a := py_index (length l) i in
  let b := py_index (length l) j in
  firstn (b - a) (skipn a l).

(** [str(i)] for a natural number. *)
Definition str_nat (n : nat) : string := NilEmpty.string_of_uint (Nat.to_uint n).

Section Pinecone.
(** An embedding vector, [str(value)], and [generate_embeddings]. *)
Variable E : Type.
Variable py_str : pyval -> string.
Variable generate_embeddings : list string -> list E.

Definition sanitize_value (v : pyval) : pyval :=
  match v with
  | VNone => VStr ""
  | VStr s => VStr s
  | VList xs => if forallb is_str xs then VList xs else VStr (py_str v)
  | _ => VStr (py_str v)
  end.

Definition sanitized_metadata (text : string) (metadata : pydict) : pydict :=
  fold_left (fun d kv => dict_set (fst kv) (sanitize_value (snd kv)) d) metadata
            [("chunk_text"%string, VStr text)].

Record vector : Type := mk_vector {
  v_id : string;
  v_values : E;
  v_metadata : pydict }.

(** A chunk as [upsert_chunks] reads it: [chunk['chunk_text']] and
    [chunk['metadata']]. *)
Definition pychunk : Type := (string * pydict)%type.

(** [for i, (embedding, chunk) in enumerate(zip(embeddings, chunks))]. *)
Fixpoint vectors_go (i : nat) (es : list E) (cs : list pychunk) : list vector :=
  match es, cs with
  | e :: es', c :: cs' =>
      mk_vector ("chunk_" ++ str_nat i) e (sanitized_metadata (fst c) (snd c))
        :: vectors_go (S i) es' cs'
  | _, _ => []
  end.

Definition make_vectors (chunks : list pychunk) : list vector :=
  vectors_go 0 (generate_embeddings (map fst chunks)) chunks.

(** The index: the vector stored under each id. *)
Definition index : Type := string -> option vector.

Definition upsert (idx : index) (batch : list vector) : index :=
  fold_left (fun idx v => fun k => if String.eqb k (v_id v) then Some v else idx k) batch idx.

Definition upsert_chunks (idx : index) (chunks : list pychunk) (batch_size : Z) : outcome index :=
  let vectors := make_vectors chunks in
  let? is := py_range 0 (Z.of_nat (length vectors)) batch_size in
  Done (fold_left (fun idx i => upsert idx (py_slice vectors i (i + batch_size)%Z)) is idx).

(** The batches sent by the upload loop. *)
Definition batches (vectors : list vector) (batch_size : Z) : outcome (list (list vector)) :=
  let? is := py_range 0 (Z.of_nat (length vectors)) batch_size in
  Done (map (fun i => py_slice vectors i (i + batch_size)%Z) is).

End Pinecone.

(** The dict [parse_document_in_memory] hands to [upsert_chunks] for a chunk:
    [chunk_text] and [{**metadata, 'clause': ..., 'context': ...}], with
    [references] added last when there are any. *)
Definition opt_val (o : option string) : pyval := match o with Some s => VStr s | None => VNone end.

Definition chunk_dict (h : heap) (c : chunk) : pychunk :=
  (chunk_text c,
   [("section"%string, opt_val (ch_section c)); ("clause"%string, VStr (ch_clause c));
    ("page"%string, VInt (Z.of_nat (ch_page c)));
    ("context"%string, VList (map VStr (deref h (ch_context c))))]
   ++ match ch_references c with
      | Some refs => [("references"%string, VList (map VStr refs))]
      | None => []
      end).

(** ** [app/logic.py]: keyword boost, re-ranking and the query loop *)

(** [d.get(k)] *)
Fixpoint dict_get (k : string) (d : pydict) : option pyval :=
  match d with
  | [] => None
  | (k', v) :: d' => if String.eqb k k' then Some v else dict_get k d'
  end.

Fixpoint omap {A B} (f : A -> outcome B) (l : list A) : outcome (list B) :=
  match l with
  | [] => Done []
  | x :: l' => let? y := f x in let? ys := omap f l' in Done (y :: ys)
  end.

(** [l[n] = f(l[n])], for an index known to be in range. *)
Fixpoint update_nth {A} (n : nat) (f : A -> A) (l : list A) : list A :=
  match l, n with
  | [], _ => []
  | x :: l', 0 => f x :: l'
  | x :: l', S n' => x :: update_nth n' f l'
  end.

Definition numeric (v : pyval) : bool :=
  match v with VInt _ | VFloat _ | VBool _ => true | _ => false end.

(** [s.replace("_", " ")] *)
Definition replace_us (s : string) : string :=
  S_ (map (fun c => if Ascii.eqb c "_"%char then " "%char else c) (L s)).

(** [float(n)] of an int raises OverflowError from [2 ** 1024 - 2 ** 970] on
    (the half-way point above the largest double rounds up to [2 ** 1024]). *)
Definition float_overflows (v : pyval) : bool :=
  match v with VInt n => (2 ^ 1024 - 2 ^ 970 <=? Z.abs n)%Z | _ => false end.

(** The values [eval] can give the fields of the parsed query, as far as
    [pyval] has them; [VObj] is an object of a class without [__bool__],
    [__len__], [__iter__] and string methods. *)

(** [bool(v)] *)
Definition py_truthy (v : pyval) : bool :=
  match v with
  | VNone => false
  | VStr s => negb (String.eqb s "")
  | VInt z => negb (z =? 0)%Z
  | VFloat r => negb (String.eqb r "0.0" || String.eqb r "-0.0")
  | VBool b => b
  | VList xs => match xs with [] => false | _ => true end
  | VObj _ => true
  end.

(** [iter(v)]: a string gives its characters, a list its elements. *)
Definition py_iter (v : pyval) : outcome (list pyval) :=
  match v with
  | VStr s => Done (map (fun c => VStr (String c "")) (L s))
  | VList xs => Done xs
  | _ => Fail TypeError
  end.

(** [v.replace("_", " ")] and [v.lower()]: only a string has them. *)
Definition py_replace_us (v : pyval) : outcome string :=
  match v with VStr s => Done (replace_us s) | _ => Fail AttrError end.
Definition py_lower (v : pyval) : outcome string :=
  match v with VStr s => Done (lower_s s) | _ => Fail AttrError end.

(** [sep.join(vs)]: every item must be a string. *)
Definition py_join (sep : string) (vs : list pyval) : outcome string :=
  let? ss := omap (fun v => match v with VStr s => Done s | _ => Fail TypeError end) vs in
  Done (join sep ss).


Section Logic.
(** Python floats: the operations the code uses, and [<]. *)
Variable F : Type.
Variables (fadd fsub fmul : F -> F -> F) (f_of_nat : nat -> F) (to_F : pyval -> F).
Variables (f01 f03 f07 f1 f005 : F).
Variable flt : F -> F -> bool.

(** [chunk["llm_score"]]: a value of the LLM's JSON reply, or a fallback float. *)
Inductive lscore : Type := LJson (v : pyval) | LFloat (x : F).

(** A retrieved chunk: the dict built by [query_pinecone], with the keys the
    query path adds to it. *)
Record qchunk : Type := mk_qchunk {
  q_text : pyval;
  q_metadata : pydict;
  q_score : F;
  q_llm : option lscore;
  q_final : option F }.

(** [query_pinecone]: one dict per match [(match['metadata'], match['score'])]. *)
Definition query_chunks (matches : list (pydict * F)) : list qchunk :=
  map (fun m => mk_qchunk (match dict_get "chunk_text"%string (fst m) with Some v => v | None => VStr ""%string end)
                          (fst m) (snd m) None None) matches.

(** [chunk.get("chunk_text", "").lower()]: only a string has [lower]. *)
Definition chunk_text_lower (c : qchunk) : outcome string :=
  match q_text c with VStr s => Done (lower_s s) | _ => Fail AttrError end.

Definition match_count (query_keywords : list string) (text : string) : nat :=
  length (filter (fun kw => py_in (lower_s kw) text) query_keywords).

Definition boost_chunk (query_keywords : list string) (boost : F) (c : qchunk) : outcome qchunk :=
  let? text := chunk_text_lower c in
  let n := match_count query_keywords text in
  if 0 <? n then
    Done (mk_qchunk (q_text c) (q_metadata c) (fadd (q_score c) (fmul boost (f_of_nat n)))
                    (q_llm c) (q_final c))
  else Done c.

Definition apply_keyword_boost (chunks : list qchunk) (query_keywords : list string) (boost : F)
  : outcome (list qchunk) :=
  omap (boost_chunk query_keywords boost) chunks.

(** The same for any value of [query_keywords]: it is iterated, and each
    keyword lowered, once per chunk, after the chunk's text. *)
Definition match_count_any (query_keywords : pyval) (text : string) : outcome nat :=
  let? kws := py_iter query_keywords in
  let? lows := omap py_lower kws in
  Done (length (filter (fun kw => py_in kw text) lows)).

Definition boost_chunk_any (query_keywords : pyval) (boost : F) (c : qchunk) : outcome qchunk :=
  let? text := chunk_text_lower c in
  let? n := match_count_any query_keywords text in
  if 0 <? n then
    Done (mk_qchunk (q_text c) (q_metadata c) (fadd (q_score c) (fmul boost (f_of_nat n)))
                    (q_llm c) (q_final c))
  else Done c.

Definition apply_keyword_boost_any (chunks : list qchunk) (query_keywords : pyval) (boost : F)
  : outcome (list qchunk) :=
  omap (boost_chunk_any query_keywords boost) chunks.

(** What the [try] block of [rerank_chunks_with_llm] gets: an exception
    (API error, invalid JSON, a malformed item), or the items
    [(item["passage"], item["score"])] with integer passages. *)
Inductive llm_reply : Type := ReplyRaises | ReplyScores (items : list (Z * pyval)).

Definition set_llm (x : lscore) (c : qchunk) : qchunk :=
  mk_qchunk (q_text c) (q_metadata c) (q_score c) (Some x) (q_final c).

Definition attach_scores (items : list (Z * pyval)) (chunks : list qchunk) : list qchunk :=
  fold_left (fun cs item =>
               let idx := (fst item - 1)%Z in
               if (0 <=? idx)%Z && (idx <? Z.of_nat (length cs))%Z
               then update_nth (Z.to_nat idx) (set_llm (LJson (snd item))) cs else cs)
            items chunks.

Fixpoint fallback_scores (i : nat) (chunks : list qchunk) : list qchunk :=
  match chunks with
  | [] => []
  | c :: cs => set_llm (LFloat (fsub f1 (fmul (f_of_nat i) f01))) c :: fallback_scores (S i) cs
  end.

(** [0.7 * chunk.get("llm_score", 0)]'s operand: a non-number raises
    TypeError, an int too large for a float OverflowError. *)
Definition llm_value (o : option lscore) : outcome F :=
  match o with
  | None => Done (to_F (VInt 0))
  | Some (LFloat x) => Done x
  | Some (LJson v) =>
      if numeric v then (if float_overflows v then Fail OverflowError else Done (to_F v))
      else Fail TypeError
  end.

Definition set_final (c : qchunk) : outcome qchunk :=
  let? l := llm_value (q_llm c) in
  Done (mk_qchunk (q_text c) (q_metadata c) (q_score c) (q_llm c)
                  (Some (fadd (fmul f03 (q_score c)) (fmul f07 l)))).

Definition final_key (c : qchunk) : F := match q_final c with Some x => x | None => to_F (VInt 0) end.

(** [sorted(chunks, key=final_score, reverse=True)]: stable, descending; for a
    strict weak order [flt] this is the unique stable sort. *)
Fixpoint insert_desc (x : qchunk) (l : list qchunk) : list qchunk :=
  match l with
  | [] => [x]
  | y :: l' => if flt (final_key x) (final_key y) then y :: insert_desc x l' else x :: l
  end.
Fixpoint sort_desc (l : list qchunk) : list qchunk :=
  match l with [] => [] | x :: l' => insert_desc x (sort_desc l') end.

Definition rerank_chunks_with_llm (chunks : list qchunk) (reply : llm_reply) : outcome (list qchunk) :=
  let scored := match reply with
                | ReplyRaises => fallback_scores 0 chunks
                | ReplyScores items => attach_scores items chunks
                end in
  let? finals := omap set_final scored in
  Done (sort_desc finals).

(** The values [parsed.get(...)] gives, once [parse_query_with_mistral]
    returned: [intent] and [entity] are [None] when missing, [conditions]
    and [keywords] default to [[]]. *)
Record parsed : Type := mk_parsed {
  p_intent : pyval;
  p_entity : pyval;
  p_conditions : pyval;
  p_keywords : pyval }.

(** [parse_query_with_mistral(question)]: it raises (the message [str(e)]),
    or returns a value without [get] ([eval] of a list, a string, ...), or
    a dict. *)
Inductive parse_result : Type :=
| ParseRaises (msg : string)
| ParsedNoGet
| Parsed (p : parsed).

Variable ingest : string -> outcome unit.             (* parse_document_in_memory, ensure_pinecone_index *)
Variable parse_query : string -> parse_result.
Variable matches_for : string -> outcome (list (pydict * F)).
  (* query_pinecone(query_text, index, top_k=10): the matches, or what the
     embedding call, the index query or a match without metadata raises *)
Variable llm_rank : string -> list qchunk -> llm_reply.
Variable fmt4 : F -> string.                          (* f"{x:.4f}" *)
Variable py_str : pyval -> string.                    (* str(value), for values other than str and None *)

(** [f"{v}"] *)
Definition fmt_val (v : pyval) : string :=
  match v with VStr s => s | VNone => "None"%string | _ => py_str v end.
Definition fmt_get (k : string) (d : pydict) : string :=
  match dict_get k d with Some v => fmt_val v | None => "N/A"%string end.

Definition match_line (i : nat) (c : qchunk) : outcome string :=
  match q_final c with
  | None => Fail KeyError
  | Some x =>
      Done (str_nat i ++ ". " ++ (match q_text c with VStr s => substring 0 200 s | v => py_str v end)
            ++ "... (Section: " ++ fmt_get "section" (q_metadata c)
            ++ ", Page: " ++ fmt_get "page" (q_metadata c)
            ++ ", Score: " ++ fmt4 x ++ ")" ++ nl_s)%string
  end.

Fixpoint match_lines (i : nat) (cs : list qchunk) : outcome (list string) :=
  match cs with
  | [] => Done []
  | c :: cs' => let? l := match_line i c in let? ls := match_lines (S i) cs' in Done (l :: ls)
  end.

(** [query_parts]: the intent with blanks for underscores, the entity when
    truthy, then the items of the conditions and of the keywords when truthy. *)
Definition query_parts (p : parsed) : outcome (list pyval) :=
  let? i := py_replace_us (p_intent p) in
  let parts := VStr i :: (if py_truthy (p_entity p) then [p_entity p] else []) in
  let? conds := if py_truthy (p_conditions p) then py_iter (p_conditions p) else Done [] in
  let? kws := if py_truthy (p_keywords p) then py_iter (p_keywords p) else Done [] in
  Done (parts ++ conds ++ kws).

Definition answer_for (question : string) : outcome string :=
  match parse_query question with
  | ParseRaises msg => Done ("Failed to parse query: " ++ msg)%string
  | ParsedNoGet => Fail AttrError
  | Parsed p =>
      let? parts := query_parts p in
      let? qtext := py_join " " parts in
      let? ms := matches_for qtext in
      let? initial := apply_keyword_boost_any (query_chunks ms) (p_keywords p) f005 in
      let? top := rerank_chunks_with_llm initial (llm_rank question initial) in
      let? lines := match_lines 1 (firstn 5 top) in
      Done ("Intent: " ++ fmt_val (p_intent p) ++ nl_s ++ "Entity: " ++ fmt_val (p_entity p) ++ nl_s
            ++ "Top Matches:" ++ nl_s ++ String.concat "" lines)%string
  end.

Definition process_query (document_url : string) (questions : list string) : outcome (list string) :=
  obind (ingest document_url) (fun _ => omap answer_for questions).

End Logic.

Arguments q_text {F} _.
Arguments q_metadata {F} _.
Arguments q_score {F} _.
Arguments q_llm {F} _.
Arguments q_final {F} _.
Arguments mk_qchunk {F} _ _ _ _ _.
Arguments LJson {F} _.
Arguments LFloat {F} _.

(** * Theorems *)

Section Grouping.
Variable sent_tokenize : string -> list string.
Variable ntok : string -> nat.

Lemma group_go_no_metadata : forall recs h fin texts,
  nonempty texts = true ->
  group_go sent_tokenize ntok h fin texts None None recs = Raise AttributeError.
Proof.
  induction recs as [|r rs IH]; intros h fin texts Ht; simpl.
  - unfold flush. rewrite Ht. reflexivity.
  - destruct (opt_str_eqb (rec_heading r) None) eqn:E.
    + apply IH. destruct texts; [discriminate | reflexivity].
    + unfold flush. rewrite Ht. reflexivity.
Qed.

End Grouping.

Lemma detect_step_skip : forall st e,
  String.eqb (strip (el_text e)) "" = true -> detect_step st e = (st, None).
Proof. intros st e H. unfold detect_step. rewrite H. reflexivity. Qed.

Lemma detect_step_text : forall st e,
  option_map rec_text (snd (detect_step st e)) =
  if String.eqb (strip (el_text e)) "" then None else Some (strip (el_text e)).
Proof.
  intros st e. unfold detect_step.
  destruct (String.eqb (strip (el_text e)) "") eqn:E; [reflexivity|].
  destruct (is_heading _ _); [reflexivity|].
  destruct (clause_match _); [reflexivity|].
  destruct (el_category e); try reflexivity;
    destruct (is_annexure _); reflexivity.
Qed.

Lemma detect_go_text : forall els st,
  map rec_text (snd (detect_go st els)) =
  filter (fun t => negb (String.eqb t "")) (map (fun e => strip (el_text e)) els).
Proof.
  induction els as [|e els IH]; intros st; [reflexivity|].
  simpl. pose proof (detect_step_text st e) as Hs.
  destruct (detect_step st e) as [st1 o] eqn:E.
  destruct (detect_go st1 els) as [st2 rs] eqn:E2.
  simpl in Hs |- *.
  specialize (IH st1). rewrite E2 in IH. simpl in IH.
  destruct (String.eqb (strip (el_text e)) "") eqn:Ht; simpl.
  - destruct o; [discriminate|]. exact IH.
  - destruct o as [r|]; [|discriminate]. simpl. injection Hs as Hs.
    rewrite Hs, IH. reflexivity.
Qed.

(** C1 (the claim fails on the code): if the first record of the scan
    has no heading (e.g. no element is classified as a heading), the
    section loop calls [semantic_chunking] with [current_metadata = None]
    and the pipeline raises an [AttributeError] instead of returning
    chunks. *)
Theorem parse_flat_document_raises : forall els st r rs,
  detect_structure els = (st, r :: rs) ->
  rec_heading r = None ->
  parse_elements els = Raise AttributeError.
Proof.
  intros els st r rs Hd Hh. unfold parse_elements. rewrite Hd.
  unfold chunk_sections. simpl. rewrite Hh. simpl.
  rewrite group_go_no_metadata; reflexivity.
Qed.

Lemma parse_flat_document_raises_witness :
  detect_structure [plain "Note: cover applies."] =
    (fst (detect_structure [plain "Note: cover applies."]),
     [mk_record "Note: cover applies." None (mk_meta None None 1 0)]) /\
  parse_elements [plain "Note: cover applies."] = Raise AttributeError.
Proof.
  split; [vm_compute; reflexivity|].
  apply (parse_flat_document_raises _ (fst (detect_structure [plain "Note: cover applies."]))
           (mk_record "Note: cover applies." None (mk_meta None None 1 0)) []);
    [vm_compute; reflexivity | reflexivity].
Defined.

(** C5: every element with non-empty trimmed text yields exactly one
    record, in order (its trimmed text), and an element with empty or
    white-space text leaves the whole detector state, heap included,
    unchanged and yields no record; so the output length is the number
    of elements with non-empty trimmed text. *)
Theorem detect_structure_coverage :
  (forall els,
     map rec_text (snd (detect_structure els)) =
       filter (fun t => negb (String.eqb t "")) (map (fun e => strip (el_text e)) els) /\
     length (snd (detect_structure els)) =
       length (filter (fun e => negb (String.eqb (strip (el_text e)) "")) els)) /\
  (forall st e, String.eqb (strip (el_text e)) "" = true -> detect_step st e = (st, None)).
Proof.
  split; [|exact detect_step_skip].
  intros els. split; [apply detect_go_text|].
  unfold detect_structure. rewrite <- (length_map rec_text), detect_go_text.
  induction els as [|e els IH]; [reflexivity|]. simpl.
  destruct (String.eqb (strip (el_text e)) ""); simpl; [exact IH | f_equal; exact IH].
Qed.

Lemma detect_structure_coverage_witness :
  detect_step dinit (plain "  ") = (dinit, None) /\
  length (snd (detect_structure [plain "  "; plain "Note: x"])) = 1.
Proof.
  split.
  - apply (proj2 detect_structure_coverage). vm_compute. reflexivity.
  - rewrite (proj2 (proj1 detect_structure_coverage [plain "  "; plain "Note: x"])).
    vm_compute. reflexivity.
Defined.

(** ** The running clause of the detector *)

Lemma detect_go_app : forall xs ys st,
  detect_go st (xs ++ ys) =
  let (st1, r1) := detect_go st xs in
  let (st2, r2) := detect_go st1 ys in (st2, r1 ++ r2).
Proof.
  induction xs as [|x xs IH]; intros ys st; simpl.
  - destruct (detect_go st ys); reflexivity.
  - destruct (detect_step st x) as [s1 o].
    rewrite IH. destruct (detect_go s1 xs) as [s2 r2].
    destruct (detect_go s2 ys) as [s3 r3].
    destruct o; reflexivity.
Qed.

Ltac classify_cases e :=
  destruct (String.eqb (strip (el_text e)) "") eqn:?;
  [| destruct (is_heading (strip (el_text e)) (el_category e)) eqn:?;
     [| destruct (clause_match (strip (el_text e))) eqn:?;
        [| destruct (el_category e) eqn:?;
           try destruct (is_annexure (strip (el_text e))) eqn:?]]].

Lemma step_clause_other : forall st e,
  (forall m, classify e <> KClause m) ->
  current_clause (fst (detect_step st e)) = current_clause st.
Proof.
  intros st e H. unfold classify in H. unfold detect_step.
  classify_cases e; try reflexivity.
  all: exfalso; eapply H; reflexivity.
Qed.

Lemma step_clause_marker : forall st e m,
  classify e = KClause m -> current_clause (fst (detect_step st e)) = Some m.
Proof.
  intros st e m H. unfold classify in H. unfold detect_step.
  classify_cases e; try discriminate H.
  injection H as <-. reflexivity.
Qed.

Lemma step_record_clause : forall st e,
  In (classify e) [KList; KTable; KPlain] ->
  exists r, snd (detect_step st e) = Some r /\ md_clause (rec_meta r) = current_clause st.
Proof.
  intros st e H. unfold classify in H. unfold detect_step.
  classify_cases e; simpl in H;
    repeat (destruct H as [H|H]; [discriminate H|]); try contradiction;
    eexists; split; reflexivity.
Qed.

Lemma step_heading_record : forall st e,
  classify e = KHeading ->
  exists r, snd (detect_step st e) = Some r /\ md_clause (rec_meta r) = None.
Proof.
  intros st e H. unfold classify in H. unfold detect_step.
  classify_cases e; try discriminate H.
  eexists; split; reflexivity.
Qed.

Lemma detect_go_clause_other : forall xs st,
  (forall x m, In x xs -> classify x <> KClause m) ->
  current_clause (fst (detect_go st xs)) = current_clause st.
Proof.
  induction xs as [|x xs IH]; intros st H; [reflexivity|]. simpl.
  pose proof (step_clause_other st x (fun m => H x m (or_introl eq_refl))) as Hx.
  destruct (detect_step st x) as [s1 o].
  specialize (IH s1 (fun y m Hy => H y m (or_intror Hy))).
  destruct (detect_go s1 xs) as [s2 r2]. simpl in *. congruence.
Qed.

Lemma detect_go_last : forall xs e st,
  (exists r, snd (detect_step (fst (detect_go st xs)) e) = Some r) ->
  last (snd (detect_go st (xs ++ [e]))) (mk_record "" None (mk_meta None None 1 0)) =
  match snd (detect_step (fst (detect_go st xs)) e) with
  | Some r => r | None => mk_record "" None (mk_meta None None 1 0) end.
Proof.
  intros xs e st [r Hr]. rewrite detect_go_app.
  destruct (detect_go st xs) as [s1 r1]. simpl in *.
  destruct (detect_step s1 e) as [s2 o]. simpl in Hr. subst o. simpl.
  rewrite last_last. reflexivity.
Qed.

Lemma detect_go_app_fst : forall xs ys st,
  fst (detect_go st (xs ++ ys)) = fst (detect_go (fst (detect_go st xs)) ys).
Proof.
  intros xs ys st. rewrite detect_go_app.
  destruct (detect_go st xs) as [s1 r1]. simpl.
  destruct (detect_go s1 ys); reflexivity.
Qed.

Definition no_record : record := mk_record "" None (mk_meta None None 1 0).

(** C10: the running clause is never reset at a heading.  After a clause
    marker [m] (element [cl]), a later heading [h] gets a record with
    clause [None], yet every later plain-text, list-item or table record
    still carries clause [m] as long as no new clause marker came in
    between (whatever headings there were). *)
Theorem clause_survives_heading : forall pre cl m mid1 h mid2 e,
  classify cl = KClause m ->
  (forall x m', In x mid1 -> classify x <> KClause m') ->
  classify h = KHeading ->
  (forall x m', In x mid2 -> classify x <> KClause m') ->
  In (classify e) [KList; KTable; KPlain] ->
  md_clause (rec_meta (last (snd (detect_structure (pre ++ cl :: mid1 ++ [h]))) no_record))
    = None /\
  md_clause (rec_meta (last (snd (detect_structure (pre ++ cl :: mid1 ++ h :: mid2 ++ [e])))
                            no_record)) = Some m.
Proof.
  intros pre cl m mid1 h mid2 e Hcl Hm1 Hh Hm2 He. unfold detect_structure.
  split.
  - replace (pre ++ cl :: mid1 ++ [h]) with ((pre ++ cl :: mid1) ++ [h])
      by (rewrite <- app_assoc; reflexivity).
    destruct (step_heading_record (fst (detect_go dinit (pre ++ cl :: mid1))) h Hh)
      as [r [Hr Hc]].
    unfold no_record. rewrite detect_go_last by (exists r; exact Hr).
    rewrite Hr. exact Hc.
  - replace (pre ++ cl :: mid1 ++ h :: mid2 ++ [e])
      with ((pre ++ [cl] ++ mid1 ++ h :: mid2) ++ [e])
      by (rewrite <- !app_assoc; reflexivity).
    destruct (step_record_clause (fst (detect_go dinit (pre ++ [cl] ++ mid1 ++ h :: mid2))) e He)
      as [r [Hr Hc]].
    unfold no_record. rewrite detect_go_last by (exists r; exact Hr).
    rewrite Hr, Hc.
    rewrite detect_go_app_fst, detect_go_app_fst.
    rewrite detect_go_clause_other.
    + simpl. destruct (detect_step _ cl) as [s1 o] eqn:E. simpl.
      pose proof (step_clause_marker (fst (detect_go dinit pre)) cl m Hcl) as Hs.
      rewrite E in Hs. exact Hs.
    + intros x m' Hx. apply in_app_or in Hx. destruct Hx as [Hx|[Hx|Hx]].
      * exact (Hm1 x m' Hx).
      * subst x. rewrite Hh. discriminate.
      * exact (Hm2 x m' Hx).
Qed.

Lemma clause_survives_heading_witness :
  md_clause (rec_meta (last (snd (detect_structure
    [plain "a) Maternity"; mk_element "Benefits" None Title; plain "Note: cover applies."]))
    no_record)) = Some "a)"%string.
Proof.
  destruct (clause_survives_heading [] (plain "a) Maternity") "a)"%string []
              (mk_element "Benefits" None Title) [] (plain "Note: cover applies."))
    as [_ H].
  - vm_compute. reflexivity.
  - intros x m' [].
  - vm_compute. reflexivity.
  - intros x m' [].
  - vm_compute. right. right. left. reflexivity.
  - exact H.
Defined.

(** ** Concrete runs *)
Local Open Scope string_scope.

Definition md0 : meta := mk_meta None None 1 0.

(** The chunks of the two-sentence section of [chunk_body_bound_witness]. *)
Definition two_sentence_chunks : list chunk :=
  [mk_chunk "" None None 1 "" 0 None; mk_chunk "Gamma delta." None None 1 "" 0 None;
   mk_chunk "Gamma delta." None None 1 "" 0 None].

(** C4 (the claim fails on the code): on the scenario input the first
    element is not a heading (eight letters before the digit, no Title
    category) and both numbered elements are taken by the heading pattern
    [[0-9]+\.\s*[A-Za-z].+] (and [\d+\.\s*[A-Z\s]+] under IGNORECASE)
    before the clause test is reached: records are (text, heading,
    clause) = plain, heading, heading. *)
Theorem scenario_definitions_records :
  map (fun r => (rec_text r, rec_heading r, md_clause (rec_meta r)))
    (snd (detect_structure [plain "SECTION 1: DEFINITIONS";
                            plain "1. Hospital means an institution...";
                            plain "2. Ambulance means..."])) =
  [ ("SECTION 1: DEFINITIONS", None, None);
    ("1. Hospital means an institution...", Some "1. Hospital means an institution...", None);
    ("2. Ambulance means...", Some "2. Ambulance means...", None) ].
Proof. vm_compute. reflexivity. Qed.

(** C6 (the claim fails on the code): the clause record of ["a) Maternity"]
    holds the live [context_stack] list, so the qualifier found in the
    next element is appended to the context of the earlier record. *)
Theorem context_not_snapshot :
  context_at (detect_structure [plain "a) Maternity"]) 0 = [] /\
  context_at (detect_structure [plain "a) Maternity";
                                plain "Pre-existing diseases are not covered"]) 0
    = ["not covered"].
Proof. split; vm_compute; reflexivity. Qed.

(** C7 (counterexample): a Table element under a Title heading is joined
    with the heading run; no chunk has the table's own text. *)
Lemma table_merged_counterexample :
  exists cs,
    parse_elements [mk_element "Benefits" None Title; plain "Note: cover applies.";
                    mk_element "Col1 Col2" None Table] = Ok cs /\
    map chunk_text cs = ["Benefits Benefits Note: cover applies. Col1 Col2"] /\
    ~ In "Col1 Col2" (map chunk_text cs).
Proof.
  eexists. split; [vm_compute; reflexivity|]. split; [vm_compute; reflexivity|].
  vm_compute. intros [H|[]]. discriminate H.
Qed.

(** C8 (counterexample): one pass of the hyphen repair leaves a second
    hyphenation of a chain, so a second normalization changes the text;
    and a placeholder removed after the blanks were collapsed leaves a
    double blank that the second pass collapses.  A page marker inside a
    word joins a hyphen chain the same way. *)
Lemma clean_text_not_idempotent :
  Clean.clean_text "a-b-c" ".pdf" = "ab-c" /\
  Clean.clean_text (Clean.clean_text "a-b-c" ".pdf") ".pdf" = "abc" /\
  Clean.clean_text "a-Page 1 of 2b-c" ".pdf" = "ab-c" /\
  Clean.clean_text (Clean.clean_text "a-Page 1 of 2b-c" ".pdf") ".pdf" = "abc" /\
  Clean.clean_text "Insert [FIELD] here" ".docx" = "Insert  here" /\
  Clean.clean_text (Clean.clean_text "Insert [FIELD] here" ".docx") ".docx" = "Insert here".
Proof. repeat split; vm_compute; reflexivity. Qed.

(** C9 (the claim fails on the code): the identifier class
    [[A-Z0-9\-.\s]] under IGNORECASE also takes letters and blanks, so
    the reference runs to the end of the text. *)
Theorem see_section_reference :
  references "See Section 4.2 for details" = ["See Section 4.2 for details"] /\
  ch_references (add_references (mk_chunk "See Section 4.2 for details" None None 1 "" 0 None))
    = Some ["See Section 4.2 for details"].
Proof. split; vm_compute; reflexivity. Qed.

(** C3 (the claim fails on the code): a section of three sentences with
    no clause start that does not fit: the pending chunk (empty here) is
    emitted without the clause buffer and only its last sentence is kept
    as overlap, emitted twice; "Alpha beta." and "Gamma delta." are lost. *)
Theorem trailing_sentences_dropped :
  semantic_chunking Nltk.sent_tokenize Nltk.wordpunct_count [[]]
    "Alpha beta. Gamma delta. Epsilon zeta." None (Some md0) 2 0 =
  Ok ([[]], [mk_chunk "" None None 1 "" 0 None;
             mk_chunk "Epsilon zeta." None None 1 "" 0 None;
             mk_chunk "Epsilon zeta." None None 1 "" 0 None]) /\
  Nltk.sent_tokenize "Alpha beta. Gamma delta. Epsilon zeta." =
    ["Alpha beta."; "Gamma delta."; "Epsilon zeta."].
Proof. split; vm_compute; reflexivity. Qed.

(** C2 (counterexample): a one-sentence section of three words, within
    [max_tokens = 3], gets the fallback context ["not covered"] as a
    bracketed prefix: five words, more than [max_tokens + overlap = 4]. *)
Lemma chunk_bound_counterexample :
  Nltk.sent_tokenize "not covered here" = ["not covered here"] /\
  Nltk.wordpunct_count "not covered here" = 3 /\
  semantic_chunking Nltk.sent_tokenize Nltk.wordpunct_count [[]] "not covered here" None
    (Some md0) 3 1 =
  Ok ([["not covered"]], [mk_chunk "[not covered] not covered here" None None 1 "" 0 None]) /\
  word_count "[not covered] not covered here" = 5 /\ 5 > 3 + 1.
Proof. repeat split; vm_compute; try reflexivity; repeat constructor. Qed.

Local Close Scope string_scope.

(** C8 (amended): [clean_text] is idempotent on each of the eleven
    sample inputs of [boilerplate_samples] (a page marker, a UIN
    identifier, a "Co. Ltd." company line, a "Confidential" banner, runs
    of blanks, a version and a rights line, a property disclaimer, two
    e-mail signatures and two DOCX placeholders, each with its document
    kind); only these inputs are covered. *)
Theorem clean_text_idempotent_samples :
  Forall (fun p => Clean.clean_text (Clean.clean_text (fst p) (snd p)) (snd p)
                   = Clean.clean_text (fst p) (snd p)) boilerplate_samples.
Proof.
  unfold boilerplate_samples.
  repeat (apply Forall_cons; [vm_compute; reflexivity|]). apply Forall_nil.
Qed.

(** ** Tables *)

Lemma detect_step_table_as_list : forall st e,
  detect_step st (table_as_list e) = detect_step st e.
Proof.
  intros st [t p c]. destruct c; reflexivity.
Qed.

Lemma detect_go_table_as_list : forall els st,
  detect_go st (map table_as_list els) = detect_go st els.
Proof.
  induction els as [|e els IH]; intros st; [reflexivity|].
  simpl. rewrite detect_step_table_as_list.
  destruct (detect_step st e) as [s1 o]. rewrite IH. reflexivity.
Qed.

(** C7 (amended): records carry no category and a Table element yields
    the very record a ListItem element with the same text yields, so the
    chunks of any input are those of the same input with every Table
    relabelled ListItem: a table is grouped by heading and joined into
    its run's section text like any other record. *)
Theorem table_chunked_as_list_item : forall els,
  detect_structure (map table_as_list els) = detect_structure els /\
  parse_elements (map table_as_list els) = parse_elements els.
Proof.
  intros els. unfold parse_elements, detect_structure.
  rewrite detect_go_table_as_list. split; reflexivity.
Qed.

(** ** The size of chunk bodies *)
Section ChunkSize.
Variable ntok : string -> nat.
Variables (heading : option string) (md : meta) (ctx : list string) (max_tokens : nat).
(** The sentences of the section text. *)
Variable sentences0 : list string.

(** A chunk body: the heading seed followed by sentences of the section;
    its token count (the sum of the code's per-sentence counts) is within
    [max_tokens], or at most two sentences follow the heading. *)
Definition body_ok (body : list string) : Prop :=
  exists ss, body = heading_seed heading ++ ss /\ Forall (fun s => In s sentences0) ss /\
    (sum_tokens ntok body <= max_tokens \/ length ss <= 2).

Definition chunk_ok (c : chunk) : Prop :=
  exists body, chunk_text c = render ctx body /\ body_ok body.

Definition loop_inv (st : cstate) : Prop :=
  cur_length st = sum_tokens ntok (cur_chunk st) /\ body_ok (cur_chunk st) /\
  clause_length st = sum_tokens ntok (clause_buffer st) /\
  Forall (fun s => In s sentences0) (clause_buffer st) /\ Forall chunk_ok (chunks st).

Lemma sum_tokens_app : forall a b,
  sum_tokens ntok (a ++ b) = sum_tokens ntok a + sum_tokens ntok b.
Proof. induction a as [|x a IH]; intros b; simpl; [reflexivity | rewrite IH; lia]. Qed.

Lemma heading_tokens_sum : heading_tokens ntok heading = sum_tokens ntok (heading_seed heading).
Proof. unfold heading_tokens, heading_seed. destruct (truthy heading); simpl; lia. Qed.

Lemma heading_seed_ok : body_ok (heading_seed heading).
Proof.
  exists []. rewrite app_nil_r. split; [reflexivity|]. split; [constructor | right; simpl; lia].
Qed.

Lemma lastn_length_le : forall {A} k (l : list A), length (lastn k l) <= k.
Proof. intros A k l. unfold lastn. rewrite length_skipn. lia. Qed.

Lemma Forall_lastn : forall {A} (P : A -> Prop) k (l : list A), Forall P l -> Forall P (lastn k l).
Proof.
  intros A P k l H. unfold lastn. apply Forall_forall. intros x Hx.
  rewrite Forall_forall in H. apply H.
  rewrite <- (firstn_skipn (length l - k) l). apply in_or_app. right. exact Hx.
Qed.

Lemma overlap_ok : forall buf len,
  Forall (fun s => In s sentences0) buf ->
  body_ok (heading_seed heading ++ overlap_sentences buf len).
Proof.
  intros buf len Hbuf. eexists. split; [reflexivity|]. split.
  - unfold overlap_sentences. apply Forall_lastn. exact Hbuf.
  - right. unfold overlap_sentences. eapply Nat.le_trans; [apply lastn_length_le|].
    destruct (len <? 100); lia.
Qed.

Lemma merge_ok : forall c buf,
  body_ok c -> Forall (fun s => In s sentences0) buf ->
  sum_tokens ntok (c ++ buf) <= max_tokens -> body_ok (c ++ buf).
Proof.
  intros c buf [ss [-> [Hss _]]] Hbuf Hle. exists (ss ++ buf). split; [rewrite app_assoc; reflexivity|].
  split; [apply Forall_app; split; assumption | left; rewrite <- app_assoc in Hle; rewrite <- app_assoc; exact Hle].
Qed.

Lemma emit_ok : forall cl body, body_ok body -> chunk_ok (emit heading md ctx cl body).
Proof. intros cl body H. exists body. split; [reflexivity | exact H]. Qed.

Lemma finalize_inv : forall st,
  loop_inv st ->
  let '(c, l, out) := finalize ntok heading md ctx max_tokens st in
  l = sum_tokens ntok c /\ body_ok c /\ Forall chunk_ok out.
Proof.
  intros st [Hl [Hb [Hc [Hbuf Hf]]]]. unfold finalize.
  destruct (cur_length st + clause_length st <=? max_tokens) eqn:E.
  - apply Nat.leb_le in E. rewrite sum_tokens_app. split; [lia|]. split; [|exact Hf].
    apply merge_ok; [exact Hb | exact Hbuf | rewrite sum_tokens_app; lia].
  - split; [rewrite sum_tokens_app, heading_tokens_sum; reflexivity|].
    split; [apply overlap_ok; exact Hbuf|].
    apply Forall_app. split; [exact Hf | constructor; [apply emit_ok; exact Hb | constructor]].
Qed.

Lemma chunk_step_inv : forall st s,
  In s sentences0 -> loop_inv st -> loop_inv (chunk_step ntok heading md ctx max_tokens st s).
Proof.
  intros st s Hs H. unfold chunk_step.
  assert (H1 : loop_inv (match clause_match s, clause_buffer st with
                   | Some m, _ :: _ =>
                       let '(c, l, out) := finalize ntok heading md ctx max_tokens st in
                       mk_cstate c l [] 0 (Some m) out
                   | _, _ => st end)).
  { destruct (clause_match s); [|exact H]. destruct (clause_buffer st) as [|b0 bs]; [exact H|].
    pose proof (finalize_inv st H) as Hf.
    destruct (finalize ntok heading md ctx max_tokens st) as [[c0 l0] out0].
    destruct Hf as [Hl [Hb Ho]]. repeat split; try assumption. constructor. }
  destruct H1 as [Hl [Hb [Hc [Hbuf Hf]]]].
  repeat split; simpl; try assumption.
  - rewrite sum_tokens_app, Hc. simpl. lia.
  - apply Forall_app. split; [exact Hbuf | constructor; [exact Hs | constructor]].
Qed.

Lemma fold_inv : forall ss st,
  Forall (fun s => In s sentences0) ss ->
  loop_inv st -> loop_inv (fold_left (chunk_step ntok heading md ctx max_tokens) ss st).
Proof.
  induction ss as [|s ss IH]; intros st Hss H; simpl; [exact H|].
  inversion Hss; subst. apply IH; [assumption|]. apply chunk_step_inv; assumption.
Qed.

Lemma chunk_sentences_ok :
  Forall chunk_ok (chunk_sentences ntok heading md ctx max_tokens sentences0).
Proof.
  unfold chunk_sentences.
  set (st := fold_left _ sentences0 _).
  assert (Hi : loop_inv st).
  { apply fold_inv; [apply Forall_forall; intros x Hx; exact Hx|]. repeat split; simpl.
    - apply heading_tokens_sum.
    - apply heading_seed_ok.
    - constructor.
    - constructor. }
  destruct Hi as [Hl [Hb [Hc [Hbuf Hf]]]].
  assert (Hr : let '(c, out) := flush_remaining heading md ctx max_tokens st in
               body_ok c /\ Forall chunk_ok out).
  { unfold flush_remaining. destruct (nonempty (clause_buffer st)); [|split; assumption].
    destruct (cur_length st + clause_length st <=? max_tokens) eqn:E.
    - apply Nat.leb_le in E. split; [|exact Hf].
      apply merge_ok; [exact Hb | exact Hbuf | rewrite sum_tokens_app; lia].
    - split; [apply overlap_ok; exact Hbuf|].
      repeat (apply Forall_app; split); try exact Hf;
        constructor; try constructor; apply emit_ok; [exact Hb | apply overlap_ok; exact Hbuf]. }
  destruct (flush_remaining heading md ctx max_tokens st) as [c out].
  destruct Hr as [Hb' Ho]. unfold final_chunk.
  destruct c as [|x rest]; [exact Ho|].
  destruct (nonempty rest || negb (opt_str_eqb (Some x) heading)); [|exact Ho].
  apply Forall_app. split; [exact Ho | constructor; [apply emit_ok; exact Hb' | constructor]].
Qed.

End ChunkSize.

(** C2 (amended).  Every chunk of [semantic_chunking] is the bracketed
    context prefix (when the context is non-empty) followed by the joined
    body, and the body is the heading (when truthy) followed by sentences
    of the section text; the words of the prefix are never counted and the
    [overlap] argument plays no part.  The body's token count, the sum of
    the code's tokenizer counts of its parts, is at most [max_tokens],
    unless at most two sentences follow the heading (the overlap tail
    carried from a clause buffer that did not fit). *)
Theorem chunk_body_bound : forall sent_tokenize ntok h text heading md max_tokens overlap h' cs,
  semantic_chunking sent_tokenize ntok h text heading (Some md) max_tokens overlap = Ok (h', cs) ->
  (forall overlap', semantic_chunking sent_tokenize ntok h text heading (Some md) max_tokens overlap'
                    = Ok (h', cs)) /\
  Forall (chunk_ok ntok heading (deref h' (md_context md)) max_tokens (sent_tokenize text)) cs.
Proof.
  intros sent_tokenize ntok h text heading md max_tokens overlap h' cs H.
  split; [intros overlap'; exact H|].
  unfold semantic_chunking in H. injection H as <- <-.
  apply chunk_sentences_ok.
Qed.

Lemma chunk_body_bound_witness :
  semantic_chunking Nltk.sent_tokenize Nltk.wordpunct_count [[]] "Alpha beta. Gamma delta."
    None (Some md0) 3 100 = Ok ([[]], two_sentence_chunks) /\
  Forall (chunk_ok Nltk.wordpunct_count None (deref [[]] (md_context md0)) 3
            (Nltk.sent_tokenize "Alpha beta. Gamma delta.")) two_sentence_chunks.
Proof.
  split; [vm_compute; reflexivity|].
  apply (proj2 (chunk_body_bound Nltk.sent_tokenize Nltk.wordpunct_count [[]] "Alpha beta. Gamma delta."
                  None md0 3 100 [[]] two_sentence_chunks ltac:(vm_compute; reflexivity))).
Defined.

(** ** The document extension *)

Lemma L_append : forall a b, L (a ++ b) = L a ++ L b.
Proof. induction a as [|c a IH]; intros b; simpl; [reflexivity | unfold L in *; rewrite IH; reflexivity]. Qed.

Lemma L_S_ : forall l, L (S_ l) = l.
Proof. exact list_ascii_of_string_of_list_ascii. Qed.

Lemma S_L : forall s, S_ (L s) = s.
Proof. exact string_of_list_ascii_of_string. Qed.

Lemma S_app : forall a b, S_ (a ++ b) = (S_ a ++ S_ b)%string.
Proof. induction a as [|c a IH]; intros b; simpl; [reflexivity | unfold S_ in *; rewrite IH; reflexivity]. Qed.

Lemma before_qmark_none : forall s, ~ In "?"%char s -> before_qmark s = s.
Proof.
  induction s as [|c s IH]; intros H; [reflexivity|]. simpl.
  destruct (Ascii.eqb c "?"%char) eqn:E.
  - apply Ascii.eqb_eq in E. subst c. exfalso. apply H. left. reflexivity.
  - rewrite IH; [reflexivity|]. intros Hi. apply H. right. exact Hi.
Qed.

Lemma before_qmark_cut : forall s q, ~ In "?"%char s -> before_qmark (s ++ "?"%char :: q) = s.
Proof.
  induction s as [|c s IH]; intros q H; [reflexivity|]. simpl.
  destruct (Ascii.eqb c "?"%char) eqn:E.
  - apply Ascii.eqb_eq in E. subst c. exfalso. apply H. left. reflexivity.
  - rewrite IH; [reflexivity|]. intros Hi. apply H. right. exact Hi.
Qed.

Lemma rfind_go_app : forall c a b i f,
  rfind_go c i (a ++ b) f = rfind_go c (i + Z.of_nat (length a))%Z b (rfind_go c i a f).
Proof.
  induction a as [|x a IH]; intros b i f; simpl.
  - rewrite Z.add_0_r. reflexivity.
  - rewrite IH. f_equal. lia.
Qed.

Lemma rfind_go_absent : forall c s i f, ~ In c s -> rfind_go c i s f = f.
Proof.
  induction s as [|x s IH]; intros i f H; [reflexivity|]. simpl.
  destruct (Ascii.eqb x c) eqn:E.
  - apply Ascii.eqb_eq in E. subst x. exfalso. apply H. left. reflexivity.
  - apply IH. intros Hi. apply H. right. exact Hi.
Qed.

(** X1: the query string of the URL plays no part in the extension. *)
Theorem url_ext_ignores_query : forall u q,
  ~ In "?"%char (L u) -> url_ext (u ++ String "?" q) = url_ext u.
Proof.
  intros u q H. unfold url_ext. rewrite L_append. simpl.
  rewrite before_qmark_cut by exact H. rewrite before_qmark_none by exact H. reflexivity.
Qed.

Lemma url_ext_ignores_query_witness :
  url_ext ("https://host/docs/Policy.PDF" ++ String "?" "sv=2023&sig=x.y")%string =
    url_ext "https://host/docs/Policy.PDF" /\
  url_ext "https://host/docs/Policy.PDF" = ".pdf"%string.
Proof.
  split; [|vm_compute; reflexivity].
  apply url_ext_ignores_query. vm_compute. intuition discriminate.
Defined.

(** X2: the extension is the text from the last dot of the URL (before any
    [?]) on, lowercased, wherever that dot is, in the host name too; a URL
    with no dot gives its last character, lowercased. *)
Theorem url_ext_last_dot :
  (forall pre suf, ~ In "?"%char (L pre ++ L suf) -> ~ In "."%char (L suf) ->
     url_ext (pre ++ String "." suf) = String "." (lower_s suf)) /\
  (forall u, ~ In "?"%char (L u) -> ~ In "."%char (L u) ->
     url_ext u = lower_s (S_ (lastn 1 (L u)))).
Proof.
  split.
  - intros pre suf Hq Hd. unfold url_ext. rewrite L_append. simpl.
    rewrite before_qmark_none.
    2:{ intros Hi. apply in_app_or in Hi. destruct Hi as [Hi|[Hi|Hi]].
        - apply Hq. apply in_or_app. left. exact Hi.
        - discriminate Hi.
        - apply Hq. apply in_or_app. right. exact Hi. }
    assert (Hr : rfind "."%char (L pre ++ "."%char :: L suf) = Z.of_nat (length (L pre))).
    { unfold rfind. rewrite rfind_go_app. simpl. rewrite rfind_go_absent by exact Hd. lia. }
    rewrite Hr. unfold slice_from.
    replace (Z.of_nat (length (L pre)) <? 0)%Z with false by (symmetry; apply Z.ltb_ge; lia).
    rewrite Nat2Z.id. rewrite skipn_app, skipn_all, Nat.sub_diag. simpl.
    unfold lower_s, L, S_. simpl. rewrite list_ascii_of_string_of_list_ascii. reflexivity.
  - intros u Hq Hd. unfold url_ext. rewrite before_qmark_none by exact Hq.
    unfold rfind. rewrite rfind_go_absent by exact Hd. reflexivity.
Qed.

Lemma url_ext_last_dot_witness :
  url_ext ("https://host" ++ String "." "com/file")%string = ".com/file"%string /\
  url_ext "README" = "e"%string.
Proof.
  split.
  - apply (proj1 url_ext_last_dot "https://host"%string "com/file"%string);
      vm_compute; intuition discriminate.
  - apply (proj2 url_ext_last_dot "README"%string); vm_compute; intuition discriminate.
Defined.

(** ** Sections, headings and pages of the records *)

Lemma detect_step_section : forall st e,
  current_section st = last_heading st ->
  current_section (fst (detect_step st e)) = last_heading (fst (detect_step st e)) /\
  (forall r, snd (detect_step st e) = Some r -> md_section (rec_meta r) = rec_heading r).
Proof.
  intros st e H. unfold detect_step.
  classify_cases e; simpl; split; try exact H; try reflexivity;
    intros r Hr; try discriminate Hr; injection Hr as <-; simpl; try rewrite H; reflexivity.
Qed.

Lemma detect_go_section : forall els st,
  current_section st = last_heading st ->
  Forall (fun r => md_section (rec_meta r) = rec_heading r) (snd (detect_go st els)).
Proof.
  induction els as [|e els IH]; intros st H; simpl; [constructor|].
  destruct (detect_step_section st e H) as [H1 H2].
  destruct (detect_step st e) as [s1 o]. simpl in *.
  specialize (IH s1 H1). destruct (detect_go s1 els) as [s2 rs]. simpl in *.
  destruct o as [r|]; [constructor; [apply H2; reflexivity | exact IH] | exact IH].
Qed.

Lemma record_section_ok : forall els,
  Forall (fun r => md_section (rec_meta r) = rec_heading r) (snd (detect_structure els)).
Proof. intros els. apply detect_go_section. reflexivity. Qed.

(** X3: every record's metadata section equals its heading: the detector
    sets [current_section] and [last_heading] together, and the annexure
    fallback [x or text] is applied to both. *)
Theorem record_section_is_heading : forall els,
  Forall (fun r => md_section (rec_meta r) = rec_heading r) (snd (detect_structure els)).
Proof. exact record_section_ok. Qed.

Lemma detect_step_heading_kept : forall st e,
  last_heading st <> None ->
  last_heading (fst (detect_step st e)) <> None /\
  (forall r, snd (detect_step st e) = Some r -> rec_heading r <> None).
Proof.
  intros st e H. unfold detect_step.
  classify_cases e; simpl; split; try exact H; try discriminate;
    intros r Hr; try discriminate Hr; injection Hr as <-; simpl; try exact H; discriminate.
Qed.

Lemma detect_go_heading_kept : forall els st,
  last_heading st <> None ->
  Forall (fun r => rec_heading r <> None) (snd (detect_go st els)).
Proof.
  induction els as [|e els IH]; intros st H; simpl; [constructor|].
  destruct (detect_step_heading_kept st e H) as [H1 H2].
  destruct (detect_step st e) as [s1 o]. simpl in *.
  specialize (IH s1 H1). destruct (detect_go s1 els) as [s2 rs]. simpl in *.
  destruct o as [r|]; [constructor; [apply H2; reflexivity | exact IH] | exact IH].
Qed.

Lemma heading_step_sets : forall st e,
  classify e = KHeading ->
  exists r, snd (detect_step st e) = Some r /\
    rec_heading r = Some (strip (el_text e)) /\
    last_heading (fst (detect_step st e)) = Some (strip (el_text e)).
Proof.
  intros st e H. unfold classify in H. unfold detect_step.
  classify_cases e; try discriminate H.
  eexists; split; [reflexivity | split; reflexivity].
Qed.

Lemma detect_structure_split : forall pre e post,
  snd (detect_structure (pre ++ e :: post)) =
  snd (detect_structure pre) ++
    (match snd (detect_step (fst (detect_structure pre)) e) with Some r => [r] | None => [] end ++
     snd (detect_go (fst (detect_step (fst (detect_structure pre)) e)) post)).
Proof.
  intros pre e post. unfold detect_structure. rewrite detect_go_app.
  destruct (detect_go dinit pre) as [s1 r1]. simpl.
  destruct (detect_step s1 e) as [s2 o]. simpl. destruct (detect_go s2 post) as [s3 r3].
  destruct o; reflexivity.
Qed.

(** X4: once a heading has been seen, every record, the heading's own
    record included, has a heading: records without heading can only come
    before the first heading. *)
Theorem no_headingless_record_after_heading : forall pre h post,
  classify h = KHeading ->
  Forall (fun r => rec_heading r <> None)
    (skipn (length (snd (detect_structure pre))) (snd (detect_structure (pre ++ h :: post)))).
Proof.
  intros pre h post Hh. rewrite detect_structure_split.
  rewrite skipn_app, skipn_all, Nat.sub_diag. simpl.
  destruct (heading_step_sets (fst (detect_structure pre)) h Hh) as [r [Hr [Hrh Hl]]].
  rewrite Hr. simpl. constructor.
  - rewrite Hrh. discriminate.
  - apply detect_go_heading_kept. rewrite Hl. discriminate.
Qed.

Lemma no_headingless_record_after_heading_witness :
  Forall (fun r => rec_heading r <> None)
    (skipn 1 (snd (detect_structure [plain "Note: cover applies."; mk_element "Benefits" None Title;
                                     plain "Note: b."]))).
Proof.
  apply (no_headingless_record_after_heading [plain "Note: cover applies."]
           (mk_element "Benefits" None Title) [plain "Note: b."]).
  vm_compute. reflexivity.
Defined.

Section GroupOk.
Variable sent_tokenize : string -> list string.
Variable ntok : string -> nat.

Lemma group_go_some : forall recs h fin texts hd m,
  exists p, group_go sent_tokenize ntok h fin texts hd (Some m) recs = Ok p.
Proof.
  induction recs as [|r rs IH]; intros h fin texts hd m; simpl.
  - unfold flush. destruct (nonempty texts); simpl; eexists; reflexivity.
  - destruct (opt_str_eqb (rec_heading r) hd); [apply IH|].
    unfold flush. destruct (nonempty texts); simpl; apply IH.
Qed.

End GroupOk.

(** X5: the converse of C1: when the first record of the scan has a
    heading (the first non-blank element is a heading, or an annexure
    line), the section loop never meets [current_metadata = None] and
    the pipeline returns its chunks. *)
Theorem parse_headed_document_ok : forall els st r rs,
  detect_structure els = (st, r :: rs) ->
  rec_heading r <> None ->
  exists cs, parse_elements els = Ok cs.
Proof.
  intros els st r rs Hd Hh. unfold parse_elements. rewrite Hd.
  unfold chunk_sections. simpl.
  destruct (rec_heading r) as [x|] eqn:E; [|congruence]. simpl.
  unfold flush. simpl.
  destruct (group_go_some Nltk.sent_tokenize Nltk.wordpunct_count rs (dheap st) [] [rec_text r]
              (Some x) (rec_meta r)) as [p Hp].
  rewrite Hp. simpl. eexists. reflexivity.
Qed.

Lemma parse_headed_document_ok_witness :
  exists cs, parse_elements [mk_element "Benefits" None Title; plain "Note: cover applies."] = Ok cs.
Proof.
  apply (parse_headed_document_ok _
           (fst (detect_structure [mk_element "Benefits" None Title; plain "Note: cover applies."]))
           (mk_record "Benefits" (Some "Benefits"%string) (mk_meta (Some "Benefits"%string) None 1 2))
           [mk_record "Note: cover applies." (Some "Benefits"%string)
              (mk_meta (Some "Benefits"%string) None 1 1)]).
  - vm_compute. reflexivity.
  - discriminate.
Defined.

(** ** The context lists in the heap *)

Lemma length_heap_set : forall h r v, length (heap_set h r v) = length h.
Proof. induction h as [|x h IH]; intros [|r] v; simpl; try reflexivity; rewrite IH; reflexivity. Qed.

Lemma deref_heap_set_other : forall h r r' v, r' <> r -> deref (heap_set h r v) r' = deref h r'.
Proof.
  unfold deref. induction h as [|x h IH]; intros [|r] [|r'] v H; simpl; try reflexivity.
  - congruence.
  - apply IH. congruence.
Qed.

Lemma deref_heap_set_same : forall h r v, r < length h -> deref (heap_set h r v) r = v.
Proof.
  unfold deref. induction h as [|x h IH]; intros [|r] v H; simpl in *; try lia; try reflexivity.
  apply IH. lia.
Qed.

Lemma deref_app_l : forall h h' r, r < length h -> deref (h ++ h') r = deref h r.
Proof. intros h h' r H. unfold deref. apply app_nth1. exact H. Qed.

Lemma length_heap_append : forall h r x, length (heap_append h r x) = length h.
Proof. intros. apply length_heap_set. Qed.

(** A reference [lit] that holds the empty list and is not the running
    [context_stack]. *)
Definition lit_inv (lit : ref) (st : dstate) : Prop :=
  lit < length (dheap st) /\ lit <> context_stack st /\ deref (dheap st) lit = [].

Lemma lit_inv_step : forall lit st e, lit_inv lit st -> lit_inv lit (fst (detect_step st e)).
Proof.
  intros lit st e [H1 [H2 H3]]. unfold detect_step, lit_inv.
  classify_cases e; simpl; try (repeat split; assumption).
  all: try (destruct (context_match (strip (el_text e))) as [q|]; simpl;
            [ unfold heap_append; rewrite length_heap_set, deref_heap_set_other by congruence | ];
            repeat split; assumption).
  rewrite !length_app. simpl. repeat split; [lia | lia |].
  rewrite <- app_assoc, deref_app_l by exact H1. exact H3.
Qed.

Lemma lit_inv_go : forall els lit st, lit_inv lit st -> lit_inv lit (fst (detect_go st els)).
Proof.
  induction els as [|e els IH]; intros lit st H; simpl; [exact H|].
  pose proof (lit_inv_step lit st e H) as H1.
  destruct (detect_step st e) as [s1 o]. specialize (IH lit s1 H1).
  destruct (detect_go s1 els) as [s2 rs]. exact IH.
Qed.

Lemma heading_step_lit : forall st e,
  classify e = KHeading ->
  exists r, snd (detect_step st e) = Some r /\
    lit_inv (md_context (rec_meta r)) (fst (detect_step st e)).
Proof.
  intros st e H. unfold classify in H. unfold detect_step.
  classify_cases e; try discriminate H.
  eexists; split; [reflexivity|]. unfold lit_inv. simpl. rewrite !length_app. simpl.
  repeat split; [lia | lia |].
  unfold deref. rewrite app_nth2 by (rewrite length_app; simpl; lia).
  rewrite length_app. simpl. replace (length (dheap st) + 1 - (length (dheap st) + 1)) with 0 by lia.
  reflexivity.
Qed.

(** X6: a heading's record gets a fresh empty list as context, distinct
    from the new [context_stack]; nothing is ever appended to it, so at the
    end of the scan it is still empty, whatever qualifiers the section's
    later elements carry. *)
Theorem heading_context_stays_empty : forall pre h post,
  classify h = KHeading ->
  context_at (detect_structure (pre ++ h :: post)) (length (snd (detect_structure pre))) = [].
Proof.
  intros pre h post Hh.
  destruct (heading_step_lit (fst (detect_structure pre)) h Hh) as [r [Hr Hl]].
  unfold context_at. rewrite detect_structure_split, Hr. simpl.
  rewrite nth_error_app2, Nat.sub_diag by lia. simpl.
  unfold detect_structure at 1. rewrite detect_go_app.
  fold (detect_structure pre).
  destruct (detect_structure pre) as [s1 r1] eqn:E1. simpl in *.
  destruct (detect_step s1 h) as [s2 o] eqn:E2. simpl in *.
  pose proof (lit_inv_go post _ _ Hl) as [_ [_ H3]].
  destruct (detect_go s2 post) as [s3 r3]. simpl. exact H3.
Qed.

Lemma heading_context_stays_empty_witness :
  context_at (detect_structure ([] ++ mk_element "Benefits" None Title ::
                                [plain "Pre-existing diseases are not covered"])) 0 = [].
Proof.
  apply (heading_context_stays_empty [] (mk_element "Benefits" None Title)
           [plain "Pre-existing diseases are not covered"]).
  vm_compute. reflexivity.
Defined.

Definition stack_wf (st : dstate) : Prop := context_stack st < length (dheap st).

Lemma stack_wf_step : forall st e, stack_wf st -> stack_wf (fst (detect_step st e)).
Proof.
  intros st e H. unfold stack_wf in *. unfold detect_step.
  classify_cases e; simpl; try exact H;
    try (destruct (context_match (strip (el_text e))); simpl;
         [rewrite length_heap_append | ]; exact H).
  rewrite !length_app. simpl. lia.
Qed.

Lemma stack_wf_go : forall els st, stack_wf st -> stack_wf (fst (detect_go st els)).
Proof.
  induction els as [|e els IH]; intros st H; simpl; [exact H|].
  pose proof (stack_wf_step st e H) as H1.
  destruct (detect_step st e) as [s1 o]. specialize (IH s1 H1).
  destruct (detect_go s1 els) as [s2 rs]. exact IH.
Qed.

Lemma stack_step : forall st e,
  classify e <> KHeading -> stack_wf st ->
  context_stack (fst (detect_step st e)) = context_stack st /\
  deref (dheap (fst (detect_step st e))) (context_stack st) =
    deref (dheap st) (context_stack st) ++ qualifier e /\
  (forall r, snd (detect_step st e) = Some r -> md_context (rec_meta r) = context_stack st).
Proof.
  intros st e Hh Hw. unfold stack_wf in Hw. unfold qualifier, classify in *. unfold detect_step.
  classify_cases e; simpl; try congruence;
    try (split; [reflexivity | split; [rewrite app_nil_r; reflexivity |]];
         intros r Hr; try discriminate Hr; injection Hr as <-; reflexivity).
  all: destruct (context_match (strip (el_text e))) as [q|]; simpl;
    (split; [reflexivity | split; [| intros r Hr; injection Hr as <-; reflexivity]]);
    [ unfold heap_append; apply deref_heap_set_same; exact Hw
    | rewrite app_nil_r; reflexivity ].
Qed.

Lemma stack_go : forall mid st,
  (forall x, In x mid -> classify x <> KHeading) -> stack_wf st ->
  context_stack (fst (detect_go st mid)) = context_stack st /\
  deref (dheap (fst (detect_go st mid))) (context_stack st) =
    deref (dheap st) (context_stack st) ++ flat_map qualifier mid /\
  Forall (fun r => md_context (rec_meta r) = context_stack st) (snd (detect_go st mid)).
Proof.
  induction mid as [|e mid IH]; intros st Hh Hw; simpl.
  - rewrite app_nil_r. repeat split. constructor.
  - destruct (stack_step st e (Hh e (or_introl eq_refl)) Hw) as [H1 [H2 H3]].
    pose proof (stack_wf_step st e Hw) as Hw1.
    destruct (detect_step st e) as [s1 o]. simpl in *.
    destruct (IH s1 (fun x Hx => Hh x (or_intror Hx)) Hw1) as [I1 [I2 I3]].
    destruct (detect_go s1 mid) as [s2 rs]. simpl in *.
    rewrite H1 in I1, I2, I3. split; [exact I1|]. split.
    + rewrite I2, H2, app_assoc. reflexivity.
    + destruct o as [r|]; [constructor; [apply H3; reflexivity | exact I3] | exact I3].
Qed.

(** X7: between two headings the detector keeps a single context list:
    every record of a run of non-heading elements points to the running
    [context_stack], and the list ends up holding what it held before the
    run followed by each element's qualifier in order, duplicates
    included. *)
Theorem context_stack_accumulates : forall pre mid,
  (forall x, In x mid -> classify x <> KHeading) ->
  let d1 := fst (detect_structure pre) in
  let d2 := detect_structure (pre ++ mid) in
  context_stack (fst d2) = context_stack d1 /\
  deref (dheap (fst d2)) (context_stack d1) =
    deref (dheap d1) (context_stack d1) ++ flat_map qualifier mid /\
  Forall (fun r => md_context (rec_meta r) = context_stack d1)
    (skipn (length (snd (detect_structure pre))) (snd d2)).
Proof.
  intros pre mid Hh d1 d2. subst d1 d2. unfold detect_structure. rewrite detect_go_app.
  pose proof (stack_wf_go pre dinit ltac:(unfold stack_wf; simpl; lia)) as Hw.
  destruct (detect_go dinit pre) as [s1 r1]. simpl in *.
  destruct (stack_go mid s1 Hh Hw) as [H1 [H2 H3]].
  destruct (detect_go s1 mid) as [s2 r2]. simpl in *.
  split; [exact H1|]. split; [exact H2|].
  rewrite skipn_app, skipn_all, Nat.sub_diag. exact H3.
Qed.

Lemma context_stack_accumulates_witness :
  deref (dheap (fst (detect_structure ([] ++ [plain "Item 4: exclusions apply."; plain "Note: x.";
                                             plain "Pre-existing diseases are not covered";
                                             plain "Dental: not covered"]))))
        (context_stack (fst (detect_structure []))) =
    ["exclusions"; "not covered"; "not covered"]%string.
Proof.
  rewrite (proj1 (proj2 (context_stack_accumulates []
            [plain "Item 4: exclusions apply."; plain "Note: x.";
             plain "Pre-existing diseases are not covered"; plain "Dental: not covered"]
            ltac:(intros x Hx; simpl in Hx;
                  repeat (destruct Hx as [Hx|Hx]; [subst x; vm_compute; discriminate|]);
                  destruct Hx)))).
  vm_compute. reflexivity.
Defined.

(** ** Pages *)

Lemma page_step : forall st e,
  current_page (fst (detect_step st e)) =
    (if String.eqb (strip (el_text e)) "" then current_page st
     else match el_page e with Some (S n) => S n | _ => current_page st end) /\
  (forall r, snd (detect_step st e) = Some r -> md_page (rec_meta r) = current_page (fst (detect_step st e))).
Proof.
  intros st e. unfold detect_step.
  classify_cases e; simpl; split; try reflexivity;
    intros r Hr; try discriminate Hr;
    try (destruct (context_match (strip (el_text e))));
    injection Hr as <-; reflexivity.
Qed.

Lemma page_go : forall els st,
  current_page (fst (detect_go st els)) = page_after (current_page st) els.
Proof.
  induction els as [|e els IH]; intros st; simpl; [reflexivity|].
  destruct (page_step st e) as [H1 _].
  destruct (detect_step st e) as [s1 o]. simpl in *.
  specialize (IH s1). destruct (detect_go s1 els) as [s2 rs]. simpl in *.
  rewrite IH, H1. reflexivity.
Qed.

(** X8: a record's page is the last positive page number among the
    elements with non-empty trimmed text so far, itself included, and 1
    when there is none: a page number 0 or absent keeps the previous page,
    and a blank element's page number is never taken. *)
Theorem record_page_is_last_page : forall pre e,
  String.eqb (strip (el_text e)) "" = false ->
  md_page (rec_meta (last (snd (detect_structure (pre ++ [e]))) no_record)) =
    page_after 1 (pre ++ [e]).
Proof.
  intros pre e He. unfold detect_structure.
  assert (Hs : exists r, snd (detect_step (fst (detect_go dinit pre)) e) = Some r).
  { pose proof (detect_step_text (fst (detect_go dinit pre)) e) as H. rewrite He in H.
    destruct (snd (detect_step _ e)) as [r|]; [exists r; reflexivity | discriminate H]. }
  unfold no_record. rewrite detect_go_last by exact Hs.
  destruct Hs as [r Hr]. rewrite Hr.
  destruct (page_step (fst (detect_go dinit pre)) e) as [H1 H2].
  rewrite (H2 r Hr), H1.
  pose proof (page_go pre dinit) as Hp. change (current_page dinit) with 1 in Hp.
  rewrite Hp, He. unfold page_after. rewrite fold_left_app. simpl. rewrite He. reflexivity.
Qed.

Lemma record_page_is_last_page_witness :
  md_page (rec_meta (last (snd (detect_structure
    ([mk_element "Note: a." (Some 3) Other; mk_element "  " (Some 7) Other] ++
     [mk_element "Note: b." (Some 0) Other]))) no_record)) = 3.
Proof.
  rewrite (record_page_is_last_page
             [mk_element "Note: a." (Some 3) Other; mk_element "  " (Some 7) Other]
             (mk_element "Note: b." (Some 0) Other)) by (vm_compute; reflexivity).
  vm_compute. reflexivity.
Defined.

(** ** Sections that produce no chunk or a single chunk *)
Section ChunkFacts.
Variable sent_tokenize : string -> list string.
Variable ntok : string -> nat.

Lemma opt_str_eqb_refl : forall o, opt_str_eqb o o = true.
Proof. intros [s|]; simpl; [apply String.eqb_refl | reflexivity]. Qed.

Lemma final_chunk_seed : forall heading md ctx cl,
  final_chunk heading md ctx cl (heading_seed heading) [] = [].
Proof.
  intros [s|] md ctx cl; unfold heading_seed, truthy; simpl; [|reflexivity].
  destruct (String.eqb s "") eqn:E; simpl; [reflexivity|].
  rewrite String.eqb_refl. reflexivity.
Qed.

(** X9: a section text with no sentence yields no chunk, even when the
    section has a heading (the lone heading is never emitted), and leaves
    the heap as it is. *)
Theorem empty_section_no_chunk : forall h text heading md max_tokens overlap,
  sent_tokenize text = [] ->
  semantic_chunking sent_tokenize ntok h text heading (Some md) max_tokens overlap = Ok (h, []).
Proof.
  intros h text heading md max_tokens overlap H. unfold semantic_chunking. rewrite H.
  replace (if nonempty (deref h (md_context md)) then h else fallback_context h (md_context md) [])
    with h by (destruct (nonempty _); reflexivity).
  unfold chunk_sentences. simpl. unfold flush_remaining. simpl.
  rewrite final_chunk_seed. reflexivity.
Qed.

End ChunkFacts.

Lemma empty_section_no_chunk_witness :
  semantic_chunking Nltk.sent_tokenize Nltk.wordpunct_count [[]] "   " (Some "Benefits"%string)
    (Some md0) 500 100 = Ok ([[]], []).
Proof.
  apply empty_section_no_chunk. vm_compute. reflexivity.
Defined.

Section ChunkFit.
Variable sent_tokenize : string -> list string.
Variable ntok : string -> nat.
Variables (heading : option string) (md : meta) (ctx : list string) (max_tokens : nat).

Lemma fit_step : forall st s rest,
  chunks st = [] -> cur_length st = sum_tokens ntok (cur_chunk st) ->
  clause_length st = sum_tokens ntok (clause_buffer st) ->
  sum_tokens ntok (cur_chunk st ++ clause_buffer st ++ s :: rest) <= max_tokens ->
  let st' := chunk_step ntok heading md ctx max_tokens st s in
  chunks st' = [] /\ cur_length st' = sum_tokens ntok (cur_chunk st') /\
  clause_length st' = sum_tokens ntok (clause_buffer st') /\
  cur_chunk st' ++ clause_buffer st' = cur_chunk st ++ clause_buffer st ++ [s] /\
  cur_clause st' = match clause_match s with
                   | Some m => if nonempty (clause_buffer st) then Some m else cur_clause st
                   | None => cur_clause st end /\
  clause_buffer st' <> [].
Proof.
  intros st s rest Hc Hl Hb Hfit st'. subst st'. unfold chunk_step.
  rewrite !sum_tokens_app in Hfit.
  destruct (clause_match s) as [m|]; [destruct (clause_buffer st) as [|b0 bs] eqn:Eb|].
  - simpl. rewrite !Eb in *. simpl in *.
    repeat split; try assumption.
    all: first [lia | discriminate].
  - unfold finalize. rewrite Eb in *.
    replace (cur_length st + clause_length st <=? max_tokens) with true
      by (symmetry; apply Nat.leb_le; rewrite Hl, Hb; lia).
    simpl. rewrite sum_tokens_app. simpl. repeat split; try assumption; try discriminate.
    + rewrite Hl, Hb. reflexivity.
    + lia.
    + rewrite <- app_assoc. reflexivity.
  - simpl. rewrite sum_tokens_app. simpl. repeat split; try assumption; try lia.
    intros H. apply app_eq_nil in H. destruct H as [_ H]. discriminate H.
Qed.

Lemma fit_fold : forall ss st,
  chunks st = [] -> cur_length st = sum_tokens ntok (cur_chunk st) ->
  clause_length st = sum_tokens ntok (clause_buffer st) ->
  sum_tokens ntok (cur_chunk st ++ clause_buffer st ++ ss) <= max_tokens ->
  let st' := fold_left (chunk_step ntok heading md ctx max_tokens) ss st in
  chunks st' = [] /\ cur_length st' = sum_tokens ntok (cur_chunk st') /\
  clause_length st' = sum_tokens ntok (clause_buffer st') /\
  cur_chunk st' ++ clause_buffer st' = cur_chunk st ++ clause_buffer st ++ ss /\
  cur_clause st' = clause_after (cur_clause st) (nonempty (clause_buffer st)) ss /\
  (ss <> [] -> clause_buffer st' <> []).
Proof.
  induction ss as [|s ss IH]; intros st Hc Hl Hb Hfit st'; subst st'; simpl.
  - rewrite app_nil_r. repeat split; try assumption. intros H. contradiction.
  - destruct (fit_step st s ss Hc Hl Hb Hfit) as [H1 [H2 [H3 [H4 [H5 H6]]]]].
    set (st1 := chunk_step ntok heading md ctx max_tokens st s) in *.
    assert (Hfit1 : sum_tokens ntok (cur_chunk st1 ++ clause_buffer st1 ++ ss) <= max_tokens).
    { rewrite app_assoc, H4, <- !app_assoc. exact Hfit. }
    destruct (IH st1 H1 H2 H3 Hfit1) as [I1 [I2 [I3 [I4 [I5 I6]]]]].
    repeat split; try assumption.
    + rewrite I4, app_assoc, H4, <- !app_assoc. reflexivity.
    + rewrite I5, H5. destruct (clause_buffer st1) as [|x l] eqn:E; [contradiction|].
      reflexivity.
    + intros _. destruct ss as [|s' ss'].
      * simpl. exact H6.
      * apply I6. discriminate.
Qed.

Lemma chunk_sentences_fit : forall ss,
  ss <> [] -> heading <> Some ""%string ->
  heading_tokens ntok heading + sum_tokens ntok ss <= max_tokens ->
  chunk_sentences ntok heading md ctx max_tokens ss =
    [emit heading md ctx (clause_after (md_clause md) false ss) (heading_seed heading ++ ss)].
Proof.
  intros ss Hne Hh Hfit. unfold chunk_sentences.
  destruct (fit_fold ss (mk_cstate (heading_seed heading) (heading_tokens ntok heading) [] 0
                                   (md_clause md) []))
    as [H1 [H2 [H3 [H4 [H5 H6]]]]]; simpl; try reflexivity.
  - apply heading_tokens_sum.
  - rewrite sum_tokens_app, <- heading_tokens_sum. exact Hfit.
  - set (st := fold_left _ ss _) in *.
    unfold flush_remaining.
    assert (Hfit' : (cur_length st + clause_length st <=? max_tokens) = true).
    { apply Nat.leb_le. rewrite H2, H3, <- sum_tokens_app, H4. simpl.
      rewrite sum_tokens_app, <- heading_tokens_sum. exact Hfit. }
    simpl in H4.
    destruct (clause_buffer st) as [|b bs] eqn:Eb; [exfalso; apply (H6 Hne); reflexivity|].
    simpl. rewrite Hfit', H4, H1, H5. simpl.
    unfold final_chunk. unfold heading_seed, truthy in *.
    destruct heading as [hd|].
    + destruct (String.eqb hd "") eqn:Ehd.
      * apply String.eqb_eq in Ehd. subst hd. contradiction.
      * simpl. destruct ss as [|s ss']; [contradiction|]. reflexivity.
    + simpl. destruct ss as [|s ss']; [contradiction|].
      destruct ss'; reflexivity.
Qed.

End ChunkFit.

(** X10: a section whose heading and sentences fit in [max_tokens] (and
    whose heading is not the empty string) gives exactly one chunk: the
    heading followed by every sentence.  Its clause is the last clause
    start among the sentences after the first, or the metadata's clause:
    a clause marker opening the first sentence is not recorded. *)
Theorem fitting_section_single_chunk : forall sent_tokenize ntok h text heading md max_tokens overlap,
  sent_tokenize text <> [] -> heading <> Some ""%string ->
  heading_tokens ntok heading + sum_tokens ntok (sent_tokenize text) <= max_tokens ->
  exists h',
    semantic_chunking sent_tokenize ntok h text heading (Some md) max_tokens overlap =
    Ok (h', [emit heading md (deref h' (md_context md))
                  (clause_after (md_clause md) false (sent_tokenize text))
                  (heading_seed heading ++ sent_tokenize text)]).
Proof.
  intros sent_tokenize ntok h text heading md max_tokens overlap Hne Hh Hfit.
  unfold semantic_chunking. eexists. f_equal. f_equal.
  apply chunk_sentences_fit; assumption.
Qed.

Lemma fitting_section_single_chunk_witness :
  (exists h', semantic_chunking Nltk.sent_tokenize Nltk.wordpunct_count [[]]
     "a) Maternity is covered. b) Dental is covered." (Some "Benefits"%string) (Some md0) 500 100 =
   Ok (h', [emit (Some "Benefits"%string) md0 (deref h' 0) (Some "b)"%string)
              ["Benefits"; "a) Maternity is covered."; "b) Dental is covered."]%string])) /\
  (exists h', semantic_chunking Nltk.sent_tokenize Nltk.wordpunct_count [[]]
     "a) Maternity is covered." (Some "Benefits"%string) (Some md0) 500 100 =
   Ok (h', [emit (Some "Benefits"%string) md0 (deref h' 0) None
              ["Benefits"; "a) Maternity is covered."]%string])).
Proof.
  split.
  - apply (fitting_section_single_chunk Nltk.sent_tokenize Nltk.wordpunct_count [[]]
             "a) Maternity is covered. b) Dental is covered." (Some "Benefits"%string) md0 500 100);
      vm_compute; [discriminate | discriminate | repeat constructor].
  - apply (fitting_section_single_chunk Nltk.sent_tokenize Nltk.wordpunct_count [[]]
             "a) Maternity is covered." (Some "Benefits"%string) md0 500 100);
      vm_compute; [discriminate | discriminate | repeat constructor].
Defined.

(** ** The fallback context *)

Lemma existsb_eqb_false : forall q l, existsb (String.eqb q) l = false -> ~ In q l.
Proof.
  intros q l H Hi. assert (existsb (String.eqb q) l = true) by
    (apply existsb_exists; exists q; split; [exact Hi | apply String.eqb_refl]).
  congruence.
Qed.

Lemma existsb_eqb_true : forall q l, existsb (String.eqb q) l = true -> In q l.
Proof.
  intros q l H. apply existsb_exists in H. destruct H as [x [Hx E]].
  apply String.eqb_eq in E. subst x. exact Hx.
Qed.

Lemma fallback_spec : forall ss h r,
  r < length h ->
  let h' := fallback_context h r ss in
  length h' = length h /\
  (forall r', r' <> r -> deref h' r' = deref h r') /\
  (NoDup (deref h r) -> NoDup (deref h' r)) /\
  (forall q, In q (deref h' r) <-> In q (deref h r) \/ exists s, In s ss /\ context_match s = Some q).
Proof.
  induction ss as [|s ss IH]; intros h r Hr h'; subst h'.
  - simpl. repeat split; auto. intros [H|[x [[] _]]]. exact H.
  - set (h1 := match context_match s with
               | Some q => if existsb (String.eqb q) (deref h r) then h else heap_append h r q
               | None => h end).
    change (fallback_context h r (s :: ss)) with (fallback_context h1 r ss).
    assert (E1 : length h1 = length h /\ (forall r', r' <> r -> deref h1 r' = deref h r') /\
                 (NoDup (deref h r) -> NoDup (deref h1 r)) /\
                 (forall q, In q (deref h1 r) <->
                            In q (deref h r) \/ context_match s = Some q)).
    { subst h1. destruct (context_match s) as [q|] eqn:Eq.
      - destruct (existsb (String.eqb q) (deref h r)) eqn:Ex.
        + split; [reflexivity|]. split; [auto|]. split; [auto|].
          intros q'. split; [intros H; left; exact H|]. intros [H|H]; [exact H|].
          injection H as <-. apply existsb_eqb_true. exact Ex.
        + unfold heap_append. rewrite length_heap_set, deref_heap_set_same by exact Hr.
          split; [reflexivity|]. split.
          { intros r' Hne. apply deref_heap_set_other. exact Hne. }
          split.
          { intros Hn. apply NoDup_app; [exact Hn | constructor; [intros [] | constructor] |].
            intros x Hx [Hy|[]]. subst x. exact (existsb_eqb_false q _ Ex Hx). }
          intros q'. split.
          * intros Hi. apply in_app_or in Hi. destruct Hi as [Hi|[Hi|[]]];
              [left; exact Hi | right; subst; reflexivity].
          * intros [Hi|Hi]; apply in_or_app; [left; exact Hi|]. injection Hi as <-.
            right. left. reflexivity.
      - split; [reflexivity|]. split; [auto|]. split; [auto|].
        intros q'. split; [intros H; left; exact H|]. intros [H|H]; [exact H | discriminate H]. }
    destruct E1 as [L1 [O1 [N1 I1]]].
    destruct (IH h1 r ltac:(lia)) as [L2 [O2 [N2 I2]]].
    repeat split.
    + rewrite L2. exact L1.
    + intros r' Hne. rewrite O2, O1 by exact Hne. reflexivity.
    + intros Hn. apply N2, N1, Hn.
    + intros Hi. apply I2 in Hi. destruct Hi as [Hi|[x [Hx Ex]]].
      * apply I1 in Hi. destruct Hi as [Hi|Hi]; [left; exact Hi | right; exists s; split; [left; reflexivity | exact Hi]].
      * right. exists x. split; [right; exact Hx | exact Ex].
    + intros Hi. apply I2. destruct Hi as [Hi|[x [[Hx|Hx] Ex]]].
      * left. apply I1. left. exact Hi.
      * subst x. left. apply I1. right. exact Ex.
      * right. exists x. split; assumption.
Qed.

(** X11: when the metadata's context list is empty, [semantic_chunking]
    fills that very list in place with the qualifiers of the sentences,
    each once, first occurrence first; the other lists of the heap stay as
    they are.  When the list is non-empty the heap is not touched. *)
Theorem fallback_context_fills : forall sent_tokenize ntok h text heading md max_tokens overlap h' cs,
  semantic_chunking sent_tokenize ntok h text heading (Some md) max_tokens overlap = Ok (h', cs) ->
  md_context md < length h ->
  (deref h (md_context md) <> [] -> h' = h) /\
  (deref h (md_context md) = [] ->
     NoDup (deref h' (md_context md)) /\
     (forall q, In q (deref h' (md_context md)) <->
                exists s, In s (sent_tokenize text) /\ context_match s = Some q) /\
     (forall r', r' <> md_context md -> deref h' r' = deref h r')).
Proof.
  intros sent_tokenize ntok h text heading md max_tokens overlap h' cs H Hr.
  unfold semantic_chunking in H. injection H as Hh _.
  split.
  - intros Hne. destruct (deref h (md_context md)) as [|x l] eqn:E; [contradiction|].
    simpl in Hh. symmetry. exact Hh.
  - intros He. rewrite He in Hh. simpl in Hh. subst h'.
    destruct (fallback_spec (sent_tokenize text) h (md_context md) Hr) as [_ [O [N I]]].
    split; [apply N; rewrite He; constructor|]. split; [|exact O].
    intros q. rewrite I, He. split; [intros [[]|Hx]; exact Hx | intros Hx; right; exact Hx].
Qed.

Lemma fallback_context_fills_witness :
  deref (fst (match semantic_chunking Nltk.sent_tokenize Nltk.wordpunct_count [[]]
                 "Dental: not covered. Lasik: not covered. Item 2: exclusions apply." None (Some md0) 500 100
              with Ok p => p | Raise _ => ([], []) end)) 0 =
    ["not covered"; "exclusions"]%string /\
  NoDup ["not covered"; "exclusions"]%string.
Proof.
  split; [vm_compute; reflexivity|].
  destruct (proj2 (fallback_context_fills Nltk.sent_tokenize Nltk.wordpunct_count [[]]
             "Dental: not covered. Lasik: not covered. Item 2: exclusions apply." None md0 500 100
             [["not covered"; "exclusions"]%string]
             (snd (match semantic_chunking Nltk.sent_tokenize Nltk.wordpunct_count [[]]
                 "Dental: not covered. Lasik: not covered. Item 2: exclusions apply." None (Some md0) 500 100
              with Ok p => p | Raise _ => ([], []) end))
             ltac:(vm_compute; reflexivity) ltac:(simpl; lia)) eq_refl) as [N _].
  exact N.
Defined.

(** ** The metadata of the chunks *)
Section ChunkMeta.
Variable ntok : string -> nat.
Variables (heading : option string) (md : meta) (ctx : list string) (max_tokens : nat).
Variable P : chunk -> Prop.
Hypothesis P_emit : forall cl body, P (emit heading md ctx cl body).

Lemma chunk_step_all : forall st s,
  Forall P (chunks st) -> Forall P (chunks (chunk_step ntok heading md ctx max_tokens st s)).
Proof.
  intros st s H. unfold chunk_step.
  destruct (clause_match s); [|exact H]. destruct (clause_buffer st); [exact H|].
  unfold finalize. destruct (_ <=? _); simpl; [exact H|].
  apply Forall_app. split; [exact H | constructor; [apply P_emit | constructor]].
Qed.

Lemma chunk_sentences_all : forall ss, Forall P (chunk_sentences ntok heading md ctx max_tokens ss).
Proof.
  intros ss. unfold chunk_sentences.
  assert (Hf : forall ss st, Forall P (chunks st) ->
            Forall P (chunks (fold_left (chunk_step ntok heading md ctx max_tokens) ss st))).
  { induction ss0 as [|s ss0 IH]; intros st H; simpl; [exact H|]. apply IH, chunk_step_all, H. }
  set (st := fold_left _ ss _).
  assert (Hs : Forall P (chunks st)) by (apply Hf; constructor).
  assert (Hr : Forall P (snd (flush_remaining heading md ctx max_tokens st))).
  { unfold flush_remaining. destruct (nonempty _); [|exact Hs].
    destruct (_ <=? _); simpl; [exact Hs|].
    repeat (apply Forall_app; split); try exact Hs; repeat constructor; apply P_emit. }
  destruct (flush_remaining heading md ctx max_tokens st) as [c out]. simpl in Hr.
  unfold final_chunk. destruct c as [|x rest]; [exact Hr|].
  destruct (_ || _); [|exact Hr].
  apply Forall_app. split; [exact Hr | constructor; [apply P_emit | constructor]].
Qed.

End ChunkMeta.

Definition chunk_meta_of (heading : option string) (md : meta) (c : chunk) : Prop :=
  ch_heading c = heading /\ ch_section c = md_section md /\ ch_page c = md_page md /\
  ch_context c = md_context md /\ ch_references c = None.

Lemma semantic_chunking_meta : forall sent_tokenize ntok h text heading md max_tokens overlap h' cs,
  semantic_chunking sent_tokenize ntok h text heading (Some md) max_tokens overlap = Ok (h', cs) ->
  Forall (chunk_meta_of heading md) cs.
Proof.
  intros sent_tokenize ntok h text heading md max_tokens overlap h' cs H.
  unfold semantic_chunking in H. injection H as _ <-.
  apply chunk_sentences_all. intros cl body. repeat split.
Qed.

(** X12: every chunk of a section carries the section's heading, the
    section and page of the metadata it was given, the metadata's own
    context list object (not a copy) and no references yet. *)
Theorem chunk_metadata_from_section : forall sent_tokenize ntok h text heading md max_tokens overlap h' cs,
  semantic_chunking sent_tokenize ntok h text heading (Some md) max_tokens overlap = Ok (h', cs) ->
  Forall (fun c => ch_heading c = heading /\ ch_section c = md_section md /\
                   ch_page c = md_page md /\ ch_context c = md_context md /\
                   ch_references c = None) cs.
Proof. exact semantic_chunking_meta. Qed.

Lemma chunk_metadata_from_section_witness :
  Forall (fun c => ch_heading c = Some "Benefits"%string /\ ch_section c = md_section (mk_meta (Some "Benefits"%string) None 4 7) /\
                   ch_page c = 4 /\ ch_context c = 7 /\ ch_references c = None)
    (snd (match semantic_chunking Nltk.sent_tokenize Nltk.wordpunct_count [[]; []; []; []; []; []; []; []]
                 "Alpha beta. a) Gamma delta." (Some "Benefits"%string) (Some (mk_meta (Some "Benefits"%string) None 4 7)) 3 100
          with Ok p => p | Raise _ => ([], []) end)).
Proof.
  apply (chunk_metadata_from_section Nltk.sent_tokenize Nltk.wordpunct_count
           [[]; []; []; []; []; []; []; []] "Alpha beta. a) Gamma delta." (Some "Benefits"%string)
           (mk_meta (Some "Benefits"%string) None 4 7) 3 100
           (fst (match semantic_chunking Nltk.sent_tokenize Nltk.wordpunct_count [[]; []; []; []; []; []; []; []]
                 "Alpha beta. a) Gamma delta." (Some "Benefits"%string) (Some (mk_meta (Some "Benefits"%string) None 4 7)) 3 100
                 with Ok p => p | Raise _ => ([], []) end))).
  vm_compute. reflexivity.
Defined.

Section GroupMeta.
Variable sent_tokenize : string -> list string.
Variable ntok : string -> nat.

Definition sec_is_heading (c : chunk) : Prop := ch_section c = ch_heading c.

Lemma flush_sec : forall h fin texts hd md p,
  (forall m, md = Some m -> md_section m = hd) ->
  Forall sec_is_heading fin ->
  flush sent_tokenize ntok h fin texts hd md = Ok p ->
  Forall sec_is_heading (snd p).
Proof.
  intros h fin texts hd md p Hm Hf H. unfold flush in H.
  destruct (nonempty texts); [|injection H as <-; exact Hf].
  destruct md as [m|]; [|discriminate H].
  destruct (semantic_chunking sent_tokenize ntok h (join " " texts) hd (Some m) 500 100)
    as [p0|e] eqn:E; [|discriminate H].
  simpl in H. injection H as <-. simpl.
  destruct p0 as [h0 cs0].
  pose proof (semantic_chunking_meta _ _ _ _ _ _ _ _ _ _ E) as Hc.
  apply Forall_app. split; [exact Hf|].
  eapply Forall_impl; [|exact Hc]. intros c [H1 [H2 _]]. unfold sec_is_heading.
  rewrite H1, H2. apply Hm. reflexivity.
Qed.

Lemma group_go_sec : forall recs h fin texts hd md p,
  Forall (fun r => md_section (rec_meta r) = rec_heading r) recs ->
  Forall sec_is_heading fin ->
  (forall m, md = Some m -> md_section m = hd) ->
  group_go sent_tokenize ntok h fin texts hd md recs = Ok p ->
  Forall sec_is_heading (snd p).
Proof.
  induction recs as [|r rs IH]; intros h fin texts hd md p Hr Hf Hm H; simpl in H.
  - exact (flush_sec h fin texts hd md p Hm Hf H).
  - inversion Hr as [|r' rs' Hr1 Hrs]; subst.
    destruct (opt_str_eqb (rec_heading r) hd); [exact (IH _ _ _ _ _ _ Hrs Hf Hm H)|].
    destruct (flush sent_tokenize ntok h fin texts hd md) as [p1|e] eqn:E; [|discriminate H].
    simpl in H. apply (IH (fst p1) (snd p1) [rec_text r] (rec_heading r) (Some (rec_meta r)) p
                          Hrs (flush_sec h fin texts hd md p1 Hm Hf E)); [|exact H].
    intros m Hm'. injection Hm' as <-. exact Hr1.
Qed.

End GroupMeta.

(** X13: every chunk the pipeline returns has metadata section equal to
    its heading ([semantic_chunking] copies the section of the run's
    first record, and the detector keeps section and heading equal). *)
Theorem parse_chunks_section_is_heading : forall els cs,
  parse_elements els = Ok cs -> Forall (fun c => ch_section c = ch_heading c) cs.
Proof.
  intros els cs H. unfold parse_elements in H.
  pose proof (record_section_ok els) as Hr.
  destruct (detect_structure els) as [st recs]. simpl in Hr.
  destruct (chunk_sections Nltk.sent_tokenize Nltk.wordpunct_count (dheap st) recs) as [p|e] eqn:E;
    [|discriminate H].
  simpl in H. injection H as <-.
  pose proof (group_go_sec Nltk.sent_tokenize Nltk.wordpunct_count recs (dheap st) [] [] None None p
                Hr (Forall_nil _) (fun m Hm => ltac:(discriminate Hm)) E) as Hp.
  apply Forall_map. eapply Forall_impl; [|exact Hp].
  intros c Hc. unfold add_references. destruct (references (chunk_text c)); exact Hc.
Qed.

Lemma parse_chunks_section_is_heading_witness :
  Forall (fun c => ch_section c = ch_heading c)
    [mk_chunk "Benefits Benefits Note: cover applies." (Some "Benefits"%string) (Some "Benefits"%string)
              1 "" 2 None].
Proof.
  apply (parse_chunks_section_is_heading
           [mk_element "Benefits" None Title; plain "Note: cover applies."]).
  vm_compute. reflexivity.
Defined.

(** ** Runs of records with one heading *)
Section Runs.
Variable sent_tokenize : string -> list string.
Variable ntok : string -> nat.

Lemma group_go_run : forall rs rest h fin texts hd md,
  Forall (fun r => rec_heading r = hd) rs ->
  group_go sent_tokenize ntok h fin texts hd md (rs ++ rest) =
  group_go sent_tokenize ntok h fin (texts ++ map rec_text rs) hd md rest.
Proof.
  induction rs as [|r rs IH]; intros rest h fin texts hd md H; simpl.
  - rewrite app_nil_r. reflexivity.
  - inversion H as [|r' rs' Hr Hrs]; subst.
    rewrite opt_str_eqb_refl, IH by exact Hrs. rewrite <- app_assoc. reflexivity.
Qed.

Lemma group_go_boundary : forall rest h fin hd md,
  match rest with [] => True | r2 :: _ => opt_str_eqb (rec_heading r2) hd = false end ->
  group_go sent_tokenize ntok h fin [] hd md rest =
  match rest with
  | [] => Ok (h, fin)
  | r2 :: rest' => group_go sent_tokenize ntok h fin [rec_text r2] (rec_heading r2)
                            (Some (rec_meta r2)) rest'
  end.
Proof.
  intros [|r2 rest'] h fin hd md H; simpl; [reflexivity|]. rewrite H. reflexivity.
Qed.

End Runs.


Definition run_r : record := mk_record "Benefits" (Some "Benefits"%string) (mk_meta (Some "Benefits"%string) None 1 2).
Definition run_rs : list record :=
  [mk_record "Note: a." (Some "Benefits"%string) (mk_meta (Some "Benefits"%string) None 1 1)].
Definition run_rest : list record :=
  [mk_record "Claims" (Some "Claims"%string) (mk_meta (Some "Claims"%string) None 2 4)].


(** ** The matcher consumes a prefix of its input *)

Lemma Forall_firstn_l : forall {A} (Q : A -> Prop) n l, Forall Q l -> Forall Q (firstn n l).
Proof.
  intros A Q n l. revert n. induction l as [|x l IH]; intros [|n] H; simpl; try constructor.
  - inversion H; assumption.
  - apply IH. inversion H; assumption.
Qed.

Lemma Forall_skipn_l : forall {A} (Q : A -> Prop) n l, Forall Q l -> Forall Q (skipn n l).
Proof.
  intros A Q n l. revert n. induction l as [|x l IH]; intros [|n] H; simpl; try constructor; try exact H.
  - inversion H; assumption.
  - inversion H; assumption.
  - apply IH. inversion H; assumption.
Qed.

Lemma try_down_some : forall j lo g a, try_down j lo g = Some a -> exists i, g i = Some a.
Proof.
  induction j as [|j IH]; intros lo g a H; simpl in H.
  - destruct (g 0) eqn:E; [injection H as <-; exists 0; exact E | discriminate H].
  - destruct (g (S j)) eqn:E; [injection H as <-; exists (S j); exact E|].
    destruct (j <? lo); [discriminate H | exact (IH lo g a H)].
Qed.

Lemma try_up_some : forall cnt j g a, try_up j cnt g = Some a -> exists i, g i = Some a.
Proof.
  induction cnt as [|c IH]; intros j g a H; simpl in H.
  - destruct (g j) eqn:E; [injection H as <-; exists j; exact E | discriminate H].
  - destruct (g j) eqn:E; [injection H as <-; exists j; exact E | exact (IH (S j) g a H)].
Qed.

Section MatchInv.
Variable Q : ascii -> Prop.

(** Every answer of [mt] comes from its continuation, called on a suffix of
    the input with captures made of characters of the input. *)
Lemma mt_inv : forall r p s caps k a,
  mt r p s caps k = Some a -> Forall Q s -> Forall (Forall Q) caps ->
  exists p' s' caps', (exists pre, s = pre ++ s') /\ Forall (Forall Q) caps' /\
                      k p' s' caps' = Some a.
Proof.
  induction r as [f lo hi lz|r1 IH1 r2 IH2|r1 IH1 r2 IH2|r1 IH1|]; intros p s caps k a H Hs Hc;
    simpl in H.
  - destruct (run f hi s <? lo); [discriminate H|].
    assert (Hg : exists i, k (prev_after p i s) (skipn i s) caps = Some a).
    { destruct lz; [apply try_up_some in H | apply try_down_some in H]; exact H. }
    destruct Hg as [i Hi]. exists (prev_after p i s), (skipn i s), caps.
    split; [exists (firstn i s); symmetry; apply firstn_skipn|]. split; assumption.
  - destruct (IH1 p s caps _ a H Hs Hc) as [p1 [s1 [c1 [[pre1 E1] [Hc1 H1]]]]].
    assert (Hs1 : Forall Q s1) by (rewrite E1 in Hs; apply Forall_app in Hs; apply Hs).
    destruct (IH2 p1 s1 c1 k a H1 Hs1 Hc1) as [p2 [s2 [c2 [[pre2 E2] [Hc2 H2]]]]].
    exists p2, s2, c2. split; [exists (pre1 ++ pre2); rewrite E1, E2, app_assoc; reflexivity|].
    split; assumption.
  - destruct (mt r1 p s caps k) eqn:E.
    + injection H as <-. exact (IH1 p s caps k _ E Hs Hc).
    + exact (IH2 p s caps k a H Hs Hc).
  - destruct (IH1 p s caps _ a H Hs Hc) as [p1 [s1 [c1 [Hsuf [Hc1 H1]]]]].
    exists p1, s1, (c1 ++ [firstn (length s - length s1) s]).
    split; [exact Hsuf|]. split; [|exact H1].
    apply Forall_app. split; [exact Hc1 | constructor; [apply Forall_firstn_l; exact Hs | constructor]].
  - destruct (Bool.eqb _ _); [discriminate H|].
    exists p, s, caps. split; [exists []; reflexivity | split; assumption].
Qed.

Lemma match_at_inv : forall r p s a,
  match_at r p s = Some a -> Forall Q s ->
  (exists pre, s = pre ++ fst a) /\ Forall (Forall Q) (snd a).
Proof.
  intros r p s a H Hs. unfold match_at in H.
  destruct (mt_inv r p s [] _ a H Hs (Forall_nil _)) as [p' [s' [c' [Hsuf [Hc Hk]]]]].
  injection Hk as <-. simpl. split; assumption.
Qed.

End MatchInv.

Lemma match_at_suffix : forall r p s a,
  match_at r p s = Some a -> exists pre, s = pre ++ fst a.
Proof.
  intros r p s a H.
  apply (match_at_inv (fun _ => True) r p s a H). apply Forall_forall. intros; exact I.
Qed.

Lemma matched_prefix : forall (s pre rest : list ascii), s = pre ++ rest -> firstn (length s - length rest) s = pre.
Proof.
  intros s pre rest ->. rewrite length_app, Nat.add_sub, firstn_app, Nat.sub_diag, firstn_all. simpl.
  apply app_nil_r.
Qed.

(** Matches found left to right, disjoint, in order. *)
Fixpoint in_order (xs : list (list ascii)) (s : list ascii) : Prop :=
  match xs with
  | [] => True
  | x :: xs' => exists pre post, s = pre ++ x ++ post /\ in_order xs' post
  end.

Lemma findall_go_in_order : forall fuel r p s,
  in_order (findall_go fuel r p s) s /\ Forall (fun m => m <> []) (findall_go fuel r p s).
Proof.
  induction fuel as [|fuel IH]; intros r p s; simpl; [split; [exact I | constructor]|].
  destruct (match_at r p s) as [a|] eqn:E.
  - destruct (length (fst a) <? length s) eqn:Hl.
    + destruct (match_at_suffix r p s a E) as [pre Hs].
      pose proof (matched_prefix s pre (fst a) Hs) as Hm. unfold matched. rewrite Hm.
      destruct (IH r (prev_after p (length pre) s) (fst a)) as [H1 H2].
      split; [|constructor; [|exact H2]].
      * exists [], (fst a). split; [exact Hs | exact H1].
      * intros ->. simpl in Hs. subst s. apply Nat.ltb_lt in Hl. lia.
    + destruct s as [|c s']; [split; [exact I | constructor]|].
      destruct (IH r (Some c) s') as [H1 H2]. split; [|exact H2].
      destruct (findall_go fuel r (Some c) s') as [|x xs]; [exact I|].
      destruct H1 as [pre [post [Hs Ho]]]. exists (c :: pre), post. rewrite Hs. split; [reflexivity | exact Ho].
  - destruct s as [|c s']; [split; [exact I | constructor]|].
    destruct (IH r (Some c) s') as [H1 H2]. split; [|exact H2].
    destruct (findall_go fuel r (Some c) s') as [|x xs]; [exact I|].
    destruct H1 as [pre [post [Hs Ho]]]. exists (c :: pre), post. rewrite Hs. split; [reflexivity | exact Ho].
Qed.

(** The references of a text occur in it in order, without overlap. *)
Fixpoint occur_in_order (xs : list string) (t : string) : Prop :=
  match xs with
  | [] => True
  | x :: xs' => exists pre post, t = (pre ++ x ++ post)%string /\ occur_in_order xs' post
  end.

Lemma in_order_strings : forall ms s, in_order ms s -> occur_in_order (map S_ ms) (S_ s).
Proof.
  induction ms as [|m ms IH]; intros s H; simpl; [exact I|].
  destruct H as [pre [post [-> Ho]]].
  exists (S_ pre), (S_ post). split; [rewrite !S_app; reflexivity | exact (IH post Ho)].
Qed.

(** X15: the references extracted from a chunk are non-empty pieces of its
    text, found left to right without overlap; a chunk gets the
    [references] key exactly when there is at least one, and nothing else
    of the chunk changes. *)
Theorem references_are_text_pieces : forall c,
  occur_in_order (references (chunk_text c)) (chunk_text c) /\
  Forall (fun x => x <> ""%string) (references (chunk_text c)) /\
  add_references c =
    mk_chunk (chunk_text c) (ch_heading c) (ch_section c) (ch_page c) (ch_clause c) (ch_context c)
      (match references (chunk_text c) with [] => ch_references c | refs => Some refs end).
Proof.
  intros c. unfold references.
  destruct (findall_go_in_order (S (length (L (chunk_text c)))) reference_re None (L (chunk_text c)))
    as [H1 H2].
  fold (findall reference_re (L (chunk_text c))) in H1, H2.
  split; [|split].
  - pose proof (in_order_strings _ _ H1) as H. rewrite S_L in H. exact H.
  - apply Forall_map. eapply Forall_impl; [|exact H2]. intros m Hm He. apply Hm.
    rewrite <- (L_S_ m), He. reflexivity.
  - destruct c as [t hd sec pg cl ctx refs]. unfold add_references, references. simpl.
    destruct (map S_ (findall reference_re (L t))); reflexivity.
Qed.

(** ** The characters of [clean_text]'s output *)
Section SubChars.
Variable Q : ascii -> Prop.

Lemma sub_go_chars : forall fuel r repl p s,
  (forall m gs, Forall Q m -> Forall (Forall Q) gs -> Forall Q (repl m gs)) ->
  Forall Q s -> Forall Q (sub_go fuel r repl p s).
Proof.
  induction fuel as [|fuel IH]; intros r repl p s Hr Hs; simpl; [exact Hs|].
  destruct (match_at r p s) as [a|] eqn:E.
  - destruct (length (fst a) <? length s).
    + destruct (match_at_inv Q r p s a E Hs) as [[pre Hp] Hc].
      apply Forall_app. split.
      * apply Hr; [unfold matched; apply Forall_firstn_l; exact Hs | exact Hc].
      * apply IH; [exact Hr|]. rewrite Hp in Hs. apply Forall_app in Hs. apply Hs.
    + destruct s as [|c s']; [constructor|]. inversion Hs; subst.
      constructor; [assumption | apply IH; assumption].
  - destruct s as [|c s']; [constructor|]. inversion Hs; subst.
    constructor; [assumption | apply IH; assumption].
Qed.

End SubChars.

Definition ws_only_blank (c : ascii) : Prop := is_space c = true -> c = " "%char.

Lemma try_down_first : forall j lo g a, g j = Some a -> try_down j lo g = Some a.
Proof. intros [|j] lo g a H; simpl; rewrite H; reflexivity. Qed.

Lemma ws_match_space : forall p c s',
  is_space c = true ->
  exists a, match_at Clean.ws_re p (c :: s') = Some a /\ length (fst a) < length (c :: s').
Proof.
  intros p c s' Hc. unfold match_at, Clean.ws_re, plus. simpl. rewrite Hc. simpl.
  eexists; split; [reflexivity|]. simpl. rewrite length_skipn. simpl. lia.
Qed.

Lemma sub_go_ws : forall (P : ascii -> Prop) fuel p s,
  length s < fuel -> P " "%char -> Forall P s ->
  Forall (fun c => P c /\ ws_only_blank c) (sub_go fuel Clean.ws_re (fun _ _ => [" "%char]) p s).
Proof.
  intros P. induction fuel as [|fuel IH]; intros p s Hl HP Hs; [simpl in Hl; lia|]. simpl.
  destruct (match_at Clean.ws_re p s) as [a|] eqn:E.
  - destruct (length (fst a) <? length s) eqn:Hlt.
    + constructor.
      * split; [exact HP | intros _; reflexivity].
      * destruct (match_at_suffix _ _ _ _ E) as [pre Hp].
        apply IH; [apply Nat.ltb_lt in Hlt; lia | exact HP |].
        rewrite Hp in Hs. apply Forall_app in Hs. apply Hs.
    + destruct s as [|c s']; [constructor|]. inversion Hs; subst.
      constructor.
      * split; [assumption|]. intros Hc. exfalso.
        destruct (ws_match_space p c s' Hc) as [a' [E' Hl']]. rewrite E in E'. injection E' as <-.
        apply Nat.ltb_ge in Hlt. lia.
      * apply IH; [simpl in Hl; lia | exact HP | assumption].
  - destruct s as [|c s']; [constructor|]. inversion Hs; subst.
    constructor.
    + split; [assumption|]. intros Hc. exfalso.
      destruct (ws_match_space p c s' Hc) as [a' [E' _]]. rewrite E in E'. discriminate E'.
    + apply IH; [simpl in Hl; lia | exact HP | assumption].
Qed.

Lemma lstrip_suffix : forall l, exists sp, l = sp ++ lstrip_l l.
Proof.
  induction l as [|c l IH]; simpl; [exists []; reflexivity|].
  destruct (is_space c); [destruct IH as [sp E]; exists (c :: sp); simpl; rewrite <- E; reflexivity|].
  exists []. reflexivity.
Qed.

Lemma lstrip_head : forall l, match lstrip_l l with [] => True | c :: _ => is_space c = false end.
Proof.
  induction l as [|c l IH]; simpl; [exact I|].
  destruct (is_space c) eqn:E; [exact IH | exact E].
Qed.

Lemma Forall_lstrip : forall (Q : ascii -> Prop) l, Forall Q l -> Forall Q (lstrip_l l).
Proof.
  intros Q l H. destruct (lstrip_suffix l) as [sp E]. rewrite E in H.
  apply Forall_app in H. apply H.
Qed.

Lemma strip_shape : forall (Q : ascii -> Prop) s,
  Forall Q (L s) ->
  Forall Q (L (strip s)) /\
  match L (strip s) with [] => True | c :: _ => is_space c = false end /\
  match rev (L (strip s)) with [] => True | c :: _ => is_space c = false end.
Proof.
  intros Q s H. unfold strip. rewrite L_S_.
  set (y := lstrip_l (L s)). set (z := lstrip_l (rev y)).
  split; [apply Forall_rev, Forall_lstrip, Forall_rev, Forall_lstrip, H|].
  split.
  - destruct (lstrip_suffix (rev y)) as [sp E]. fold z in E.
    assert (Ey : y = rev z ++ rev sp) by (rewrite <- rev_app_distr, <- E, rev_involutive; reflexivity).
    pose proof (lstrip_head (L s)) as Hy. fold y in Hy.
    destruct (rev z) as [|c w]; [exact I|]. rewrite Ey in Hy. exact Hy.
  - rewrite rev_involutive. apply lstrip_head.
Qed.

Definition clean_char (text : string) (c : ascii) : Prop :=
  (In c (L text) \/ c = " "%char) /\ ws_only_blank c.

Lemma empty_repl_ok : forall (Q : ascii -> Prop) m gs, Forall Q (Clean.empty_repl m gs).
Proof. intros. constructor. Qed.

Lemma hyphen_repl_ok : forall (Q : ascii -> Prop) m gs,
  Forall (Forall Q) gs -> Forall Q (Clean.hyphen_repl m gs).
Proof.
  intros Q m gs H. unfold Clean.hyphen_repl.
  destruct gs as [|g1 [|g2 [|g3 gs]]]; try constructor.
  inversion H as [|x l H1 H2]; subst. inversion H2 as [|y l' H3 _]; subst.
  apply Forall_app. split; assumption.
Qed.

(** X16: [clean_text] only deletes text or puts blanks in: every character
    of its result is a character of the input or a blank; every white-space
    character of the result is a plain blank (tabs and newlines are gone),
    and the result neither starts nor ends with white space. *)
Theorem clean_text_shape : forall text doc_ext,
  let out := L (Clean.clean_text text doc_ext) in
  Forall (fun c => (In c (L text) \/ c = " "%char) /\ (is_space c = true -> c = " "%char)) out /\
  match out with [] => True | c :: _ => is_space c = false end /\
  match rev out with [] => True | c :: _ => is_space c = false end.
Proof.
  intros text doc_ext out. subst out. unfold Clean.clean_text.
  set (P := fun c => In c (L text) \/ c = " "%char).
  set (t1 := sub Clean.boiler_re Clean.empty_repl (L text)).
  assert (H1 : Forall P t1).
  { apply sub_go_chars; [intros; apply empty_repl_ok|].
    apply Forall_forall. intros c Hc. left. exact Hc. }
  set (t2 := sub Clean.ws_re (fun _ _ => [" "%char]) t1).
  assert (H2 : Forall (clean_char text) t2).
  { apply sub_go_ws; [lia | right; reflexivity | exact H1]. }
  set (t3 := sub Clean.hyphen_re Clean.hyphen_repl t2).
  assert (H3 : Forall (clean_char text) t3).
  { apply sub_go_chars; [intros m gs _ Hg; apply hyphen_repl_ok; exact Hg | exact H2]. }
  set (t4 := if String.eqb doc_ext ".eml" then sub Clean.eml_re Clean.empty_repl t3 else t3).
  assert (H4 : Forall (clean_char text) t4).
  { subst t4. destruct (String.eqb doc_ext ".eml"); [|exact H3].
    apply sub_go_chars; [intros; apply empty_repl_ok | exact H3]. }
  set (t5 := if String.eqb doc_ext ".docx" then sub Clean.docx_re Clean.empty_repl t4 else t4).
  assert (H5 : Forall (clean_char text) t5).
  { subst t5. destruct (String.eqb doc_ext ".docx"); [|exact H4].
    apply sub_go_chars; [intros; apply empty_repl_ok | exact H4]. }
  set (t6 := sub Clean.legal_re Clean.empty_repl t5).
  assert (H6 : Forall (clean_char text) t6).
  { apply sub_go_chars; [intros; apply empty_repl_ok | exact H5]. }
  apply strip_shape. rewrite L_S_. exact H6.
Qed.

(** The values Pinecone accepts in metadata, as the sanitization builds them:
    a string, or a list of strings. *)
Definition pinecone_value (v : pyval) : Prop :=
  match v with
  | VStr _ => True
  | VList xs => Forall (fun x => is_str x = true) xs
  | _ => False
  end.

Section SanitizeFacts.
Variable py_str : pyval -> string.

Lemma sanitize_value_ok (v : pyval) : pinecone_value (sanitize_value py_str v).
Proof.
  destruct v; simpl; try exact I.
  destruct (forallb is_str xs) eqn:Hf; simpl; [|exact I].
  apply Forall_forall. intros x Hx. exact (proj1 (forallb_forall _ _) Hf x Hx).
Qed.

Lemma dict_set_forall (P : pyval -> Prop) (k : string) (v : pyval) (d : pydict) :
  Forall (fun kv => P (snd kv)) d -> P v -> Forall (fun kv => P (snd kv)) (dict_set k v d).
Proof.
  induction d as [|[k' v'] d IH]; intros Hd Hv; simpl.
  - constructor; [exact Hv | constructor].
  - inversion Hd; subst. destruct (String.eqb k k').
    + constructor; assumption.
    + constructor; [assumption | apply IH; assumption].
Qed.

Lemma dict_set_fresh (k : string) (v : pyval) (d : pydict) :
  ~ In k (map fst d) -> dict_set k v d = d ++ [(k, v)].
Proof.
  induction d as [|[k' v'] d IH]; intros Hk; simpl; [reflexivity|].
  simpl in Hk. destruct (String.eqb k k') eqn:E.
  - apply String.eqb_eq in E. subst. exfalso. apply Hk. left. reflexivity.
  - rewrite IH; [reflexivity|]. intros H. apply Hk. right. exact H.
Qed.

Lemma sanitize_fold_fresh (md d : pydict) :
  NoDup (map fst d ++ map fst md) ->
  fold_left (fun d kv => dict_set (fst kv) (sanitize_value py_str (snd kv)) d) md d
  = d ++ map (fun kv => (fst kv, sanitize_value py_str (snd kv))) md.
Proof.
  revert d. induction md as [|[k v] md IH]; intros d Hnd; simpl.
  - rewrite app_nil_r. reflexivity.
  - simpl in Hnd. rewrite dict_set_fresh.
    + rewrite IH.
      * rewrite <- app_assoc. reflexivity.
      * rewrite map_app, <- app_assoc. simpl. exact Hnd.
    + intros Hin. apply NoDup_remove_2 in Hnd. apply Hnd.
      apply in_or_app. left. exact Hin.
Qed.

Lemma range_go_nonneg_empty (fuel : nat) (n b : Z) :
  (b < 0)%Z -> (0 <= n)%Z -> range_go fuel 0 n b = [].
Proof.
  intros Hb Hn. destruct fuel; simpl; [reflexivity|].
  destruct (0 <? b)%Z eqn:E1; [lia|].
  destruct (n <? 0)%Z eqn:E2; [lia | reflexivity].
Qed.

Lemma py_index_nat (n k : nat) : py_index n (Z.of_nat k) = Nat.min n k.
Proof.
  unfold py_index. destruct (Z.of_nat k <? 0)%Z eqn:E; [lia|].
  rewrite Nat2Z.id. reflexivity.
Qed.

Lemma range_go_batches {A} (vs : list A) (b : Z) :
  (0 < b)%Z ->
  forall fuel k, length vs - k <= fuel ->
  let bs := map (fun i => py_slice vs i (i + b)%Z)
                (range_go fuel (Z.of_nat k) (Z.of_nat (length vs)) b) in
  concat bs = skipn k vs /\
  Forall (fun bt => 1 <= length bt <= Z.to_nat b) bs.
Proof.
  intros Hb fuel. induction fuel as [|f IH]; intros k Hk bs; subst bs.
  - simpl. rewrite skipn_all2 by lia. split; [reflexivity | constructor].
  - simpl. destruct (0 <? b)%Z eqn:E0; [|lia].
    destruct (Z.of_nat k <? Z.of_nat (length vs))%Z eqn:E1.
    + assert (Hk' : (Z.of_nat k + b)%Z = Z.of_nat (k + Z.to_nat b)) by lia.
      rewrite Hk'. simpl. rewrite Hk'.
      destruct (IH (k + Z.to_nat b) ltac:(lia)) as [Hc Hl].
      unfold py_slice at 1. rewrite !py_index_nat.
      split.
      * rewrite Hc.
        assert (Hkl : k < length vs) by lia.
        replace (Nat.min (length vs) k) with k by lia.
        assert (Hs : skipn (k + Z.to_nat b) vs = skipn (Z.to_nat b) (skipn k vs))
          by (rewrite skipn_skipn; f_equal; lia).
        rewrite Hs.
        destruct (Nat.le_gt_cases (k + Z.to_nat b) (length vs)) as [Hle | Hgt].
        -- replace (Nat.min (length vs) (k + Z.to_nat b) - k) with (Z.to_nat b) by lia.
           apply firstn_skipn.
        -- rewrite (skipn_all2 (skipn k vs)) by (rewrite length_skipn; lia).
           rewrite app_nil_r. apply firstn_all2. rewrite length_skipn. lia.
      * constructor; [|exact Hl].
        unfold py_slice. rewrite !py_index_nat, length_firstn, length_skipn. split; lia.
    + simpl. rewrite skipn_all2 by lia. split; [reflexivity | constructor].
Qed.

Lemma fold_left_map_upsert {E : Type} (f : index E -> list (vector E) -> index E)
      (g : Z -> list (vector E)) (is : list Z) (idx : index E) :
  fold_left (fun idx i => f idx (g i)) is idx = fold_left f (map g is) idx.
Proof.
  revert idx. induction is as [|i is IH]; intros idx; simpl; [reflexivity | apply IH].
Qed.

Lemma upsert_chunks_batches {E : Type} (gen : list string -> list E)
      (idx : index E) (chunks : list pychunk) (b : Z) :
  upsert_chunks E py_str gen idx chunks b
  = let? bs := batches E (make_vectors E py_str gen chunks) b in
    Done (fold_left (upsert E) bs idx).
Proof.
  unfold upsert_chunks, batches. destruct (py_range _ _ _); simpl; [|reflexivity].
  rewrite fold_left_map_upsert. reflexivity.
Qed.

End SanitizeFacts.

(** X17 (pinecone_utils.upsert_chunks): every sanitized metadata value is a
    string or a list of strings; and when the metadata keys are distinct and
    none is ["chunk_text"], the sanitized dict is ["chunk_text"] first,
    followed by each key in its original order with its sanitized value. *)
Theorem sanitized_metadata_shape (py_str : pyval -> string) (text : string) (md : pydict) :
  Forall (fun kv => pinecone_value (snd kv)) (sanitized_metadata py_str text md) /\
  (NoDup ("chunk_text"%string :: map fst md) ->
   sanitized_metadata py_str text md
   = ("chunk_text"%string, VStr text) :: map (fun kv => (fst kv, sanitize_value py_str (snd kv))) md).
Proof.
  split.
  - unfold sanitized_metadata.
    assert (Hinit : Forall (fun kv => pinecone_value (snd kv)) [("chunk_text"%string, VStr text)])
      by (constructor; [exact I | constructor]).
    revert Hinit. generalize [("chunk_text"%string, VStr text)].
    induction md as [|kv md IH]; intros d Hd; simpl; [exact Hd|].
    apply IH. apply dict_set_forall; [exact Hd | apply sanitize_value_ok].
  - intros Hnd. unfold sanitized_metadata. rewrite sanitize_fold_fresh; [reflexivity | exact Hnd].
Qed.

Lemma sanitized_metadata_shape_witness :
  NoDup ("chunk_text"%string :: map fst [("section"%string, VNone); ("page"%string, VInt 3);
                                        ("context"%string, VList [VStr "x"; VInt 1])]) /\
  sanitized_metadata (fun _ => "<value>"%string) "Body" [("section"%string, VNone); ("page"%string, VInt 3);
                                        ("context"%string, VList [VStr "x"; VInt 1])]
  = [("chunk_text"%string, VStr "Body"); ("section"%string, VStr ""); ("page"%string, VStr "<value>");
     ("context"%string, VStr "<value>")].
Proof.
  assert (Hnd : NoDup ("chunk_text"%string :: map fst [("section"%string, VNone); ("page"%string, VInt 3);
                                        ("context"%string, VList [VStr "x"; VInt 1])])).
  { simpl. repeat constructor; simpl; intuition discriminate. }
  split; [exact Hnd|].
  rewrite (proj2 (sanitized_metadata_shape (fun _ => "<value>"%string) "Body" _) Hnd).
  reflexivity.
Defined.

Lemma upload_batches_pos {E : Type} (py_str : pyval -> string) (gen : list string -> list E)
      (idx : index E) (chunks : list pychunk) (batch_size : Z) :
  (0 < batch_size)%Z ->
  exists bs, batches E (make_vectors E py_str gen chunks) batch_size = Done bs /\
    concat bs = make_vectors E py_str gen chunks /\
    Forall (fun bt => 1 <= length bt <= Z.to_nat batch_size) bs /\
    upsert_chunks E py_str gen idx chunks batch_size = Done (fold_left (upsert E) bs idx).
Proof.
  intros Hb. rewrite upsert_chunks_batches. unfold batches, py_range.
  destruct (batch_size =? 0)%Z eqn:E0; [lia|]. simpl.
  eexists. split; [reflexivity|].
  set (vs := make_vectors E py_str gen chunks).
  destruct (range_go_batches vs batch_size Hb
              (S (Z.to_nat (Z.abs (Z.of_nat (length vs) - 0)))) 0 ltac:(lia)) as [Hc Hl].
  simpl Z.of_nat in Hc, Hl. split; [exact Hc|]. split; [exact Hl | reflexivity].
Qed.

(** X18 (pinecone_utils.upsert_chunks, batch loop): a batch size of 0 raises
    ValueError before anything is uploaded; a negative batch size uploads
    nothing and leaves the index as it was; a positive one uploads batches
    that together are all the vectors in order, each of 1 to [batch_size]
    vectors. *)
Theorem upload_batches {E : Type} (py_str : pyval -> string) (gen : list string -> list E)
        (idx : index E) (chunks : list pychunk) (batch_size : Z) :
  (batch_size = 0%Z -> upsert_chunks E py_str gen idx chunks batch_size = Fail ValueError) /\
  ((batch_size < 0)%Z -> upsert_chunks E py_str gen idx chunks batch_size = Done idx) /\
  ((0 < batch_size)%Z ->
   exists bs, batches E (make_vectors E py_str gen chunks) batch_size = Done bs /\
     concat bs = make_vectors E py_str gen chunks /\
     Forall (fun bt => 1 <= length bt <= Z.to_nat batch_size) bs /\
     upsert_chunks E py_str gen idx chunks batch_size = Done (fold_left (upsert E) bs idx)).
Proof.
  split; [|split]; [rewrite upsert_chunks_batches; unfold batches, py_range ..|].
  - intros ->. reflexivity.
  - intros Hb. destruct (batch_size =? 0)%Z eqn:E0; [lia|].
    rewrite range_go_nonneg_empty by lia. reflexivity.
  - intros Hb. exact (upload_batches_pos py_str gen idx chunks batch_size Hb).
Qed.

Lemma upload_batches_witness :
  (0 < 2)%Z /\ batches nat (make_vectors nat (fun _ => ""%string) (map String.length)
      [("a"%string, []); ("bb"%string, []); ("ccc"%string, [])]) 2
  = Done [[mk_vector nat "chunk_0" 1 [("chunk_text"%string, VStr "a")];
           mk_vector nat "chunk_1" 2 [("chunk_text"%string, VStr "bb")]];
          [mk_vector nat "chunk_2" 3 [("chunk_text"%string, VStr "ccc")]]] /\
  upsert_chunks nat (fun _ => ""%string) (map String.length) (fun _ => None)
      [("a"%string, [])] 0 = Fail ValueError.
Proof.
  split; [lia|]. split; [reflexivity|].
  apply (proj1 (upload_batches (fun _ => ""%string) (map String.length) (fun _ => None)
                  [("a"%string, [])] 0)). reflexivity.
Defined.

Section UpsertIds.
Variable E : Type.
Variable py_str : pyval -> string.

Lemma str_nat_inj (a b : nat) : str_nat a = str_nat b -> a = b.
Proof.
  unfold str_nat. intros H.
  apply Unsigned.to_uint_inj.
  apply (f_equal NilEmpty.uint_of_string) in H. rewrite !NilEmpty.usu in H.
  injection H as H. exact H.
Qed.

Lemma chunk_id_inj (a b : nat) : ("chunk_" ++ str_nat a)%string = ("chunk_" ++ str_nat b)%string -> a = b.
Proof.
  simpl. intros H. injection H as H. apply str_nat_inj. exact H.
Qed.

Lemma vectors_go_id (es : list E) (cs : list pychunk) :
  forall i j v, nth_error (vectors_go E py_str i es cs) j = Some v ->
  v_id E v = ("chunk_" ++ str_nat (i + j))%string.
Proof.
  revert cs. induction es as [|e es IH]; intros cs i j v Hj; [destruct j; discriminate|].
  destruct cs as [|c cs]; [destruct j; discriminate|].
  destruct j as [|j]; simpl in Hj.
  - injection Hj as <-. simpl. rewrite Nat.add_0_r. reflexivity.
  - rewrite (IH cs (S i) j v Hj). do 2 f_equal. lia.
Qed.

Lemma upsert_snoc (idx : index E) (vs : list (vector E)) (w : vector E) (k : string) :
  upsert E idx (vs ++ [w]) k = if String.eqb k (v_id E w) then Some w else upsert E idx vs k.
Proof. unfold upsert. rewrite fold_left_app. reflexivity. Qed.

Lemma upsert_concat (bs : list (list (vector E))) (idx : index E) :
  fold_left (upsert E) bs idx = upsert E idx (concat bs).
Proof.
  revert idx. induction bs as [|b bs IH]; intros idx; simpl; [reflexivity|].
  rewrite IH. unfold upsert. rewrite fold_left_app. reflexivity.
Qed.

Lemma upsert_lookup (idx : index E) (vs : list (vector E)) :
  (forall j v, nth_error vs j = Some v -> v_id E v = ("chunk_" ++ str_nat j)%string) ->
  (forall i, upsert E idx vs ("chunk_" ++ str_nat i)%string
             = match nth_error vs i with Some v => Some v | None => idx ("chunk_" ++ str_nat i)%string end) /\
  (forall k, (forall i, k <> ("chunk_" ++ str_nat i)%string) -> upsert E idx vs k = idx k).
Proof.
  induction vs as [|w vs IH] using rev_ind; intros Hid.
  - split; intros; [destruct i|]; reflexivity.
  - assert (Hid' : forall j v, nth_error vs j = Some v -> v_id E v = ("chunk_" ++ str_nat j)%string).
    { intros j v Hj. apply Hid. rewrite nth_error_app1; [exact Hj|].
      apply nth_error_Some. rewrite Hj. discriminate. }
    assert (Hw : v_id E w = ("chunk_" ++ str_nat (length vs))%string).
    { apply Hid. rewrite nth_error_app2, Nat.sub_diag by lia. reflexivity. }
    destruct (IH Hid') as [IH1 IH2]. split.
    + intros i. rewrite upsert_snoc, Hw.
      destruct (String.eqb _ _) eqn:Eq.
      * apply String.eqb_eq, chunk_id_inj in Eq. subst i.
        rewrite nth_error_app2, Nat.sub_diag by lia. reflexivity.
      * rewrite IH1. apply String.eqb_neq in Eq.
        destruct (Nat.lt_trichotomy i (length vs)) as [Hlt | [Heq | Hgt]].
        -- rewrite nth_error_app1 by exact Hlt. reflexivity.
        -- subst i. exfalso. apply Eq. reflexivity.
        -- rewrite nth_error_app2 by lia.
           rewrite (proj2 (nth_error_None vs i)) by lia.
           destruct (i - length vs) as [|m] eqn:Hm; [lia|].
           simpl. destruct m; reflexivity.
    + intros k Hk. rewrite upsert_snoc, Hw.
      destruct (String.eqb _ _) eqn:Eq.
      * apply String.eqb_eq in Eq. exfalso. exact (Hk _ Eq).
      * apply IH2. exact Hk.
Qed.

Lemma upsert_chunks_lookup (gen : list string -> list E) (idx idx' : index E)
      (chunks : list pychunk) (b : Z) :
  (0 < b)%Z -> upsert_chunks E py_str gen idx chunks b = Done idx' ->
  (forall i, idx' ("chunk_" ++ str_nat i)%string
             = match nth_error (make_vectors E py_str gen chunks) i with
               | Some v => Some v | None => idx ("chunk_" ++ str_nat i)%string end) /\
  (forall k, (forall i, k <> ("chunk_" ++ str_nat i)%string) -> idx' k = idx k).
Proof.
  intros Hb Hu.
  destruct (upload_batches_pos py_str gen idx chunks b Hb)
    as [bs [_ [Hc [_ Hd]]]].
  rewrite Hd in Hu. injection Hu as <-. rewrite upsert_concat, Hc.
  apply upsert_lookup. intros j v Hj. apply (vectors_go_id _ _ 0 j v Hj).
Qed.

End UpsertIds.

(** X19 (pinecone_utils.upsert_chunks, vector ids): ids are [chunk_<i>] by
    position, so uploading document B after document A (positive batch size)
    replaces A's vector [i] by B's for every position B has, keeps A's vectors
    at the positions past B's length, and leaves every other id untouched. *)
Theorem reupload_keeps_stale_chunks {E : Type} (py_str : pyval -> string)
        (gen : list string -> list E) (idx idx1 idx2 : index E)
        (A B : list pychunk) (batch_size : Z) :
  (0 < batch_size)%Z ->
  upsert_chunks E py_str gen idx A batch_size = Done idx1 ->
  upsert_chunks E py_str gen idx1 B batch_size = Done idx2 ->
  (forall i, idx2 ("chunk_" ++ str_nat i)%string
     = match nth_error (make_vectors E py_str gen B) i with
       | Some v => Some v
       | None => match nth_error (make_vectors E py_str gen A) i with
                 | Some v => Some v
                 | None => idx ("chunk_" ++ str_nat i)%string
                 end
       end) /\
  (forall k, (forall i, k <> ("chunk_" ++ str_nat i)%string) -> idx2 k = idx k).
Proof.
  intros Hb HA HB.
  destruct (upsert_chunks_lookup E py_str gen idx idx1 A batch_size Hb HA) as [A1 A2].
  destruct (upsert_chunks_lookup E py_str gen idx1 idx2 B batch_size Hb HB) as [B1 B2].
  split.
  - intros i. rewrite B1. destruct (nth_error _ i); [reflexivity | apply A1].
  - intros k Hk. rewrite B2 by exact Hk. apply A2. exact Hk.
Qed.

Definition stale_doc_a : list pychunk := [("old one"%string, []); ("old two"%string, [])].
Definition stale_doc_b : list pychunk := [("new"%string, [])].
Definition stale_idx1 : index nat :=
  match upsert_chunks nat (fun _ => ""%string) (map String.length) (fun _ => None) stale_doc_a 50 with
  | Done i => i | Fail _ => fun _ => None end.
Definition stale_idx2 : index nat :=
  match upsert_chunks nat (fun _ => ""%string) (map String.length) stale_idx1 stale_doc_b 50 with
  | Done i => i | Fail _ => fun _ => None end.

Lemma reupload_keeps_stale_chunks_witness :
  stale_idx2 "chunk_0"%string = Some (mk_vector nat "chunk_0" 3 [("chunk_text"%string, VStr "new")]) /\
  stale_idx2 "chunk_1"%string = Some (mk_vector nat "chunk_1" 7 [("chunk_text"%string, VStr "old two")]).
Proof.
  destruct (reupload_keeps_stale_chunks (fun _ => ""%string) (map String.length) (fun _ => None)
              stale_idx1 stale_idx2 stale_doc_a stale_doc_b 50 ltac:(lia)
              eq_refl eq_refl) as [H _].
  split; [exact (H 0) | exact (H 1)].
Defined.

Lemma forallb_is_str_map (l : list string) : forallb is_str (map VStr l) = true.
Proof. induction l as [|x l IH]; simpl; [reflexivity | exact IH]. Qed.

(** X20 (document_loader.parse_document_in_memory with
    pinecone_utils.upsert_chunks): the metadata stored for a chunk of the
    pipeline is its text under [chunk_text], then the section ([""] when
    there is none), the clause, the page as [str(page)], the context list and,
    if any, the references list, in that order. *)
Theorem stored_chunk_metadata (py_str : pyval -> string) (h : heap) (c : chunk) :
  sanitized_metadata py_str (fst (chunk_dict h c)) (snd (chunk_dict h c))
  = [("chunk_text"%string, VStr (chunk_text c));
     ("section"%string, VStr (or_empty (ch_section c)));
     ("clause"%string, VStr (ch_clause c));
     ("page"%string, VStr (py_str (VInt (Z.of_nat (ch_page c)))));
     ("context"%string, VList (map VStr (deref h (ch_context c))))]
    ++ match ch_references c with
       | Some refs => [("references"%string, VList (map VStr refs))]
       | None => []
       end.
Proof.
  unfold sanitized_metadata. rewrite (sanitize_fold_fresh py_str).
  - destruct c as [t hd sec pg cl ctx refs]; simpl.
    rewrite forallb_is_str_map.
    destruct sec; destruct refs; simpl; try rewrite forallb_is_str_map; reflexivity.
  - destruct c as [t hd sec pg cl ctx [refs|]]; simpl; repeat constructor; simpl;
    intros H; repeat destruct H as [H|H]; try discriminate; exact H.
Qed.

Section LogicFacts.
Variable F : Type.
Variables (fadd fsub fmul : F -> F -> F) (f_of_nat : nat -> F) (to_F : pyval -> F).
Variables (f01 f03 f07 f1 f005 : F).
Variable flt : F -> F -> bool.
Variable ingest : string -> outcome unit.
Variable parse_query : string -> parse_result.
Variable matches_for : string -> outcome (list (pydict * F)).
Variable llm_rank : string -> list (qchunk F) -> llm_reply.
Variable fmt4 : F -> string.
Variable py_str : pyval -> string.

Local Abbreviation boostL := (apply_keyword_boost F fadd fmul f_of_nat).
Local Abbreviation boostA := (apply_keyword_boost_any F fadd fmul f_of_nat).
Local Abbreviation rerank := (rerank_chunks_with_llm F fadd fsub fmul f_of_nat to_F f01 f03 f07 f1 flt).
Local Abbreviation answer := (answer_for F fadd fsub fmul f_of_nat to_F f01 f03 f07 f1 f005 flt
                            parse_query matches_for llm_rank fmt4 py_str).
Local Abbreviation pq := (process_query F fadd fsub fmul f_of_nat to_F f01 f03 f07 f1 f005 flt
                        ingest parse_query matches_for llm_rank fmt4 py_str).

Lemma omap_fail {A B} (f : A -> outcome B) (l : list A) (e : pyexc) :
  omap f l = Fail e -> exists x, In x l /\ f x = Fail e.
Proof.
  induction l as [|x l IH]; simpl; [discriminate|].
  destruct (f x) eqn:Ef; simpl.
  - destruct (omap f l) eqn:El; simpl; [discriminate|].
    intros H. injection H as <-. destruct (IH eq_refl) as [y [Hy Hf]].
    exists y. split; [right; exact Hy | exact Hf].
  - intros H. injection H as <-. exists x. split; [left; reflexivity | exact Ef].
Qed.

Lemma omap_done {A B} (f : A -> outcome B) (P : A -> B -> Prop) (l : list A) :
  (forall x, In x l -> exists y, f x = Done y /\ P x y) ->
  exists ys, omap f l = Done ys /\ Forall2 P l ys.
Proof.
  induction l as [|x l IH]; intros H; simpl.
  - exists []. split; [reflexivity | constructor].
  - destruct (H x (or_introl eq_refl)) as [y [Hy Py]]. rewrite Hy. simpl.
    destruct IH as [ys [Hys Pys]]; [intros z Hz; apply H; right; exact Hz|].
    rewrite Hys. simpl. exists (y :: ys). split; [reflexivity | constructor; assumption].
Qed.

Lemma omap_done_inv {A B} (f : A -> outcome B) (l : list A) (ys : list B) :
  omap f l = Done ys -> Forall2 (fun x y => f x = Done y) l ys.
Proof.
  revert ys. induction l as [|x l IH]; intros ys; simpl.
  - intros H. injection H as <-. constructor.
  - destruct (f x) eqn:Ef; simpl; [|discriminate].
    destruct (omap f l) eqn:El; simpl; [|discriminate].
    intros H. injection H as <-. constructor; [exact Ef | apply IH; reflexivity].
Qed.

Lemma omap_fail_intro {A B} (f : A -> outcome B) (l : list A) (x : A) (e : pyexc) :
  In x l -> f x = Fail e ->
  (forall y e', In y l -> f y = Fail e' -> e' = e) ->
  omap f l = Fail e.
Proof.
  induction l as [|y l IH]; intros Hx Hf Hall; [destruct Hx|]. simpl.
  destruct (f y) eqn:Ey; simpl.
  - destruct Hx as [<- | Hx]; [rewrite Hf in Ey; discriminate|].
    rewrite (IH Hx Hf (fun z e' Hz => Hall z e' (or_intror Hz))). reflexivity.
  - f_equal. exact (Hall y e0 (or_introl eq_refl) Ey).
Qed.

Lemma empty_keyword_counts (kws : list string) (text : string) :
  In ""%string kws -> 1 <= match_count kws text.
Proof.
  intros Hin. unfold match_count.
  assert (Hf : In ""%string (filter (fun kw => py_in (lower_s kw) text) kws)).
  { apply filter_In. split; [exact Hin|].
    unfold py_in, lower_s. simpl. destruct (L text); reflexivity. }
  destruct (filter _ kws); [destruct Hf | simpl; lia].
Qed.

Lemma boost_chunk_fail (kws : list string) (boost : F) (c : qchunk F) (e : pyexc) :
  boost_chunk F fadd fmul f_of_nat kws boost c = Fail e -> e = AttrError /\ is_str (q_text c) = false.
Proof.
  unfold boost_chunk, chunk_text_lower. destruct (q_text c); simpl; try (intros H; injection H as <-; split; reflexivity).
  destruct (0 <? _); discriminate.
Qed.

Lemma boost_fail (cs : list (qchunk F)) (kws : list string) (boost : F) (e : pyexc) :
  boostL cs kws boost = Fail e -> e = AttrError /\ Exists (fun c => is_str (q_text c) = false) cs.
Proof.
  intros He. unfold apply_keyword_boost in He.
  destruct (omap_fail _ _ _ He) as [c [Hc Hf]].
  destruct (boost_chunk_fail _ _ _ _ Hf) as [-> Hs].
  split; [reflexivity|]. apply Exists_exists. exists c. split; assumption.
Qed.

Lemma boost_done (cs : list (qchunk F)) (kws : list string) (boost : F) :
  Forall (fun c => is_str (q_text c) = true) cs ->
  exists cs', boostL cs kws boost = Done cs' /\ Forall2 (fun c c' => q_llm c' = q_llm c) cs cs'.
Proof.
  intros Hall. unfold apply_keyword_boost. apply omap_done.
  intros c Hc. rewrite Forall_forall in Hall. specialize (Hall c Hc).
  unfold boost_chunk, chunk_text_lower.
  destruct (q_text c) eqn:Et; try discriminate. simpl.
  destruct (0 <? _); eexists; split; reflexivity.
Qed.

(** X21 (logic.apply_keyword_boost): the boost fails only with
    AttributeError, when some chunk's [chunk_text] is not a string; when all
    are strings it returns one chunk per input chunk, changing nothing but
    the score, which moves only for a chunk where some keyword occurs (case
    folded); and an empty keyword occurs in every text. *)
Theorem keyword_boost_spec (cs : list (qchunk F)) (kws : list string) (boost : F) :
  (forall e, boostL cs kws boost = Fail e ->
             e = AttrError /\ Exists (fun c => is_str (q_text c) = false) cs) /\
  (Forall (fun c => is_str (q_text c) = true) cs ->
   exists cs', boostL cs kws boost = Done cs' /\
     Forall2 (fun c c' =>
       q_text c' = q_text c /\ q_metadata c' = q_metadata c /\
       q_llm c' = q_llm c /\ q_final c' = q_final c /\
       forall s, q_text c = VStr s ->
         let n := match_count kws (lower_s s) in
         (n = 0 -> q_score c' = q_score c) /\
         (0 < n -> q_score c' = fadd (q_score c) (fmul boost (f_of_nat n)))) cs cs') /\
  (In ""%string kws -> forall text, 1 <= match_count kws text).
Proof.
  split; [|split].
  - intros e He. exact (boost_fail cs kws boost e He).
  - intros Hall. unfold apply_keyword_boost. apply omap_done.
    intros c Hc. rewrite Forall_forall in Hall. specialize (Hall c Hc).
    unfold boost_chunk, chunk_text_lower.
    destruct (q_text c) as [| s | | | | |] eqn:Et; try discriminate. simpl.
    destruct (0 <? match_count kws (lower_s s)) eqn:En.
    + eexists. split; [reflexivity|]. simpl.
      do 4 (split; [rewrite ?Et; reflexivity|]).
      intros s' Hs'. injection Hs' as <-. simpl.
      apply Nat.ltb_lt in En. split; intros; [lia | reflexivity].
    + eexists. split; [reflexivity|].
      do 4 (split; [rewrite ?Et; reflexivity|]).
      intros s' Hs'. injection Hs' as <-. simpl.
      apply Nat.ltb_ge in En. split; intros; [reflexivity | lia].
  - intros Hin text. apply empty_keyword_counts. exact Hin.
Qed.

(** The fields of a chunk that re-ranking carries over unchanged. *)
Definition base (c : qchunk F) : pyval * pydict * F := (q_text c, q_metadata c, q_score c).

Lemma length_update_nth {A} (n : nat) (f : A -> A) (l : list A) :
  length (update_nth n f l) = length l.
Proof.
  revert n. induction l as [|x l IH]; intros [|n]; simpl; try reflexivity. rewrite IH. reflexivity.
Qed.

Lemma map_update_nth {A B} (g : A -> B) (n : nat) (f : A -> A) (l : list A) :
  (forall x, g (f x) = g x) -> map g (update_nth n f l) = map g l.
Proof.
  intros Hg. revert n. induction l as [|x l IH]; intros [|n]; simpl; try reflexivity.
  - rewrite Hg. reflexivity.
  - rewrite IH. reflexivity.
Qed.

Lemma nth_error_update_nth_same {A} (n : nat) (f : A -> A) (l : list A) :
  nth_error (update_nth n f l) n = option_map f (nth_error l n).
Proof.
  revert n. induction l as [|x l IH]; intros [|n]; simpl; try reflexivity. apply IH.
Qed.

Lemma nth_error_update_nth_other {A} (n m : nat) (f : A -> A) (l : list A) :
  n <> m -> nth_error (update_nth n f l) m = nth_error l m.
Proof.
  revert n m. induction l as [|x l IH]; intros [|n] [|m] Hnm; simpl; try reflexivity; try lia.
  apply IH. lia.
Qed.

Lemma attach_scores_base (items : list (Z * pyval)) (cs : list (qchunk F)) :
  length (attach_scores F items cs) = length cs /\ map base (attach_scores F items cs) = map base cs.
Proof.
  unfold attach_scores. revert cs. induction items as [|it items IH]; intros cs; simpl; [split; reflexivity|].
  destruct (_ && _).
  - destruct (IH (update_nth (Z.to_nat (fst it - 1)) (set_llm F (LJson (snd it))) cs)) as [H1 H2].
    rewrite H1, H2. split; [apply length_update_nth | apply map_update_nth; reflexivity].
  - apply IH.
Qed.

Lemma fallback_scores_base (i : nat) (cs : list (qchunk F)) :
  map base (fallback_scores F fsub fmul f_of_nat f01 f1 i cs) = map base cs.
Proof.
  revert i. induction cs as [|c cs IH]; intros i; simpl; [reflexivity|]. rewrite IH. reflexivity.
Qed.

Lemma set_final_done (c c' : qchunk F) :
  set_final F fadd fmul to_F f03 f07 c = Done c' -> base c' = base c /\ q_final c' <> None.
Proof.
  unfold set_final. destruct (llm_value F to_F (q_llm c)); simpl; [|discriminate].
  intros H. injection H as <-. split; [reflexivity | discriminate].
Qed.

Lemma set_final_fail (c : qchunk F) (e : pyexc) :
  set_final F fadd fmul to_F f03 f07 c = Fail e -> e = TypeError \/ e = OverflowError.
Proof.
  unfold set_final, llm_value. destruct (q_llm c) as [[v|x]|]; simpl; try discriminate.
  destruct (numeric v); [destruct (float_overflows v)|]; simpl; try discriminate;
    intros H; injection H as <-; auto.
Qed.

(** The LLM scores of chunks that pass the [float(...)] conversion, and
    those that are numbers. *)
Definition llm_no_overflow (c : qchunk F) : Prop :=
  match q_llm c with Some (LJson v) => float_overflows v = false | _ => True end.
Definition llm_numeric (c : qchunk F) : Prop :=
  match q_llm c with Some (LJson v) => numeric v = true | _ => True end.

Lemma set_final_fail_type (c : qchunk F) (e : pyexc) :
  llm_no_overflow c -> set_final F fadd fmul to_F f03 f07 c = Fail e -> e = TypeError.
Proof.
  unfold llm_no_overflow, set_final, llm_value. destruct (q_llm c) as [[v|x]|]; simpl; try discriminate.
  intros Hv. rewrite Hv. destruct (numeric v); simpl; [discriminate|].
  intros H. injection H as <-. reflexivity.
Qed.

Lemma set_final_fail_overflow (c : qchunk F) (e : pyexc) :
  llm_numeric c -> set_final F fadd fmul to_F f03 f07 c = Fail e -> e = OverflowError.
Proof.
  unfold llm_numeric, set_final, llm_value. destruct (q_llm c) as [[v|x]|]; simpl; try discriminate.
  intros Hv. rewrite Hv. destruct (float_overflows v); simpl; [|discriminate].
  intros H. injection H as <-. reflexivity.
Qed.

Lemma insert_desc_perm (x : qchunk F) (l : list (qchunk F)) :
  Permutation (insert_desc F to_F flt x l) (x :: l).
Proof.
  induction l as [|y l IH]; simpl; [reflexivity|].
  destruct (flt _ _); [|reflexivity].
  rewrite IH. apply perm_swap.
Qed.

Lemma sort_desc_perm (l : list (qchunk F)) : Permutation (sort_desc F to_F flt l) l.
Proof.
  induction l as [|x l IH]; simpl; [reflexivity|].
  rewrite insert_desc_perm. apply perm_skip. exact IH.
Qed.

Section Sorting.
Hypothesis flt_asym : forall a b, flt a b = true -> flt b a = false.
Let R (a b : qchunk F) : Prop := flt (final_key F to_F a) (final_key F to_F b) = false.

Lemma insert_desc_sorted (x : qchunk F) (l : list (qchunk F)) :
  Sorted R l -> Sorted R (insert_desc F to_F flt x l).
Proof.
  induction l as [|y l IH]; intros Hs; simpl.
  - constructor; constructor.
  - destruct (flt (final_key F to_F x) (final_key F to_F y)) eqn:Exy.
    + inversion Hs as [|? ? Hl Hhd]; subst. constructor; [apply IH; exact Hl|].
      destruct l as [|z l]; simpl.
      * constructor. apply flt_asym. exact Exy.
      * destruct (flt (final_key F to_F x) (final_key F to_F z)) eqn:Exz.
        -- inversion Hhd; subst. constructor. assumption.
        -- constructor. apply flt_asym. exact Exy.
    + constructor; [exact Hs | constructor; exact Exy].
Qed.

Lemma sort_desc_sorted (l : list (qchunk F)) : Sorted R (sort_desc F to_F flt l).
Proof.
  induction l as [|x l IH]; simpl; [constructor | apply insert_desc_sorted; exact IH].
Qed.
End Sorting.

Lemma rerank_done (cs out : list (qchunk F)) (reply : llm_reply) :
  rerank cs reply = Done out ->
  Permutation (map base out) (map base cs) /\ Forall (fun c => q_final c <> None) out /\
  ((forall a b, flt a b = true -> flt b a = false) ->
   Sorted (fun a b => flt (final_key F to_F a) (final_key F to_F b) = false) out).
Proof.
  unfold rerank_chunks_with_llm.
  set (scored := match reply with
                 | ReplyRaises => fallback_scores F fsub fmul f_of_nat f01 f1 0 cs
                 | ReplyScores items => attach_scores F items cs
                 end).
  assert (Hb : map base scored = map base cs).
  { subst scored. destruct reply; [apply fallback_scores_base | apply attach_scores_base]. }
  destruct (omap (set_final F fadd fmul to_F f03 f07) scored) as [finals|e] eqn:Ef; simpl; [|discriminate].
  intros H. injection H as <-.
  apply omap_done_inv in Ef.
  assert (Hf : map base finals = map base scored /\ Forall (fun c => q_final c <> None) finals).
  { clear Hb. induction Ef as [|c c' l l' Hc Hl [IH1 IH2]]; [split; [reflexivity | constructor]|].
    destruct (set_final_done _ _ Hc) as [B1 B2]. simpl. rewrite B1, IH1. split; [reflexivity|].
    constructor; assumption. }
  destruct Hf as [Hf1 Hf2]. split; [|split].
  - rewrite <- Hb, <- Hf1. apply Permutation_map. apply sort_desc_perm.
  - apply (Permutation_Forall (Permutation_sym (sort_desc_perm finals))). exact Hf2.
  - intros Hasym. apply sort_desc_sorted. exact Hasym.
Qed.

Lemma attach_scores_app (l1 l2 : list (Z * pyval)) (cs : list (qchunk F)) :
  attach_scores F (l1 ++ l2) cs = attach_scores F l2 (attach_scores F l1 cs).
Proof. unfold attach_scores. rewrite fold_left_app. reflexivity. Qed.

Lemma attach_scores_other (post : list (Z * pyval)) (i : nat) (cs : list (qchunk F)) :
  Forall (fun it => fst it <> (Z.of_nat i + 1)%Z) post ->
  nth_error (attach_scores F post cs) i = nth_error cs i.
Proof.
  revert cs. induction post as [|it post IH]; intros cs Hp; [reflexivity|].
  inversion Hp as [|? ? Hit Hpost]; subst.
  change (attach_scores F (it :: post) cs)
    with (attach_scores F post
            (if (0 <=? fst it - 1)%Z && (fst it - 1 <? Z.of_nat (length cs))%Z
             then update_nth (Z.to_nat (fst it - 1)) (set_llm F (LJson (snd it))) cs else cs)).
  rewrite IH by exact Hpost.
  destruct ((0 <=? fst it - 1)%Z && _) eqn:Ec; [|reflexivity].
  apply andb_true_iff in Ec. destruct Ec as [E1 _]. apply Z.leb_le in E1.
  apply nth_error_update_nth_other. lia.
Qed.

Lemma attach_scores_last (pre post : list (Z * pyval)) (i : nat) (v : pyval) (cs : list (qchunk F)) :
  i < length cs -> Forall (fun it => fst it <> (Z.of_nat i + 1)%Z) post ->
  exists c, nth_error (attach_scores F (pre ++ (Z.of_nat i + 1, v)%Z :: post) cs) i = Some c /\
            q_llm c = Some (LJson v).
Proof.
  intros Hi Hpost. rewrite attach_scores_app.
  change ((Z.of_nat i + 1, v)%Z :: post) with ([(Z.of_nat i + 1, v)%Z] ++ post).
  rewrite attach_scores_app, attach_scores_other by exact Hpost.
  set (cs1 := attach_scores F pre cs).
  assert (Hl : length cs1 = length cs) by apply attach_scores_base.
  change (attach_scores F [(Z.of_nat i + 1, v)%Z] cs1)
    with (if (0 <=? Z.of_nat i + 1 - 1)%Z && (Z.of_nat i + 1 - 1 <? Z.of_nat (length cs1))%Z
          then update_nth (Z.to_nat (Z.of_nat i + 1 - 1)) (set_llm F (LJson v)) cs1 else cs1).
  replace (Z.of_nat i + 1 - 1)%Z with (Z.of_nat i) by lia.
  destruct ((0 <=? Z.of_nat i)%Z && _) eqn:Ec.
  - rewrite Nat2Z.id, nth_error_update_nth_same.
    destruct (nth_error cs1 i) as [c|] eqn:En.
    + exists (set_llm F (LJson v) c). split; reflexivity.
    + apply nth_error_None in En. lia.
  - apply andb_false_iff in Ec. destruct Ec as [Ec|Ec]; [apply Z.leb_gt in Ec | apply Z.ltb_ge in Ec]; lia.
Qed.

Definition llm_ok (c : qchunk F) : Prop :=
  match q_llm c with Some (LJson v) => numeric v = true /\ float_overflows v = false | _ => True end.

Lemma Forall_update_nth {A} (P : A -> Prop) (n : nat) (f : A -> A) (l : list A) :
  Forall P l -> (forall x, P (f x)) -> Forall P (update_nth n f l).
Proof.
  revert n. induction l as [|x l IH]; intros [|n] Hl Hf; simpl; try constructor;
    inversion Hl; subst; try assumption; try apply Hf. apply IH; assumption.
Qed.

Lemma attach_scores_pres (P : qchunk F -> Prop) (items : list (Z * pyval)) (cs : list (qchunk F)) :
  (forall it c, In it items -> P (set_llm F (LJson (snd it)) c)) -> Forall P cs ->
  Forall P (attach_scores F items cs).
Proof.
  revert cs. induction items as [|it items IH]; intros cs Hit Hcs; [exact Hcs|].
  change (attach_scores F (it :: items) cs)
    with (attach_scores F items
            (if (0 <=? fst it - 1)%Z && (fst it - 1 <? Z.of_nat (length cs))%Z
             then update_nth (Z.to_nat (fst it - 1)) (set_llm F (LJson (snd it))) cs else cs)).
  apply IH; [intros it' c Hin; apply Hit; right; exact Hin|]. destruct (_ && _); [|exact Hcs].
  apply Forall_update_nth; [exact Hcs|]. intros x. apply Hit. left. reflexivity.
Qed.

Lemma attach_scores_ok (items : list (Z * pyval)) (cs : list (qchunk F)) :
  Forall (fun it => numeric (snd it) = true /\ float_overflows (snd it) = false) items ->
  Forall llm_ok cs ->
  Forall llm_ok (attach_scores F items cs).
Proof.
  revert cs. induction items as [|it items IH]; intros cs Hit Hcs; [exact Hcs|].
  inversion Hit as [|? ? Hv Hits]; subst.
  change (attach_scores F (it :: items) cs)
    with (attach_scores F items
            (if (0 <=? fst it - 1)%Z && (fst it - 1 <? Z.of_nat (length cs))%Z
             then update_nth (Z.to_nat (fst it - 1)) (set_llm F (LJson (snd it))) cs else cs)).
  apply IH; [exact Hits|]. destruct (_ && _); [|exact Hcs].
  apply Forall_update_nth; [exact Hcs|]. intros x. unfold llm_ok. simpl. exact Hv.
Qed.

Lemma fallback_scores_ok (i : nat) (cs : list (qchunk F)) :
  Forall llm_ok (fallback_scores F fsub fmul f_of_nat f01 f1 i cs).
Proof.
  revert i. induction cs as [|c cs IH]; intros i; simpl; constructor; [exact I | apply IH].
Qed.

Lemma set_final_ok (c : qchunk F) : llm_ok c -> exists c', set_final F fadd fmul to_F f03 f07 c = Done c'.
Proof.
  unfold llm_ok, set_final, llm_value. destruct (q_llm c) as [[v|x]|]; simpl; intros H.
  - destruct H as [H1 H2]. rewrite H1, H2. eexists. reflexivity.
  - eexists. reflexivity.
  - eexists. reflexivity.
Qed.

Lemma rerank_scored (cs : list (qchunk F)) (reply : llm_reply) :
  rerank cs reply
  = let? finals := omap (set_final F fadd fmul to_F f03 f07)
                        (match reply with
                         | ReplyRaises => fallback_scores F fsub fmul f_of_nat f01 f1 0 cs
                         | ReplyScores items => attach_scores F items cs
                         end) in
    Done (sort_desc F to_F flt finals).
Proof. reflexivity. Qed.

Lemma rerank_fail (cs : list (qchunk F)) (reply : llm_reply) (e : pyexc) :
  rerank cs reply = Fail e -> e = TypeError \/ e = OverflowError.
Proof.
  intros He. rewrite rerank_scored in He.
  destruct (omap _ _) eqn:Eo; simpl in He; [discriminate|].
  destruct (omap_fail _ _ _ Eo) as [c [_ Hc]]. injection He as <-. exact (set_final_fail c _ Hc).
Qed.

Lemma rerank_ok (cs : list (qchunk F)) (reply : llm_reply) :
  Forall llm_ok cs ->
  (forall items, reply = ReplyScores items ->
     Forall (fun it => numeric (snd it) = true /\ float_overflows (snd it) = false) items) ->
  exists out, rerank cs reply = Done out.
Proof.
  intros Hcs Hitems. rewrite rerank_scored.
  assert (Hok : Forall llm_ok (match reply with
                               | ReplyRaises => fallback_scores F fsub fmul f_of_nat f01 f1 0 cs
                               | ReplyScores items => attach_scores F items cs
                               end)).
  { destruct reply as [|items]; [apply fallback_scores_ok|].
    apply attach_scores_ok; [apply Hitems; reflexivity | exact Hcs]. }
  destruct (omap_done (set_final F fadd fmul to_F f03 f07) (fun _ _ => True)
              (match reply with
               | ReplyRaises => fallback_scores F fsub fmul f_of_nat f01 f1 0 cs
               | ReplyScores items => attach_scores F items cs
               end)) as [ys [Hys _]].
  { intros x Hx. rewrite Forall_forall in Hok. destruct (set_final_ok x (Hok x Hx)) as [c' Hc'].
    exists c'. split; [exact Hc' | exact I]. }
  rewrite Hys. eexists. reflexivity.
Qed.

(** X22 (logic.rerank_chunks_with_llm): re-ranking raises nothing but
    TypeError and OverflowError; on success it returns the same chunks
    (text, metadata and score), each with a final score, in descending
    final-score order; it succeeds for the fallback and whenever every LLM
    score is a number within float range; when the last LLM item for an
    in-range passage has a non-numeric score it raises TypeError, provided
    no score overflows; and when that score is an int too large for a float
    it raises OverflowError, provided every score is a number. *)
Theorem rerank_spec (cs : list (qchunk F)) (reply : llm_reply) :
  (forall e, rerank cs reply = Fail e -> e = TypeError \/ e = OverflowError) /\
  (forall out, rerank cs reply = Done out ->
     Permutation (map base out) (map base cs) /\ Forall (fun c => q_final c <> None) out /\
     ((forall a b, flt a b = true -> flt b a = false) ->
      Sorted (fun a b => flt (final_key F to_F a) (final_key F to_F b) = false) out)) /\
  (Forall llm_ok cs ->
   (forall items, reply = ReplyScores items ->
      Forall (fun it => numeric (snd it) = true /\ float_overflows (snd it) = false) items) ->
   exists out, rerank cs reply = Done out) /\
  (forall pre i v post, reply = ReplyScores (pre ++ (Z.of_nat i + 1, v)%Z :: post) ->
     i < length cs -> numeric v = false ->
     Forall (fun it => fst it <> (Z.of_nat i + 1)%Z) post ->
     Forall llm_no_overflow cs ->
     Forall (fun it => float_overflows (snd it) = false) (pre ++ (Z.of_nat i + 1, v)%Z :: post) ->
     rerank cs reply = Fail TypeError) /\
  (forall pre i n post, reply = ReplyScores (pre ++ (Z.of_nat i + 1, VInt n)%Z :: post) ->
     i < length cs -> (2 ^ 1024 - 2 ^ 970 <= Z.abs n)%Z ->
     Forall (fun it => fst it <> (Z.of_nat i + 1)%Z) post ->
     Forall llm_numeric cs ->
     Forall (fun it => numeric (snd it) = true) (pre ++ (Z.of_nat i + 1, VInt n)%Z :: post) ->
     rerank cs reply = Fail OverflowError).
Proof.
  split; [|split; [|split; [|split]]].
  - intros e He. exact (rerank_fail cs reply e He).
  - intros out Hout. exact (rerank_done cs out reply Hout).
  - intros Hcs Hitems. exact (rerank_ok cs reply Hcs Hitems).
  - intros pre i v post -> Hi Hv Hpost Hcs Hitems. rewrite rerank_scored.
    destruct (attach_scores_last pre post i v cs Hi Hpost) as [c [Hc Hl]].
    assert (Hno : Forall llm_no_overflow (attach_scores F (pre ++ (Z.of_nat i + 1, v)%Z :: post) cs)).
    { apply attach_scores_pres; [|exact Hcs]. intros it c' Hin. unfold llm_no_overflow. simpl.
      rewrite Forall_forall in Hitems. exact (Hitems it Hin). }
    rewrite (omap_fail_intro _ _ c TypeError).
    + reflexivity.
    + eapply nth_error_In. exact Hc.
    + unfold set_final, llm_value. rewrite Hl, Hv. reflexivity.
    + intros y e' Hy Hf. rewrite Forall_forall in Hno. exact (set_final_fail_type y e' (Hno y Hy) Hf).
  - intros pre i n post -> Hi Hn Hpost Hcs Hitems. rewrite rerank_scored.
    destruct (attach_scores_last pre post i (VInt n) cs Hi Hpost) as [c [Hc Hl]].
    assert (Hnum : Forall llm_numeric (attach_scores F (pre ++ (Z.of_nat i + 1, VInt n)%Z :: post) cs)).
    { apply attach_scores_pres; [|exact Hcs]. intros it c' Hin. unfold llm_numeric. simpl.
      rewrite Forall_forall in Hitems. exact (Hitems it Hin). }
    rewrite (omap_fail_intro _ _ c OverflowError).
    + reflexivity.
    + eapply nth_error_In. exact Hc.
    + unfold set_final, llm_value. rewrite Hl. unfold float_overflows.
      apply Z.leb_le in Hn. cbn [numeric]. rewrite Hn. reflexivity.
    + intros y e' Hy Hf. rewrite Forall_forall in Hnum. exact (set_final_fail_overflow y e' (Hnum y Hy) Hf).
Qed.

Lemma match_lines_ok (i : nat) (cs : list (qchunk F)) :
  Forall (fun c => q_final c <> None) cs ->
  exists ls, match_lines F fmt4 py_str i cs = Done ls /\ length ls = length cs.
Proof.
  revert i. induction cs as [|c cs IH]; intros i Hcs; simpl.
  - exists []. split; reflexivity.
  - inversion Hcs as [|? ? Hc Hrest]; subst.
    unfold match_line. destruct (q_final c) as [x|]; [|contradiction]. simpl.
    destruct (IH (S i) Hrest) as [ls [Hls Hlen]]. rewrite Hls. simpl.
    eexists. split; [reflexivity|]. simpl. rewrite Hlen. reflexivity.
Qed.

Ltac split_obind H :=
  lazymatch type of H with
  | obind ?m _ = _ => let E := fresh "Eo" in destruct m eqn:E; cbn [obind] in H
  end.

Lemma omap_ext_in {A B} (f g : A -> outcome B) (l : list A) :
  (forall x, In x l -> f x = g x) -> omap f l = omap g l.
Proof.
  induction l as [|x l IH]; intros H; simpl; [reflexivity|].
  rewrite (H x (or_introl eq_refl)), IH by (intros y Hy; apply H; right; exact Hy). reflexivity.
Qed.

Lemma py_iter_fail (v : pyval) (e : pyexc) : py_iter v = Fail e -> e = TypeError.
Proof. destruct v; simpl; try discriminate; intros H; injection H as <-; reflexivity. Qed.

Lemma py_join_fail (sep : string) (vs : list pyval) (e : pyexc) :
  py_join sep vs = Fail e -> e = TypeError.
Proof.
  unfold py_join. intros H. split_obind H; [discriminate H|]. injection H as ->.
  destruct (omap_fail _ _ _ Eo) as [v [_ Hv]].
  destruct v; simpl in Hv; try discriminate Hv; injection Hv as <-; reflexivity.
Qed.

Lemma query_parts_fail (p : parsed) (e : pyexc) :
  query_parts p = Fail e -> e = AttrError \/ e = TypeError.
Proof.
  unfold query_parts. intros H. split_obind H.
  - split_obind H.
    + split_obind H; [discriminate H|]. injection H as ->. right.
      destruct (py_truthy (p_keywords p)); [exact (py_iter_fail _ _ Eo1) | discriminate Eo1].
    + injection H as ->. right.
      destruct (py_truthy (p_conditions p)); [exact (py_iter_fail _ _ Eo0) | discriminate Eo0].
  - injection H as ->. left. destruct (p_intent p); simpl in Eo; try discriminate Eo.
    all: injection Eo as <-; reflexivity.
Qed.

Lemma omap_lower_strs (kws : list string) : omap py_lower (map VStr kws) = Done (map lower_s kws).
Proof. induction kws as [|k kws IH]; simpl; [reflexivity | rewrite IH; reflexivity]. Qed.

Lemma filter_lower_length (kws : list string) (text : string) :
  length (filter (fun kw => py_in kw text) (map lower_s kws)) = match_count kws text.
Proof.
  unfold match_count. induction kws as [|k kws IH]; simpl; [reflexivity|].
  destruct (py_in (lower_s k) text); simpl; rewrite IH; reflexivity.
Qed.

(** When [keywords] iterates to strings, the boost is [apply_keyword_boost]
    on those strings. *)
Lemma boost_any_strings (cs : list (qchunk F)) (v : pyval) (kws : list string) (boost : F) :
  py_iter v = Done (map VStr kws) -> boostA cs v boost = boostL cs kws boost.
Proof.
  intros Hv. unfold apply_keyword_boost_any, apply_keyword_boost. apply omap_ext_in. intros c _.
  unfold boost_chunk_any, boost_chunk.
  destruct (chunk_text_lower F c) as [text|e]; cbn [obind]; [|reflexivity].
  unfold match_count_any. rewrite Hv. cbn [obind]. rewrite omap_lower_strs. cbn [obind].
  rewrite filter_lower_length. reflexivity.
Qed.

Lemma boost_any_fail (cs : list (qchunk F)) (v : pyval) (boost : F) (e : pyexc) :
  boostA cs v boost = Fail e -> e = AttrError \/ e = TypeError.
Proof.
  unfold apply_keyword_boost_any. intros H. destruct (omap_fail _ _ _ H) as [c [_ Hc]].
  unfold boost_chunk_any in Hc. split_obind Hc.
  - unfold match_count_any in Hc.
    destruct (py_iter v) as [kws|e'] eqn:Ei; cbn [obind] in Hc.
    + destruct (omap py_lower kws) as [lows|e'] eqn:El; cbn [obind] in Hc; [destruct (0 <? _); discriminate Hc|].
      injection Hc as ->. left. destruct (omap_fail _ _ _ El) as [k [_ Hk]].
      destruct k; simpl in Hk; try discriminate Hk; injection Hk as <-; reflexivity.
    + injection Hc as ->. right. exact (py_iter_fail _ _ Ei).
  - injection Hc as ->. left. unfold chunk_text_lower in Eo.
    destruct (q_text c); try discriminate Eo; injection Eo as <-; reflexivity.
Qed.

(** A value of [keywords] that cannot be iterated makes the boost of the
    first chunk with a string text raise. *)
Lemma boost_any_iter_fail (c : qchunk F) (cs : list (qchunk F)) (v : pyval) (boost : F) (e : pyexc) :
  is_str (q_text c) = true -> py_iter v = Fail e -> boostA (c :: cs) v boost = Fail e.
Proof.
  intros Ht Hv. unfold apply_keyword_boost_any. cbn [omap].
  assert (Hc : boost_chunk_any F fadd fmul f_of_nat v boost c = Fail e).
  { unfold boost_chunk_any, chunk_text_lower. destruct (q_text c); try discriminate Ht.
    cbn [obind]. unfold match_count_any. rewrite Hv. reflexivity. }
  rewrite Hc. reflexivity.
Qed.

Lemma answer_shape (q : string) (p : parsed) (intent : string) (a : string) :
  parse_query q = Parsed p -> p_intent p = VStr intent -> answer q = Done a ->
  exists lines, a = ("Intent: " ++ intent ++ nl_s ++ "Entity: " ++ fmt_val py_str (p_entity p) ++ nl_s
                     ++ "Top Matches:" ++ nl_s ++ String.concat "" lines)%string.
Proof.
  intros Hp Hi H. unfold answer_for in H. rewrite Hp in H.
  do 6 (split_obind H; [|discriminate H]).
  injection H as <-. rewrite Hi. eexists. reflexivity.
Qed.

Lemma answer_fail (q : string) (e : pyexc) :
  answer q = Fail e ->
  (exists s, matches_for s = Fail e) \/ e = AttrError \/ e = TypeError \/ e = OverflowError.
Proof.
  intros H. unfold answer_for in H.
  destruct (parse_query q) as [msg| |p]; [discriminate H | injection H as <-; auto |].
  split_obind H; [|injection H as ->; destruct (query_parts_fail _ _ Eo); auto].
  split_obind H; [|injection H as ->; rewrite (py_join_fail _ _ _ Eo0); auto].
  split_obind H; [|injection H as ->; left; eexists; exact Eo1].
  split_obind H; [|injection H as ->; destruct (boost_any_fail _ _ _ _ Eo2); auto].
  split_obind H; [|injection H as ->; destruct (rerank_fail _ _ _ Eo3); auto].
  destruct (rerank_done _ _ _ Eo3) as [_ [Hf _]].
  destruct (match_lines_ok 1 (firstn 5 a3) (Forall_firstn_l _ 5 a3 Hf)) as [ls [Hls _]].
  rewrite Hls in H. discriminate H.
Qed.

Lemma omap_app_fail {A B} (f : A -> outcome B) (pre post : list A) (x : A) (e : pyexc) :
  Forall (fun y => exists b, f y = Done b) pre -> f x = Fail e ->
  omap f (pre ++ x :: post) = Fail e.
Proof.
  induction pre as [|y pre IH]; intros Hpre Hx; simpl.
  - rewrite Hx. reflexivity.
  - inversion Hpre as [|? ? [b Hb] Hrest]; subst. rewrite Hb. simpl.
    rewrite (IH Hrest Hx). reflexivity.
Qed.

(** X23 (logic.process_query): an ingestion failure is raised as it is;
    the only other exceptions are those of the retrieval [query_pinecone]
    and AttributeError, TypeError and OverflowError; on success there is one
    answer per question, in order: ["Failed to parse query: "] and the
    message for a question the parser raised on, and an answer opening with
    the intent, the entity and [Top Matches:] for a string intent.  A parse
    result without [get], or without a string intent, aborts the whole call
    with AttributeError, discarding the answers before it; so does a
    failing retrieval, with its exception; and so does a [keywords] value
    that cannot be iterated (such as None), with TypeError, once a chunk
    with a string text was retrieved. *)
Theorem process_query_spec (url : string) (qs : list string) :
  (forall e, ingest url = Fail e -> pq url qs = Fail e) /\
  (forall e, pq url qs = Fail e ->
     ingest url = Fail e \/ (exists s, matches_for s = Fail e) \/
     e = AttrError \/ e = TypeError \/ e = OverflowError) /\
  (forall answers, pq url qs = Done answers ->
     Forall2 (fun q a =>
       (forall msg, parse_query q = ParseRaises msg -> a = ("Failed to parse query: " ++ msg)%string) /\
       (forall p intent, parse_query q = Parsed p -> p_intent p = VStr intent ->
          exists rest, a = ("Intent: " ++ intent ++ nl_s ++ "Entity: " ++ fmt_val py_str (p_entity p)
                            ++ nl_s ++ "Top Matches:" ++ nl_s ++ rest)%string)) qs answers) /\
  (forall pre q post u, ingest url = Done u ->
     Forall (fun q' => exists a, answer q' = Done a) pre ->
     (parse_query q = ParsedNoGet \/ exists p, parse_query q = Parsed p /\ is_str (p_intent p) = false) ->
     pq url (pre ++ q :: post) = Fail AttrError) /\
  (forall pre q post u p parts s e, ingest url = Done u ->
     Forall (fun q' => exists a, answer q' = Done a) pre ->
     parse_query q = Parsed p -> query_parts p = Done parts -> py_join " " parts = Done s ->
     matches_for s = Fail e ->
     pq url (pre ++ q :: post) = Fail e) /\
  (forall pre q post u p parts s m ms, ingest url = Done u ->
     Forall (fun q' => exists a, answer q' = Done a) pre ->
     parse_query q = Parsed p -> query_parts p = Done parts -> py_join " " parts = Done s ->
     matches_for s = Done (m :: ms) ->
     (forall v, dict_get "chunk_text" (fst m) = Some v -> is_str v = true) ->
     py_iter (p_keywords p) = Fail TypeError ->
     pq url (pre ++ q :: post) = Fail TypeError).
Proof.
  split; [|split; [|split; [|split; [|split]]]].
  - intros e He. unfold process_query. rewrite He. reflexivity.
  - intros e. unfold process_query. destruct (ingest url) as [u|e'] eqn:Ei; simpl.
    + intros Ho. destruct (omap_fail _ _ _ Ho) as [q [_ Hq]].
      right. exact (answer_fail q e Hq).
    + intros H. injection H as <-. left. reflexivity.
  - intros answers. unfold process_query. destruct (ingest url) as [u|e'] eqn:Ei; simpl; [|discriminate].
    intros Ho. apply omap_done_inv in Ho.
    induction Ho as [|q a qs' as' Hqa Hrest IH]; constructor; [|exact IH].
    split.
    + intros msg Hp. unfold answer_for in Hqa. rewrite Hp in Hqa. injection Hqa as <-. reflexivity.
    + intros p intent Hp Hi. destruct (answer_shape q p intent a Hp Hi Hqa) as [lines ->].
      exists (String.concat "" lines). reflexivity.
  - intros pre q post u Hu Hpre Hq. unfold process_query. rewrite Hu. simpl.
    apply omap_app_fail; [exact Hpre|].
    unfold answer_for. destruct Hq as [Hq | [p [Hq Hs]]]; rewrite Hq; [reflexivity|].
    unfold query_parts. destruct (p_intent p); try discriminate Hs; reflexivity.
  - intros pre q post u p parts s e Hu Hpre Hq H1 H2 H3. unfold process_query. rewrite Hu. simpl.
    apply omap_app_fail; [exact Hpre|].
    unfold answer_for. rewrite Hq, H1. cbn [obind]. rewrite H2. cbn [obind]. rewrite H3. reflexivity.
  - intros pre q post u p parts s m ms Hu Hpre Hq H1 H2 H3 Hm Hk. unfold process_query. rewrite Hu. simpl.
    apply omap_app_fail; [exact Hpre|].
    unfold answer_for. rewrite Hq, H1. cbn [obind]. rewrite H2. cbn [obind]. rewrite H3. cbn [obind].
    unfold query_chunks. cbn [map].
    rewrite (boost_any_iter_fail _ _ _ _ TypeError); [reflexivity| |exact Hk].
    simpl. destruct (dict_get "chunk_text" (fst m)) eqn:Eg; [exact (Hm _ eq_refl) | reflexivity].
Qed.

Lemma llm_none_ok (l l' : list (qchunk F)) :
  Forall2 (fun c c' => q_llm c' = q_llm c) l l' -> Forall (fun c => q_llm c = None) l ->
  Forall llm_ok l'.
Proof.
  intros H. induction H as [|c c' l l' Hc Hl IH]; intros Hn; constructor.
  - inversion Hn as [|? ? Hn0 _]; subst. unfold llm_ok. rewrite Hc, Hn0. exact I.
  - apply IH. inversion Hn; assumption.
Qed.


End LogicFacts.

(** Integer stand-ins for the floats, scaled by ten: 0.1 is 1, 0.3 is 3,
    0.7 is 7, 1.0 is 10 and the boost 0.05 is 5. *)
Definition wz_to_F (v : pyval) : Z := match v with VInt z => z | VBool b => if b then 1%Z else 0%Z | _ => 0%Z end.
Definition wq (t : string) (s : Z) : qchunk Z := mk_qchunk (VStr t) [] s None None.
Definition w_parsed : parsed :=
  mk_parsed (VStr "coverage_check") (VStr "maternity") (VList []) (VList [VStr "maternity"]).
Definition w_parse (q : string) : parse_result :=
  if String.eqb q "bad" then ParseRaises "Invalid JSON"%string
  else if String.eqb q "vague" then Parsed (mk_parsed VNone VNone (VList []) (VList []))
  else if String.eqb q "nokw" then Parsed (mk_parsed (VStr "coverage_check") VNone (VList []) VNone)
  else Parsed w_parsed.
Definition w_match1 : pydict * Z :=
  ([("chunk_text"%string, VStr "Maternity cover after 2 years"); ("page"%string, VStr "3")], 8%Z).
Definition w_matches (_ : string) : outcome (list (pydict * Z)) :=
  Done [w_match1; ([("chunk_text"%string, VStr "Dental: not covered")], 4%Z)].
Definition w_matches_down (_ : string) : outcome (list (pydict * Z)) :=
  Fail (Raised "Pinecone unavailable").
Definition w_rank (_ : string) (_ : list (qchunk Z)) : llm_reply := ReplyRaises.
Definition w_fmt (_ : Z) : string := "0.0000".
Definition w_str (_ : pyval) : string := "?".

Lemma keyword_boost_spec_witness :
  (exists cs', apply_keyword_boost Z Z.add Z.mul Z.of_nat [wq "Grace period of 30 days" 10]
                 ["grace PERIOD"%string; "renewal"%string] 5%Z = Done cs') /\
  1 <= match_count [""%string; "x"%string] "abc" /\
  (forall e, apply_keyword_boost Z Z.add Z.mul Z.of_nat [mk_qchunk (VInt 1) [] 0%Z None None]
               ["x"%string] 5%Z = Fail e -> e = AttrError).
Proof.
  split; [|split].
  - destruct (proj1 (proj2 (keyword_boost_spec Z Z.add Z.mul Z.of_nat [wq "Grace period of 30 days" 10]
                               ["grace PERIOD"%string; "renewal"%string] 5%Z))) as [cs' [H _]].
    + repeat constructor.
    + exists cs'. exact H.
  - apply (proj2 (proj2 (keyword_boost_spec Z Z.add Z.mul Z.of_nat [] [""%string; "x"%string] 5%Z))).
    left. reflexivity.
  - intros e He.
    exact (proj1 (proj1 (keyword_boost_spec Z Z.add Z.mul Z.of_nat [mk_qchunk (VInt 1) [] 0%Z None None]
                           ["x"%string] 5%Z) e He)).
Defined.

Lemma rerank_spec_witness :
  rerank_chunks_with_llm Z Z.add Z.sub Z.mul Z.of_nat wz_to_F 1%Z 3%Z 7%Z 10%Z Z.ltb
    [wq "a" 2; wq "b" 9] (ReplyScores [(1%Z, VInt 9); (2%Z, VStr "high")]) = Fail TypeError /\
  rerank_chunks_with_llm Z Z.add Z.sub Z.mul Z.of_nat wz_to_F 1%Z 3%Z 7%Z 10%Z Z.ltb
    [wq "a" 2; wq "b" 9] (ReplyScores [(1%Z, VInt (2 ^ 1024)%Z)]) = Fail OverflowError /\
  exists out, rerank_chunks_with_llm Z Z.add Z.sub Z.mul Z.of_nat wz_to_F 1%Z 3%Z 7%Z 10%Z Z.ltb
                [wq "a" 2; wq "b" 9] ReplyRaises = Done out /\
              Sorted (fun a b => Z.ltb (final_key Z wz_to_F a) (final_key Z wz_to_F b) = false) out.
Proof.
  split; [|split].
  - apply (proj1 (proj2 (proj2 (proj2 (rerank_spec Z Z.add Z.sub Z.mul Z.of_nat wz_to_F 1%Z 3%Z 7%Z 10%Z Z.ltb
              [wq "a" 2; wq "b" 9] (ReplyScores [(1%Z, VInt 9); (2%Z, VStr "high")])))))
             [(1%Z, VInt 9)] 1 (VStr "high") []);
      [reflexivity | simpl; lia | reflexivity | constructor | repeat constructor | vm_compute; repeat constructor].
  - apply (proj2 (proj2 (proj2 (proj2 (rerank_spec Z Z.add Z.sub Z.mul Z.of_nat wz_to_F 1%Z 3%Z 7%Z 10%Z Z.ltb
              [wq "a" 2; wq "b" 9] (ReplyScores [(1%Z, VInt (2 ^ 1024)%Z)])))))
             [] 0 (2 ^ 1024)%Z []);
      [reflexivity | simpl; lia | apply Z.leb_le; vm_compute; reflexivity | constructor
      | repeat constructor | vm_compute; repeat constructor].
  - destruct (proj1 (proj2 (proj2 (rerank_spec Z Z.add Z.sub Z.mul Z.of_nat wz_to_F 1%Z 3%Z 7%Z 10%Z Z.ltb
              [wq "a" 2; wq "b" 9] ReplyRaises))))
      as [out Hout]; [repeat constructor | intros items H; discriminate H|].
    exists out. split; [exact Hout|].
    apply (proj2 (proj2 (proj1 (proj2 (rerank_spec Z Z.add Z.sub Z.mul Z.of_nat wz_to_F 1%Z 3%Z 7%Z 10%Z Z.ltb
              [wq "a" 2; wq "b" 9] ReplyRaises)) out Hout))).
    intros a b Hab. apply Z.ltb_lt in Hab. apply Z.ltb_ge. lia.
Defined.

Lemma process_query_spec_witness :
  process_query Z Z.add Z.sub Z.mul Z.of_nat wz_to_F 1%Z 3%Z 7%Z 10%Z 5%Z Z.ltb (fun _ => Done tt)
    w_parse w_matches w_rank w_fmt w_str "policy.pdf" ["bad"%string; "vague"%string; "ok"%string]
  = Fail AttrError /\
  process_query Z Z.add Z.sub Z.mul Z.of_nat wz_to_F 1%Z 3%Z 7%Z 10%Z 5%Z Z.ltb
    (fun _ => Fail (Raised "Failed to download document"))
    w_parse w_matches w_rank w_fmt w_str "policy.pdf" ["ok"%string]
  = Fail (Raised "Failed to download document") /\
  process_query Z Z.add Z.sub Z.mul Z.of_nat wz_to_F 1%Z 3%Z 7%Z 10%Z 5%Z Z.ltb (fun _ => Done tt)
    w_parse w_matches_down w_rank w_fmt w_str "policy.pdf" ["ok"%string]
  = Fail (Raised "Pinecone unavailable") /\
  process_query Z Z.add Z.sub Z.mul Z.of_nat wz_to_F 1%Z 3%Z 7%Z 10%Z 5%Z Z.ltb (fun _ => Done tt)
    w_parse w_matches w_rank w_fmt w_str "policy.pdf" ["bad"%string; "nokw"%string]
  = Fail TypeError.
Proof.
  split; [|split; [|split]].
  - apply (proj1 (proj2 (proj2 (proj2 (process_query_spec Z Z.add Z.sub Z.mul Z.of_nat wz_to_F
              1%Z 3%Z 7%Z 10%Z 5%Z Z.ltb (fun _ => Done tt) w_parse w_matches w_rank w_fmt w_str
              "policy.pdf" [])))))
      with (pre := ["bad"%string]) (q := "vague"%string) (post := ["ok"%string]) (u := tt);
      [reflexivity | |].
    + constructor; [|constructor]. eexists. reflexivity.
    + right. eexists. split; reflexivity.
  - apply (proj1 (process_query_spec Z Z.add Z.sub Z.mul Z.of_nat wz_to_F 1%Z 3%Z 7%Z 10%Z 5%Z Z.ltb
              (fun _ => Fail (Raised "Failed to download document")) w_parse w_matches w_rank w_fmt w_str
              "policy.pdf" ["ok"%string])).
    reflexivity.
  - apply (proj1 (proj2 (proj2 (proj2 (proj2 (process_query_spec Z Z.add Z.sub Z.mul Z.of_nat wz_to_F
              1%Z 3%Z 7%Z 10%Z 5%Z Z.ltb (fun _ => Done tt) w_parse w_matches_down w_rank w_fmt w_str
              "policy.pdf" []))))))
      with (pre := []) (q := "ok"%string) (post := []) (u := tt) (p := w_parsed)
           (parts := [VStr "coverage check"; VStr "maternity"; VStr "maternity"])
           (s := "coverage check maternity maternity"%string);
      [reflexivity | constructor | reflexivity | vm_compute; reflexivity | vm_compute; reflexivity | reflexivity].
  - apply (proj2 (proj2 (proj2 (proj2 (proj2 (process_query_spec Z Z.add Z.sub Z.mul Z.of_nat wz_to_F
              1%Z 3%Z 7%Z 10%Z 5%Z Z.ltb (fun _ => Done tt) w_parse w_matches w_rank w_fmt w_str
              "policy.pdf" []))))))
      with (pre := ["bad"%string]) (q := "nokw"%string) (post := []) (u := tt)
           (p := mk_parsed (VStr "coverage_check") VNone (VList []) VNone)
           (parts := [VStr "coverage check"]) (s := "coverage check"%string)
           (m := w_match1) (ms := [([("chunk_text"%string, VStr "Dental: not covered")], 4%Z)]);
      [reflexivity | | reflexivity | vm_compute; reflexivity | vm_compute; reflexivity | reflexivity
      | intros v Hv; injection Hv as <-; reflexivity | reflexivity].
    constructor; [|constructor]. eexists. reflexivity.
Defined.

